(** * Bingo Pachinko: the peg field, the number oracle, the physics step
      and the round controller of [src/BingoPachinkoGame.tsx]

    The component is embedded as pure functions over an explicit game
    state.  JavaScript numbers are modelled by [number]: exact rationals
    extended with NaN and the two infinities.  Rounding, overflow and the
    sign of zero are not modelled; [Math.pow] and [Math.sqrt] on finite
    arguments are parameters of the physics step.  [Math.random] is a
    stream of rationals read through a cursor that is threaded through
    every function that draws from it.

    React state and refs are separate fields of [GameState].  Every input
    handler and every animation frame runs to completion and is followed by
    [render], which runs the [useEffect] hooks that copy state into the
    refs: the frame callback never runs between a state update and the
    effects of the render it causes.

    The pointer handlers take the pointer position already divided by the
    width of the game area; the DOM writes of [step] and the rendering of
    the component are left out. *)

From Stdlib Require Import QArith Qround Qminmax Lqa Lia ZArith.
From stdpp Require Import gmap strings list pretty.

(** ** JavaScript numbers *)

Inductive number : Type :=
  | NaN
  | Fin (q : Q)
  | PosInf
  | NegInf.

Definition Qltb (p q : Q) : bool :=
  match (p ?= q)%Q with Lt => true | _ => false end.

Definition Qleb (p q : Q) : bool :=
  match (p ?= q)%Q with Gt => false | _ => true end.

Definition Qsign (q : Q) : comparison := (q ?= 0)%Q.

Module Num.

Definition add (a b : number) : number :=
  match a, b with
  | NaN, _ | _, NaN => NaN
  | Fin p, Fin q => Fin (p + q)
  | PosInf, NegInf | NegInf, PosInf => NaN
  | PosInf, _ | _, PosInf => PosInf
  | NegInf, _ | _, NegInf => NegInf
  end.

Definition neg (a : number) : number :=
  match a with
  | NaN => NaN
  | Fin p => Fin (- p)
  | PosInf => NegInf
  | NegInf => PosInf
  end.

Definition sub (a b : number) : number :=
  match a, b with
  | Fin p, Fin q => Fin (p - q)
  | _, _ => add a (neg b)
  end.

(** an infinity of the sign [pos] scaled by a finite factor *)
Definition scaleInf (pos : bool) (q : Q) : number :=
  match Qsign q with
  | Eq => NaN
  | Gt => if pos then PosInf else NegInf
  | Lt => if pos then NegInf else PosInf
  end.

Definition mul (a b : number) : number :=
  match a, b with
  | NaN, _ | _, NaN => NaN
  | Fin p, Fin q => Fin (p * q)
  | PosInf, Fin q | Fin q, PosInf => scaleInf true q
  | NegInf, Fin q | Fin q, NegInf => scaleInf false q
  | PosInf, PosInf | NegInf, NegInf => PosInf
  | PosInf, NegInf | NegInf, PosInf => NegInf
  end.

(** [p / 0] is NaN for [p = 0] and an infinity of the sign of [p]
    otherwise (every zero is taken as [+0]). *)
Definition div (a b : number) : number :=
  match a, b with
  | NaN, _ | _, NaN => NaN
  | Fin p, Fin q =>
      match Qsign q with
      | Eq => scaleInf true p
      | _ => Fin (p / q)
      end
  | Fin _, PosInf | Fin _, NegInf => Fin 0
  | PosInf, Fin q => match Qsign q with Lt => NegInf | _ => PosInf end
  | NegInf, Fin q => match Qsign q with Lt => PosInf | _ => NegInf end
  | _, _ => NaN
  end.

(** [a < b]; false whenever an operand is NaN *)
Definition ltb (a b : number) : bool :=
  match a, b with
  | NaN, _ | _, NaN => false
  | Fin p, Fin q => Qltb p q
  | NegInf, NegInf | PosInf, _ | _, NegInf => false
  | NegInf, _ | _, PosInf => true
  end.

(** [a <= b]; false whenever an operand is NaN *)
Definition leb (a b : number) : bool :=
  match a, b with
  | NaN, _ | _, NaN => false
  | Fin p, Fin q => Qleb p q
  | NegInf, _ | _, PosInf => true
  | PosInf, _ | _, NegInf => false
  end.

Definition gtb (a b : number) : bool := ltb b a.
Definition geb (a b : number) : bool := leb b a.

(** [a || d] on numbers: [d] when [a] is 0 or NaN *)
Definition or (a d : number) : number :=
  match a with
  | NaN => d
  | Fin q => match Qsign q with Eq => d | _ => a end
  | _ => a
  end.

Definition isFin (a : number) : Prop :=
  match a with Fin _ => True | _ => False end.

(** [lo <= a <= hi] for a finite [a]; no other number is in a range *)
Definition within (lo hi : Q) (a : number) : Prop :=
  match a with Fin q => (lo <= q <= hi)%Q | _ => False end.

End Num.

Declare Scope number_scope.
Delimit Scope number_scope with num.
Bind Scope number_scope with number.
Infix "+" := Num.add : number_scope.
Infix "-" := Num.sub : number_scope.
Infix "*" := Num.mul : number_scope.
Infix "/" := Num.div : number_scope.
Infix "<?" := Num.ltb : number_scope.
Infix "<=?" := Num.leb : number_scope.
Infix ">?" := Num.gtb (at level 70) : number_scope.
Infix ">=?" := Num.geb (at level 70) : number_scope.
Coercion Fin : Q >-> number.

Definition Math_max (a b : number) : number :=
  match a, b with
  | NaN, _ | _, NaN => NaN
  | _, _ => if Num.ltb a b then b else a
  end.

Definition Math_min (a b : number) : number :=
  match a, b with
  | NaN, _ | _, NaN => NaN
  | _, _ => if Num.ltb b a then b else a
  end.

(** [function clamp(v, a, b) { return Math.max(a, Math.min(b, v)); }] *)
Definition clamp (v a b : number) : number :=
  Math_max a (Math_min b v).

(** ** The random source *)

Record RNG : Type := mkRNG { draws : nat -> Q; cursor : nat }.

(** [Math.random()]: the next draw, and the source advanced by one *)
Definition Math_random (g : RNG) : Q * RNG :=
  (draws g (cursor g), mkRNG (draws g) (S (cursor g))).

(** draws as [Math.random] promises them: in [0, 1) *)
Definition unitDraws (g : RNG) : Prop :=
  forall i : nat, (0 <= draws g i /\ draws g i < 1)%Q.

(** ** Pegs and the ball *)

Module Peg.
Record t : Type := mk {
  id : string;
  x : number;
  y : number;
  removed : bool;
  hit : bool;
  num : option Z   (* [None] is [undefined] *)
}.
End Peg.

Module PBall.
Record t : Type := mk {
  x : number;
  y : number;
  vx : number;
  vy : number;
  dropping : bool
}.
End PBall.

Abbreviation Peg := Peg.t.
Abbreviation PBall := PBall.t.

(** ** Peg Field Generator *)

Definition ofNat (n : nat) : number := Fin (inject_Z (Z.of_nat n)).

Record GenState : Type := mkGen {
  genPegs : list Peg;   (* [pegs], in push order *)
  genIdx : nat;         (* [idx] *)
  genRng : RNG
}.

(** the body of the inner loop of [generatePegs], after the [break] test *)
Definition placePeg (cols rows r c : nat) (st : GenState) : GenState :=
  let left : number := 0.12%Q in
  let right : number := 0.88%Q in
  let top : number := 0.15%Q in
  let bottom : number := 0.90%Q in
  let gx := (left + (ofNat c / (ofNat cols - 1%Q)) * (right - left))%num in
  let gy := (top + (ofNat r / (ofNat rows - 1%Q)) * (bottom - top))%num in
  let stagger := (ofNat (r mod 2) * (right - left) * 0.08%Q)%num in
  let '(u1, g1) := Math_random (genRng st) in
  let jitterX := ((Fin u1 - 0.5%Q) * 0.03%Q)%num in
  let '(u2, g2) := Math_random g1 in
  let jitterY := ((Fin u2 - 0.5%Q) * 0.03%Q)%num in
  let peg :=
    Peg.mk ("peg-" +:+ pretty (genIdx st))
           (clamp (gx + stagger + jitterX)%num 0.12%Q 0.88%Q)
           (clamp (gy + jitterY)%num 0.15%Q 0.90%Q)
           false false None in
  mkGen (genPegs st ++ [peg]) (S (genIdx st)) g2.

(** [for (let c = 0; c < cols; c++) { if (idx >= count) break; ... }],
    over the remaining column indices [cs] *)
Fixpoint colLoop (count cols rows r : nat) (cs : list nat) (st : GenState)
  : GenState :=
  match cs with
  | [] => st
  | c :: cs' =>
      if (count <=? genIdx st)%nat then st
      else colLoop count cols rows r cs' (placePeg cols rows r c st)
  end.

(** [for (let r = 0; r < rows; r++) ...], over the remaining row indices *)
Fixpoint rowLoop (count cols rows : nat) (rs : list nat) (st : GenState)
  : GenState :=
  match rs with
  | [] => st
  | r :: rs' =>
      rowLoop count cols rows rs' (colLoop count cols rows r (seq 0 cols) st)
  end.

(** [Math.ceil(count / cols)] for the loop bound *)
Definition ceilDiv (count cols : nat) : nat :=
  Z.to_nat (Qceiling (inject_Z (Z.of_nat count) / inject_Z (Z.of_nat cols))).

Definition generatePegs (count : nat) (g : RNG) : list Peg * RNG :=
  let cols := 6%nat in
  let rows := ceilDiv count cols in
  let st := rowLoop count cols rows (seq 0 rows) (mkGen [] 0 g) in
  (genPegs st, genRng st).

Definition inField (p : Peg) : Prop :=
  Num.within 0.12 0.88 (Peg.x p) /\ Num.within 0.15 0.90 (Peg.y p).

Definition fresh (p : Peg) : Prop :=
  Peg.removed p = false /\ Peg.hit p = false /\ Peg.num p = None.

(** ** Bingo helpers *)

(** [COLS]: the number range of each card column *)
Definition COLS : list (string * Z * Z) :=
  [("B", 1, 15); ("I", 16, 30); ("N", 31, 45); ("G", 46, 60); ("O", 61, 75)]%Z.

(** the [while] loop of [sampleUniqueInts]; [fuel] is what is left of the
    10000 iterations that [guard] allows *)
Fixpoint sampleLoop (fuel : nat) (min max : Z) (count : nat)
    (out : list Z) (used : gset Z) (g : RNG) : list Z * gset Z * RNG :=
  match fuel with
  | O => (out, used, g)
  | S fuel' =>
      if (length out <? count)%nat then
        let '(u, g1) := Math_random g in
        let n := (Qfloor (u * inject_Z (max - min + 1)) + min)%Z in
        if decide (n ∈ used) then sampleLoop fuel' min max count out used g1
        else sampleLoop fuel' min max count (out ++ [n]) ({[n]} ∪ used) g1
      else (out, used, g)
  end.

Definition sampleUniqueInts (min max : Z) (count : nat) (used : gset Z)
    (g : RNG) : list Z * gset Z * RNG :=
  sampleLoop (Z.to_nat 10000) min max count [] used g.

Inductive Cell : Type :=
  | CNum (n : Z)
  | FREE
  | Undefined.   (* a cell for which [picks[r]] was missing *)

Abbreviation Card := (list (list Cell)).

(** the picks of the five columns, drawn left to right with one shared
    [used] set *)
Fixpoint columnPicks (cols : list (string * Z * Z)) (used : gset Z) (g : RNG)
  : list (list Z) * RNG :=
  match cols with
  | [] => ([], g)
  | (_, lo, hi) :: cols' =>
      let '(picks, used', g1) := sampleUniqueInts lo hi 5 used g in
      let '(rest, g2) := columnPicks cols' used' g1 in
      (picks :: rest, g2)
  end.

Definition pickCell (picks : list Z) (r : nat) : Cell :=
  match picks !! r with
  | Some n => CNum n
  | None => Undefined
  end.

Definition generateBingoCard (g : RNG) : Card * RNG :=
  let '(cols, g1) := columnPicks COLS ∅ g in
  let grid := map (fun r => map (fun picks => pickCell picks r) cols) (seq 0 5) in
  (alter (fun row => <[2%nat := FREE]> row) 2%nat grid, g1).

Definition cardNumberPool (card : Card) : list Z :=
  concat (map (fun row =>
    concat (map (fun v => match v with CNum n => [n] | _ => [] end) row)) card).

(** ** Number Oracle *)

(** [arr[i]] for an integer index: [undefined] out of range *)
Definition arrayGet {A : Type} (arr : list A) (i : Z) : option A :=
  if (i <? 0)%Z then None else arr !! Z.to_nat i.

Definition pickHitNumber (pool : list Z) (marked : gset Z) (g : RNG)
  : option Z * RNG :=
  let unmarked := filter (fun n => n ∉ marked) pool in
  let '(roll, g1) := Math_random g in
  if (0 <? length unmarked)%nat && Qltb roll 0.75 then
    let '(u, g2) := Math_random g1 in
    (arrayGet unmarked (Qfloor (u * inject_Z (Z.of_nat (length unmarked)))), g2)
  else
    let '(u, g2) := Math_random g1 in
    (Some (Qfloor (u * 75) + 1)%Z, g2).

(** ** The game state

    The [useState] cells, the [useRef] cells, the frame counter local to
    the physics effect, and the random source.  [dirty] records that a
    state setter was called with a new value since the last render, and
    [ballSet] that [setBall] was. *)

Record GameState : Type := mkGame {
  card : Card;
  marked : gset Z;
  pegs : list Peg;
  ballsLeft : Z;
  ball : PBall;
  isPositioning : bool;
  hitPegIdsRef : gset string;
  ballRef : PBall;
  pegsRef : list Peg;
  poolRef : list Z;
  markedRef : gset Z;
  lastUpdateRef : Q;
  isPositioningRef : bool;
  frameCount : nat;
  ballSet : bool;
  dirty : bool;
  rng : RNG
}.

Definition with_card (v : Card) (s : GameState) : GameState :=
  mkGame v (marked s) (pegs s) (ballsLeft s) (ball s) (isPositioning s)
         (hitPegIdsRef s) (ballRef s) (pegsRef s) (poolRef s) (markedRef s)
         (lastUpdateRef s) (isPositioningRef s) (frameCount s) (ballSet s)
         (dirty s) (rng s).
Definition with_marked (v : gset Z) (s : GameState) : GameState :=
  mkGame (card s) v (pegs s) (ballsLeft s) (ball s) (isPositioning s)
         (hitPegIdsRef s) (ballRef s) (pegsRef s) (poolRef s) (markedRef s)
         (lastUpdateRef s) (isPositioningRef s) (frameCount s) (ballSet s)
         (dirty s) (rng s).
Definition with_pegs (v : list Peg) (s : GameState) : GameState :=
  mkGame (card s) (marked s) v (ballsLeft s) (ball s) (isPositioning s)
         (hitPegIdsRef s) (ballRef s) (pegsRef s) (poolRef s) (markedRef s)
         (lastUpdateRef s) (isPositioningRef s) (frameCount s) (ballSet s)
         (dirty s) (rng s).
Definition with_ballsLeft (v : Z) (s : GameState) : GameState :=
  mkGame (card s) (marked s) (pegs s) v (ball s) (isPositioning s)
         (hitPegIdsRef s) (ballRef s) (pegsRef s) (poolRef s) (markedRef s)
         (lastUpdateRef s) (isPositioningRef s) (frameCount s) (ballSet s)
         (dirty s) (rng s).
Definition with_ball (v : PBall) (s : GameState) : GameState :=
  mkGame (card s) (marked s) (pegs s) (ballsLeft s) v (isPositioning s)
         (hitPegIdsRef s) (ballRef s) (pegsRef s) (poolRef s) (markedRef s)
         (lastUpdateRef s) (isPositioningRef s) (frameCount s) (ballSet s)
         (dirty s) (rng s).
Definition with_isPositioning (v : bool) (s : GameState) : GameState :=
  mkGame (card s) (marked s) (pegs s) (ballsLeft s) (ball s) v (hitPegIdsRef s)
         (ballRef s) (pegsRef s) (poolRef s) (markedRef s) (lastUpdateRef s)
         (isPositioningRef s) (frameCount s) (ballSet s) (dirty s) (rng s).
Definition with_hitPegIdsRef (v : gset string) (s : GameState) : GameState :=
  mkGame (card s) (marked s) (pegs s) (ballsLeft s) (ball s) (isPositioning s)
         v (ballRef s) (pegsRef s) (poolRef s) (markedRef s) (lastUpdateRef s)
         (isPositioningRef s) (frameCount s) (ballSet s) (dirty s) (rng s).
Definition with_ballRef (v : PBall) (s : GameState) : GameState :=
  mkGame (card s) (marked s) (pegs s) (ballsLeft s) (ball s) (isPositioning s)
         (hitPegIdsRef s) v (pegsRef s) (poolRef s) (markedRef s)
         (lastUpdateRef s) (isPositioningRef s) (frameCount s) (ballSet s)
         (dirty s) (rng s).
Definition with_pegsRef (v : list Peg) (s : GameState) : GameState :=
  mkGame (card s) (marked s) (pegs s) (ballsLeft s) (ball s) (isPositioning s)
         (hitPegIdsRef s) (ballRef s) v (poolRef s) (markedRef s)
         (lastUpdateRef s) (isPositioningRef s) (frameCount s) (ballSet s)
         (dirty s) (rng s).
Definition with_poolRef (v : list Z) (s : GameState) : GameState :=
  mkGame (card s) (marked s) (pegs s) (ballsLeft s) (ball s) (isPositioning s)
         (hitPegIdsRef s) (ballRef s) (pegsRef s) v (markedRef s)
         (lastUpdateRef s) (isPositioningRef s) (frameCount s) (ballSet s)
         (dirty s) (rng s).
Definition with_markedRef (v : gset Z) (s : GameState) : GameState :=
  mkGame (card s) (marked s) (pegs s) (ballsLeft s) (ball s) (isPositioning s)
         (hitPegIdsRef s) (ballRef s) (pegsRef s) (poolRef s) v (lastUpdateRef
         s) (isPositioningRef s) (frameCount s) (ballSet s) (dirty s) (rng s).
Definition with_lastUpdateRef (v : Q) (s : GameState) : GameState :=
  mkGame (card s) (marked s) (pegs s) (ballsLeft s) (ball s) (isPositioning s)
         (hitPegIdsRef s) (ballRef s) (pegsRef s) (poolRef s) (markedRef s) v
         (isPositioningRef s) (frameCount s) (ballSet s) (dirty s) (rng s).
Definition with_isPositioningRef (v : bool) (s : GameState) : GameState :=
  mkGame (card s) (marked s) (pegs s) (ballsLeft s) (ball s) (isPositioning s)
         (hitPegIdsRef s) (ballRef s) (pegsRef s) (poolRef s) (markedRef s)
         (lastUpdateRef s) v (frameCount s) (ballSet s) (dirty s) (rng s).
Definition with_frameCount (v : nat) (s : GameState) : GameState :=
  mkGame (card s) (marked s) (pegs s) (ballsLeft s) (ball s) (isPositioning s)
         (hitPegIdsRef s) (ballRef s) (pegsRef s) (poolRef s) (markedRef s)
         (lastUpdateRef s) (isPositioningRef s) v (ballSet s) (dirty s) (rng s).
Definition with_ballSet (v : bool) (s : GameState) : GameState :=
  mkGame (card s) (marked s) (pegs s) (ballsLeft s) (ball s) (isPositioning s)
         (hitPegIdsRef s) (ballRef s) (pegsRef s) (poolRef s) (markedRef s)
         (lastUpdateRef s) (isPositioningRef s) (frameCount s) v (dirty s) (rng
         s).
Definition with_dirty (v : bool) (s : GameState) : GameState :=
  mkGame (card s) (marked s) (pegs s) (ballsLeft s) (ball s) (isPositioning s)
         (hitPegIdsRef s) (ballRef s) (pegsRef s) (poolRef s) (markedRef s)
         (lastUpdateRef s) (isPositioningRef s) (frameCount s) (ballSet s) v
         (rng s).
Definition with_rng (v : RNG) (s : GameState) : GameState :=
  mkGame (card s) (marked s) (pegs s) (ballsLeft s) (ball s) (isPositioning s)
         (hitPegIdsRef s) (ballRef s) (pegsRef s) (poolRef s) (markedRef s)
         (lastUpdateRef s) (isPositioningRef s) (frameCount s) (ballSet s)
         (dirty s) v.

(** [const pool = useMemo(() => cardNumberPool(card), [card])] *)
Definition pool (s : GameState) : list Z := cardNumberPool (card s).

(** *** State setters *)

Definition setBall (b : PBall) (s : GameState) : GameState :=
  with_dirty true (with_ballSet true (with_ball b s)).

Definition setPegs (ps : list Peg) (s : GameState) : GameState :=
  with_dirty true (with_pegs ps s).

Definition setCard (c : Card) (s : GameState) : GameState :=
  with_dirty true (with_card c s).

Definition setMarked (m : gset Z) (s : GameState) : GameState :=
  with_dirty true (with_marked m s).

Definition setBallsLeft (n : Z) (s : GameState) : GameState :=
  if (n =? ballsLeft s)%Z then s else with_dirty true (with_ballsLeft n s).

Definition setIsPositioning (v : bool) (s : GameState) : GameState :=
  if eqb v (isPositioning s) then s
  else with_dirty true (with_isPositioning v s).

(** the effects that run after a render: each ref takes the value of its
    state, and the physics effect is set up again with [frameCount = 0] *)
Definition render (s : GameState) : GameState :=
  if dirty s then
    mkGame (card s) (marked s) (pegs s) (ballsLeft s) (ball s)
           (isPositioning s)
           (hitPegIdsRef s)
           (if ballSet s then ball s else ballRef s)
           (pegs s) (pool s) (marked s)
           (lastUpdateRef s) (isPositioningRef s)
           0 false false (rng s)
  else s.

(** ** Round Controller: marking, resets and input handlers *)

Definition markNumber (n : Z) (s : GameState) : GameState :=
  if decide (n ∈ pool s) then
    if decide (n ∈ marked s) then s
    else setMarked ({[n]} ∪ marked s) s
  else s.

Definition spawnBall : PBall :=
  PBall.mk 0.5%Q 0.06%Q 0%Q 0%Q false.

Definition resetBoard (s : GameState) : GameState :=
  let '(newPegs, g1) := generatePegs 30 (rng s) in
  let s := setPegs newPegs (with_rng g1 s) in
  let newBall := spawnBall in
  let s := setBall newBall s in
  let s := with_ballRef newBall s in
  with_hitPegIdsRef ∅ s.

Definition newGame (s : GameState) : GameState :=
  let '(c, g1) := generateBingoCard (rng s) in
  let s := setCard c (with_rng g1 s) in
  let s := setMarked ∅ s in
  let s := setBallsLeft 5 s in
  resetBoard s.

(** [setBall((prev) => prev.dropping ? prev : { ...prev, x: normalizedX })] *)
Definition positionBall (normalizedX : number) (s : GameState) : GameState :=
  let prev := ball s in
  if PBall.dropping prev then s
  else setBall (PBall.mk normalizedX (PBall.y prev) (PBall.vx prev)
                         (PBall.vy prev) (PBall.dropping prev)) s.

(** [handleStart]; [x01] is [(clientX - rect.left) / rect.width] *)
Definition handleStart (x01 : Q) (s : GameState) : GameState :=
  let b := ballRef s in
  if PBall.dropping b || (ballsLeft s <=? 0)%Z then s
  else
    let s := with_isPositioningRef true s in
    let s := setIsPositioning true s in
    let normalizedX := clamp x01 0.06%Q 0.94%Q in
    positionBall normalizedX s.

(** [handleMove]; [x01] as in [handleStart] *)
Definition handleMove (x01 : Q) (s : GameState) : GameState :=
  if negb (isPositioningRef s) then s
  else
    let b := ballRef s in
    if PBall.dropping b || (ballsLeft s <=? 0)%Z then s
    else
      let normalizedX := clamp x01 0.06%Q 0.94%Q in
      positionBall normalizedX s.

Definition handleEnd (s : GameState) : GameState :=
  if negb (isPositioningRef s) then setIsPositioning false s
  else
    let b := ballRef s in
    if PBall.dropping b || (ballsLeft s <=? 0)%Z then
      setIsPositioning false (with_isPositioningRef false s)
    else
      let s := with_isPositioningRef false s in
      let s := setIsPositioning false s in
      (* Release the ball *)
      let s := with_hitPegIdsRef ∅ s in
      let s := setBallsLeft (Z.max 0 (ballsLeft s - 1)) s in
      let '(u, g1) := Math_random (rng s) in
      let prev := ball s in
      setBall (PBall.mk (PBall.x prev) 0.06%Q
                        ((Fin u - 0.5%Q) * 0.18%Q)%num 0.02%Q true)
              (with_rng g1 s).

(** [{ ...p, removed: true }] *)
Definition withRemoved (p : Peg) : Peg :=
  Peg.mk (Peg.id p) (Peg.x p) (Peg.y p) true (Peg.hit p) (Peg.num p).

(** [{ ...p, hit: true, num }] *)
Definition withHit (num : Z) (p : Peg) : Peg :=
  Peg.mk (Peg.id p) (Peg.x p) (Peg.y p) (Peg.removed p) true (Some num).

(** end-of-drop cleanup: the callback of [currentPegs.map] together with
    the numbers it pushes on [hitNums], in iteration order *)
Fixpoint cleanupPegs (hitIds : gset string) (ps : list Peg)
  : list Peg * list Z :=
  match ps with
  | [] => ([], [])
  | p :: ps' =>
      let '(next, hitNums) := cleanupPegs hitIds ps' in
      if Peg.removed p then (p :: next, hitNums)
      else if decide (Peg.id p ∈ hitIds) then
        (withRemoved p :: next,
         match Peg.num p with
         | Some n => n :: hitNums
         | None => hitNums
         end)
      else (p :: next, hitNums)
  end.

(** ** Ball Physics Engine *)

Definition rBall : number := 0.03%Q.
Definition rPeg : number := 0.018%Q.

(** [const rr = (rBall + rPeg) * (rBall + rPeg)] *)
Definition rr : number := ((rBall + rPeg) * (rBall + rPeg))%num.

(** the state of [for (const p of currentPegs)] *)
Record ScanState : Type := mkScan {
  scanHit : gset string;                    (* [hitPegIdsRef.current] *)
  scanUpdates : list (string * option Z);   (* [pegUpdates] *)
  scanClosest : option Peg;                 (* [closest] *)
  scanBest : number;                        (* [bestDist] *)
  scanRng : RNG
}.

Definition scanPeg (x y : number) (pool : list Z) (marked : gset Z)
    (st : ScanState) (p : Peg) : ScanState :=
  if Peg.removed p then st
  else
    let dx := (x - Peg.x p)%num in
    let dy := (y - Peg.y p)%num in
    let dist2 := (dx * dx + dy * dy)%num in
    (* Check collision *)
    let st :=
      if (dist2 <=? rr)%num then
        let hit' := {[Peg.id p]} ∪ scanHit st in
        if negb (Peg.hit p) then
          let '(num, g1) := pickHitNumber pool marked (scanRng st) in
          mkScan hit' (scanUpdates st ++ [(Peg.id p, num)])
                 (scanClosest st) (scanBest st) g1
        else mkScan hit' (scanUpdates st) (scanClosest st) (scanBest st)
                    (scanRng st)
      else st in
    (* Track closest for bounce *)
    if (dist2 <? scanBest st)%num then
      mkScan (scanHit st) (scanUpdates st) (Some p) dist2 (scanRng st)
    else st.

(** the updater passed to [setPegs], peg by peg: [updateMap] is built
    from the entries of [pegUpdates] in order, so a later entry for an id
    replaces an earlier one, and [updateMap.get] is [undefined] for a
    missing id or an undefined number *)
Definition updated (pegUpdates : list (string * option Z)) (p : Peg) : Peg :=
  match mjoin ((list_to_map (reverse pegUpdates) : gmap string (option Z))
                 !! Peg.id p) with
  | Some num => withHit num p
  | None => p
  end.

Definition applyUpdates (pegUpdates : list (string * option Z))
    (prev : list Peg) : list Peg :=
  map (updated pegUpdates) prev.

(** [dt] of the frame at time [now]:
    [Math.min(0.02, (now - lastUpdateRef.current) / 1000)] *)
Definition frameDt (now : Q) (s : GameState) : Q :=
  (Qmin 0.02 ((now - lastUpdateRef s) / 1000))%Q.

Section Physics.

(** [Math.pow] and [Math.sqrt] on finite arguments *)
Variable powQ : Q -> Q -> Q.
Variable sqrtQ : Q -> Q.

Definition Math_sqrt (a : number) : number :=
  match a with
  | NaN | NegInf => NaN
  | PosInf => PosInf
  | Fin q => if Qltb q 0 then NaN else Fin (sqrtQ q)
  end.

(** "Wall collisions" *)
Definition wallCollisions (x y vx vy : number)
  : number * number * number * number :=
  let '(x, vx) :=
    if (x <? rBall)%num then (rBall, (vx * (-0.85)%Q)%num) else (x, vx) in
  let '(x, vx) :=
    if (x >? 1%Q - rBall)%num then ((1%Q - rBall)%num, (vx * (-0.85)%Q)%num)
    else (x, vx) in
  let '(y, vy) :=
    if (y <? rBall)%num then (rBall, (vy * (-0.35)%Q)%num) else (y, vy) in
  (x, y, vx, vy).

(** "Handle bounce with closest peg" *)
Definition bounceOff (closest : option Peg) (x y vx vy : number)
  : number * number * number * number :=
  match closest with
  | None => (x, y, vx, vy)
  | Some c =>
      let dx := (x - Peg.x c)%num in
      let dy := (y - Peg.y c)%num in
      let dist := Num.or (Math_sqrt (dx * dx + dy * dy)%num) 1%Q in
      let minDist := (rBall + rPeg)%num in
      if (dist <? minDist)%num then
        let nx := (dx / dist)%num in
        let ny := (dy / dist)%num in
        let vdot := (vx * nx + vy * ny)%num in
        let bounce : number := 0.88%Q in
        let vx := (vx - 2%Q * vdot * nx)%num in
        let vy := (vy - 2%Q * vdot * ny)%num in
        let vx := (vx * bounce)%num in
        let vy := (vy * bounce)%num in
        (* Push ball away from peg *)
        let x' := clamp (x + nx * (minDist - dist) * 0.8%Q)%num 0.03%Q 0.97%Q in
        let y' := clamp (y + ny * (minDist - dist) * 0.8%Q)%num 0.03%Q 1.1%Q in
        (x', y', vx, vy)
      else (x, y, vx, vy)
  end.

(** gravity, damping and integration over [dt]: the new [x, y, vx, vy] *)
Definition integrate (dt : Q) (b : PBall)
  : number * number * number * number :=
  let g : number := 1.55%Q in
  let damp : Q := 0.999%Q in
  let vx := (PBall.vx b * Fin (powQ damp (dt * 60)%Q))%num in
  let vy := ((PBall.vy b + g * Fin dt) * Fin (powQ damp (dt * 60)%Q))%num in
  let x := (PBall.x b + vx * Fin dt)%num in
  let y := (PBall.y b + vy * Fin dt)%num in
  (x, y, vx, vy).

(** "Peg collisions - check every frame": the loop over [pegsRef.current] *)
Definition scanPegs (x y : number) (s : GameState) : ScanState :=
  foldl (scanPeg x y (poolRef s) (markedRef s))
        (mkScan (hitPegIdsRef s) [] None PosInf (rng s)) (pegsRef s).

(** "End-of-drop cleanup": the branch of [step] for [!b.dropping] *)
Definition cleanupStep (s : GameState) : GameState * list Z :=
  let b := ballRef s in
  if (PBall.y b >=? 1.05%Q)%num && (0 <? size (hitPegIdsRef s))%nat then
    let hitIds := hitPegIdsRef s in
    let currentPegs := pegsRef s in
    let '(next, hitNums) := cleanupPegs hitIds currentPegs in
    let s := foldl (fun s n => markNumber n s) s hitNums in
    let s := setPegs next s in
    (with_hitPegIdsRef ∅ s, hitNums)
  else (s, []).

(** the branch of [step] for a dropping ball *)
Definition physicsStep (dt : Q) (s : GameState) : GameState :=
  let b := ballRef s in
  let '(x, y, vx, vy) := integrate dt b in
  let '(x, y, vx, vy) := wallCollisions x y vx vy in
  let scan := scanPegs x y s in
  let s := with_rng (scanRng scan) (with_hitPegIdsRef (scanHit scan) s) in
  let pegUpdates := scanUpdates scan in
  (* Update pegs if collisions detected *)
  let s :=
    if (0 <? length pegUpdates)%nat
    then setPegs (applyUpdates pegUpdates (pegs s)) s
    else s in
  let '(x, y, vx, vy) := bounceOff (scanClosest scan) x y vx vy in
  (* Drain condition *)
  if (y >? 1.06%Q)%num then
    let b' := PBall.mk x 1.06%Q 0%Q 0%Q false in
    setBall b' (with_ballRef b' s)
  else
    let s := with_ballRef (PBall.mk x y vx vy true) s in
    let s := with_frameCount (S (frameCount s)) s in
    if (frameCount s mod 3 =? 0)%nat
    then setBall (ballRef s) s
    else s.

(** one animation frame at time [now]; the second component is the
    list of numbers handed to [markNumber], in order *)
Definition step (now : Q) (s : GameState) : GameState * list Z :=
  let dt : Q := frameDt now s in
  let s := with_lastUpdateRef now s in
  let b := ballRef s in
  if negb (PBall.dropping b) then cleanupStep s
  else (physicsStep dt s, []).

(** ** Inputs *)

Inductive Event : Type :=
  | Frame (now : Q)            (* the animation-frame callback *)
  | PointerDown (x01 : Q)      (* touchstart / mousedown *)
  | PointerMove (x01 : Q)      (* touchmove / mousemove *)
  | PointerUp                  (* touchend / mouseup *)
  | ResetBoard
  | NewGame.

(** one input, run to completion and followed by the render it causes *)
Definition handle (e : Event) (s : GameState) : GameState * list Z :=
  match e with
  | Frame now => let '(s', out) := step now s in (render s', out)
  | PointerDown x01 => (render (handleStart x01 s), [])
  | PointerMove x01 => (render (handleMove x01 s), [])
  | PointerUp => (render (handleEnd s), [])
  | ResetBoard => (render (resetBoard s), [])
  | NewGame => (render (newGame s), [])
  end.

(** a sequence of inputs; the numbers revealed are collected in order *)
Fixpoint run (es : list Event) (s : GameState) : GameState * list Z :=
  match es with
  | [] => (s, [])
  | e :: es' =>
      let '(s1, out1) := handle e s in
      let '(s2, out2) := run es' s1 in
      (s2, out1 ++ out2)
  end.

End Physics.

(** the state after the first render, mounted at time [t0] *)
Definition initialState (t0 : Q) (g : RNG) : GameState :=
  let '(c, g1) := generateBingoCard g in
  let '(initialPegs, g2) := generatePegs 30 g1 in
  mkGame c ∅ initialPegs 5 spawnBall false
         ∅ spawnBall initialPegs (cardNumberPool c) ∅ t0 false
         0 false false g2.

(** ** Predicates used in the statements *)

(** [`peg-${idx}`] *)
Definition pegId (i : nat) : string := "peg-" +:+ pretty i.

(** what [placePeg] promises of the peg it pushes, for a grid of [rows]
    rows *)
Definition placed (rows : nat) (p : Peg) : Prop :=
  fresh p /\ Num.within 0.12 0.88 (Peg.x p) /\
  (rows <> 1%nat -> Num.within 0.15 0.90 (Peg.y p)).

Definition genInv (rows : nat) (st : GenState) : Prop :=
  map Peg.id (genPegs st) = map pegId (seq 0 (genIdx st)) /\
  Forall (placed rows) (genPegs st).

(** [unmarked] of [pickHitNumber]: [pool.filter((n) => !marked.has(n))] *)
Definition unmarkedOf (pool : list Z) (marked : gset Z) : list Z :=
  filter (fun n => n ∉ marked) pool.

(** the draw [u] falls into the [i]-th of [n] equal parts of [0, 1) *)
Definition inPart (i : Z) (n : Z) (u : Q) : Prop :=
  (inject_Z i / inject_Z n <= u /\ u < inject_Z (i + 1) / inject_Z n)%Q.

(** the state between two inputs: nothing waits for a render, the refs
    mirror the state, and the rendered [ball] is the physics ball whenever
    it does not drop *)
Definition consistent (s : GameState) : Prop :=
  dirty s = false /\ ballSet s = false /\
  pegsRef s = pegs s /\ poolRef s = pool s /\ markedRef s = marked s /\
  PBall.dropping (ball s) = PBall.dropping (ballRef s) /\
  (PBall.dropping (ballRef s) = false -> ball s = ballRef s).

(** a peg of the touched set that is still on the board *)
Definition touchedLive (hitIds : gset string) (p : Peg) : Prop :=
  Peg.removed p = false /\ Peg.id p ∈ hitIds.

#[global] Instance touchedLive_dec (hitIds : gset string) (p : Peg) :
  Decision (touchedLive hitIds p).
Proof. unfold touchedLive. apply _. Defined.

(** the peg after cleanup with the touched set [hitIds] *)
Definition cleaned (hitIds : gset string) (p : Peg) : Peg :=
  if decide (Peg.id p ∈ hitIds) then withRemoved p else p.

(** what a handler leaves for [render]: a ball set marks the state dirty,
    a clean state still has its refs in step, and a ball that was not set
    still agrees with the physics ball *)
Definition settling (s : GameState) : Prop :=
  (ballSet s = true -> dirty s = true) /\
  (dirty s = false ->
     pegsRef s = pegs s /\ poolRef s = pool s /\ markedRef s = marked s) /\
  (ballSet s = false ->
     PBall.dropping (ball s) = PBall.dropping (ballRef s) /\
     (PBall.dropping (ballRef s) = false -> ball s = ballRef s)).

(** the fields that [markNumber] leaves alone *)
Definition sameButMarked (s s' : GameState) : Prop :=
  s' = with_dirty (dirty s') (with_marked (marked s') s).

(** the ball that [handleEnd] releases from [prev] with the draw [u] *)
Definition released (prev : PBall) (u : Q) : PBall :=
  PBall.mk (PBall.x prev) 0.06%Q ((Fin u - 0.5%Q) * 0.18%Q)%num 0.02%Q true.

(** the next draw of the game's random source *)
Definition nextDraw (s : GameState) : Q := draws (rng s) (cursor (rng s)).

(** the ball, the pegs, the touched set and the balls left are the same *)
Definition sameRound (s s' : GameState) : Prop :=
  ball s' = ball s /\ ballRef s' = ballRef s /\ pegs s' = pegs s /\
  pegsRef s' = pegsRef s /\ ballsLeft s' = ballsLeft s /\
  hitPegIdsRef s' = hitPegIdsRef s /\ marked s' = marked s.

(** every marked number is a number of the card *)
Definition markedInPool (s : GameState) : Prop :=
  forall n : Z, n ∈ marked s -> n ∈ pool s.

(** [e] does not replace the peg set *)
Definition noReset (e : Event) : Prop :=
  match e with
  | ResetBoard | NewGame => False
  | _ => True
  end.

(** [p'] is the peg [p] later on: the same id, and if [p] was hit, still
    hit and with the number it had *)
Definition keeps (p p' : Peg) : Prop :=
  Peg.id p' = Peg.id p /\
  (Peg.hit p = true -> Peg.hit p' = true /\ Peg.num p' = Peg.num p).

(** a number is only ever on a peg that was hit *)
Definition numbered (p : Peg) : Prop :=
  is_Some (Peg.num p) -> Peg.hit p = true.

(** what one input may do to a peg: nothing, mark it removed, or give a
    peg that was not hit its number *)
Definition pegStep (p p' : Peg) : Prop :=
  p' = p \/ p' = withRemoved p \/
  (Peg.hit p = false /\ exists n, p' = withHit n p).

(** the pegs have distinct ids, and numbers sit on hit pegs only *)
Definition pegsOk (s : GameState) : Prop :=
  NoDup (map Peg.id (pegs s)) /\ Forall numbered (pegs s).

#[global] Instance numbered_dec (p : Peg) : Decision (numbered p).
Proof. unfold numbered. apply _. Defined.

(** a ball with finite velocity inside the board: x in [0, 1] and y in
    [0, 1.1] *)
Definition inBounds (b : PBall) : Prop :=
  Num.within 0 1 (PBall.x b) /\ Num.within 0 1.1 (PBall.y b).

Definition validBall (b : PBall) : Prop :=
  inBounds b /\ Num.isFin (PBall.vx b) /\ Num.isFin (PBall.vy b).

(** where a physics frame leaves the ball *)
Definition inPlay (b : PBall) : Prop :=
  Num.within 0.03 0.97 (PBall.x b) /\ Num.within 0.03 1.06 (PBall.y b) /\
  Num.isFin (PBall.vx b) /\ Num.isFin (PBall.vy b).

(** both the rendered ball and the physics ball are valid *)
Definition ballsValid (s : GameState) : Prop :=
  validBall (ball s) /\ validBall (ballRef s).

(** the y coordinate after gravity, damping and integration in the frame
    at time [now], before walls and pegs *)
Definition integratedY (powQ : Q -> Q -> Q) (now : Q) (s : GameState)
  : number :=
  (integrate powQ (frameDt now s) (ballRef s)).1.1.2.

(** a square root that is never negative: what the physics step needs of
    [Math.sqrt], whatever its rounding *)
Definition sqrtNonneg (sqrtQ : Q -> Q) : Prop :=
  forall d : Q, (0 <= d)%Q -> (0 <= sqrtQ d)%Q.

(** no peg lies below the unit square *)
Definition onBoard (p : Peg) : Prop := (1%Q <? Peg.y p)%num = false.

#[global] Instance onBoard_dec (p : Peg) : Decision (onBoard p).
Proof. unfold onBoard. apply _. Defined.

(** a hit peg carries a number *)
Definition hitNumbered (p : Peg) : Prop :=
  Peg.hit p = true -> is_Some (Peg.num p).

(** every peg of the touched set is still on the board and carries a
    number *)
Definition touchedOk (s : GameState) : Prop :=
  forall p, p ∈ pegs s -> Peg.id p ∈ hitPegIdsRef s ->
    Peg.removed p = false /\ is_Some (Peg.num p).

(** the touched pegs are numbered and on the board, hit pegs carry
    numbers, and the random source draws from [0, 1) *)
Definition roundOk (s : GameState) : Prop :=
  touchedOk s /\ Forall hitNumbered (pegs s) /\ unitDraws (rng s).

(** ** Sample inputs *)

(** a random source whose every draw is 1/2 *)
Definition halfDraws : RNG := mkRNG (fun _ => 0.5%Q) 0.

(** a random source that cycles through 0.00, 0.37, 0.74, 0.11, ... *)
Definition cycleDraws : RNG :=
  mkRNG (fun i => (Z.of_nat (i * 37 mod 100) # 100)%Q) 0.

(** stand-ins for [Math.pow] and [Math.sqrt] where a statement is
    evaluated: the first-order expansion of [a^b] around [a = 1], and one
    Newton step from 1, which is positive on every argument from 0 on *)
Definition powApprox (a b : Q) : Q := (1 - (1 - a) * b)%Q.
Definition sqrtApprox (d : Q) : Q := ((d + 1) / 2)%Q.

(** the first render with [cycleDraws], where the third peg has been hit
    and carries the number 15 *)
Definition numberedSample : GameState :=
  let s0 := initialState 0 cycleDraws in
  let ps := applyUpdates [("peg-2", Some 15%Z)] (pegs s0) in
  with_pegsRef ps (with_pegs ps s0).

(** the same with the ball at rest at the drain and that peg in the
    touched set *)
Definition drainedSample : GameState :=
  let b := PBall.mk 0.43%Q 1.06%Q 0%Q 0%Q false in
  with_hitPegIdsRef {["peg-2"]} (with_ballRef b (with_ball b numberedSample)).

(** the first render with [cycleDraws], with the ball falling at 1 unit
    per second just above the drain line *)
Definition fallingSample : GameState :=
  let b := PBall.mk 0.5%Q 1.05%Q 0%Q 1%Q true in
  with_ballRef b (with_ball b (initialState 0 cycleDraws)).

(** [n] frames 16 ms apart, the first one 16 ms after [t0] *)
Definition evenFrames (t0 : Q) (n : nat) : list Event :=
  map (fun k => Frame (t0 + 16 * inject_Z (Z.of_nat (S k)))%Q) (seq 0 n).

(** ** The card's lines *)

(** [isMarked]:
    [v === "FREE" || (typeof v === "number" && marked.has(v))] *)
Definition isMarked (marked : gset Z) (v : Cell) : bool :=
  match v with
  | FREE => true
  | CNum n => bool_decide (n ∈ marked)
  | Undefined => false
  end.

(** [row[c]] of a row that exists; a missing cell is [undefined] *)
Definition cellAt (row : list Cell) (c : nat) : Cell :=
  default Undefined (row !! c).

(** [hasBingo]: the five rows, the five columns and the two diagonals;
    [None] is the TypeError of reading a cell of a missing row *)
Definition hasBingo (card : Card) (marked : gset Z) : option bool :=
  match card !! 0%nat, card !! 1%nat, card !! 2%nat, card !! 3%nat,
        card !! 4%nat with
  | Some r0, Some r1, Some r2, Some r3, Some r4 =>
      let rowLines := [r0; r1; r2; r3; r4] in
      let colLines :=
        map (fun c => [cellAt r0 c; cellAt r1 c; cellAt r2 c; cellAt r3 c;
                       cellAt r4 c]) (seq 0 5) in
      let diagLines :=
        [[cellAt r0 0; cellAt r1 1; cellAt r2 2; cellAt r3 3; cellAt r4 4];
         [cellAt r0 4; cellAt r1 3; cellAt r2 2; cellAt r3 1; cellAt r4 0]] in
      Some (existsb (forallb (isMarked marked))
                    (rowLines ++ colLines ++ diagLines))
  | _, _, _, _, _ => None
  end.

(** ** Figures shown to the player *)

(** [pegs.filter((p) => !p.removed).length] *)
Definition remainingPegs (s : GameState) : nat :=
  length (filter (fun p => Peg.removed p = false) (pegs s)).

(** ** Further predicates used in the statements *)

(** the numbers of a row, as [cardNumberPool] collects them *)
Definition rowNumbers (row : list Cell) : list Z :=
  concat (map (fun v => match v with CNum n => [n] | _ => [] end) row).

(** [card[r][c]], when the row and the cell exist *)
Definition cellOf (card : Card) (r c : nat) : option Cell :=
  row ← card !! r; row !! c.

(** [dx * dx + dy * dy] for the ball at [(x, y)] and the peg [p] *)
Definition dist2To (x y : number) (p : Peg) : number :=
  ((x - Peg.x p) * (x - Peg.x p) + (y - Peg.y p) * (y - Peg.y p))%num.

(** the ball at [(x, y)] touches the peg [p], which is on the board *)
Definition touches (x y : number) (p : Peg) : Prop :=
  Peg.removed p = false /\ (dist2To x y p <=? rr)%num = true.

(** the ball position that a physics frame checks against the pegs:
    after integration and wall collisions, before the bounce *)
Definition scanPosition (powQ : Q -> Q -> Q) (dt : Q) (s : GameState)
  : number * number :=
  let '(x, y, vx, vy) := integrate powQ dt (ballRef s) in
  let '(x, y, _, _) := wallCollisions x y vx vy in
  (x, y).

(** the number at row [r] of the picks of column [c] *)
Definition pickAt (cols : list (list Z)) (pos : nat * nat) : option Z :=
  p ← cols !! pos.2; p !! pos.1.

(** [p'] is the peg [p] later on the same board: it has not moved, and
    once removed it does not change any more *)
Definition stays (p p' : Peg) : Prop :=
  Peg.id p' = Peg.id p /\ Peg.x p' = Peg.x p /\ Peg.y p' = Peg.y p /\
  (Peg.removed p = true -> p' = p).

(** what one input may do to a peg: nothing, or mark a peg on the board
    removed, or give a peg on the board that was not hit its number *)
Definition liveStep (p p' : Peg) : Prop :=
  p' = p \/
  (Peg.removed p = false /\
   (p' = withRemoved p \/ (Peg.hit p = false /\ exists n, p' = withHit n p))).

(** a number of the game: 1 to 75 *)
Definition inRange (n : Z) : Prop := (1 <= n <= 75)%Z.

(** the number a peg carries, if any, is a number of the game *)
Definition numInRange (p : Peg) : Prop :=
  forall n, Peg.num p = Some n -> inRange n.

(** the card's numbers and the pegs' numbers are numbers of the game, and
    the random source draws from [0, 1) *)
Definition numbersOk (s : GameState) : Prop :=
  (forall n, n ∈ pool s -> inRange n) /\ Forall numInRange (pegs s) /\
  unitDraws (rng s).

(** an entry of [pegUpdates] that carries a number of the game *)
Definition okUpdate (u : string * option Z) : Prop :=
  exists n, u.2 = Some n /\ inRange n.

(** ** A further sample input *)

(** the first render with [cycleDraws] after a drop that touched the third
    and the sixth peg: they carry 28, which is on the card, and 75, which
    is not, and the ball lies at the drain *)
Definition markingSample : GameState :=
  let s0 := initialState 0 cycleDraws in
  let ps := applyUpdates [("peg-2", Some 28%Z); ("peg-5", Some 75%Z)] (pegs s0) in
  let b := PBall.mk 0.43%Q 1.06%Q 0%Q 0%Q false in
  with_hitPegIdsRef {["peg-2"; "peg-5"]}
    (with_ballRef b (with_ball b (with_pegsRef ps (with_pegs ps s0)))).

(** * Properties *)

(** ** Comparisons and clamping *)

Lemma Qltb_lt (p q : Q) : Qltb p q = true <-> (p < q)%Q.
Proof.
  unfold Qltb. rewrite Qlt_alt. destruct (p ?= q)%Q; intuition congruence.
Qed.

Lemma Qltb_ge (p q : Q) : Qltb p q = false <-> (q <= p)%Q.
Proof.
  unfold Qltb. rewrite Qge_alt. destruct (p ?= q)%Q; intuition congruence.
Qed.

Lemma within_isFin lo hi a : Num.within lo hi a -> Num.isFin a.
Proof. destruct a; simpl; tauto. Qed.

Lemma within_weaken lo hi lo' hi' a :
  (lo' <= lo)%Q -> (hi <= hi')%Q -> Num.within lo hi a -> Num.within lo' hi' a.
Proof. destruct a; simpl; try tauto. intros. lra. Qed.

(** [clamp] propagates NaN and puts every other number into the range *)
Lemma clamp_spec (v : number) (a b : Q) :
  (a <= b)%Q ->
  (v = NaN /\ clamp v a b = NaN) \/ (v <> NaN /\ Num.within a b (clamp v a b)).
Proof.
  intros Hab. destruct v as [|q| |]; [left; done | right ..];
    (split; [done|]); unfold clamp, Math_min, Math_max; simpl.
  - destruct (Qltb q b) eqn:E1; simpl.
    + destruct (Qltb a q) eqn:E2; simpl.
      all: apply Qltb_lt in E1 || apply Qltb_ge in E1.
      all: apply Qltb_lt in E2 || apply Qltb_ge in E2; lra.
    + destruct (Qltb a b) eqn:E2; simpl; lra.
  - destruct (Qltb a b) eqn:E2; simpl; lra.
  - lra.
Qed.

Lemma clamp_fin (q a b : Q) :
  (a <= b)%Q -> Num.within a b (clamp (Fin q) a b).
Proof. intros H. destruct (clamp_spec (Fin q) a b H) as [[? _]|[_ ?]]; done. Qed.

(** ** The peg field *)

Lemma add_fin (p q : Q) : (Fin p + Fin q)%num = Fin (p + q).
Proof. reflexivity. Qed.

Lemma sub_fin (p q : Q) : (Fin p - Fin q)%num = Fin (p - q).
Proof. reflexivity. Qed.

Lemma mul_fin (p q : Q) : (Fin p * Fin q)%num = Fin (p * q).
Proof. reflexivity. Qed.

Lemma div_fin (p q : Q) : ~ (q == 0)%Q -> (Fin p / Fin q)%num = Fin (p / q).
Proof.
  intros Hq. unfold Num.div, Qsign.
  destruct (q ?= 0)%Q eqn:E; try reflexivity.
  apply Qeq_alt in E. contradiction.
Qed.

#[local] Instance pegId_inj : Inj (=) (=) pegId.
Proof.
  intros i j H. unfold pegId in H.
  apply (inj (String.app "peg-")) in H. by apply (inj pretty) in H.
Qed.

Lemma ofNat_sub_1_nonzero (n : nat) :
  n <> 1%nat -> ~ (inject_Z (Z.of_nat n) - 1 == 0)%Q.
Proof.
  intros Hn H. assert (inject_Z (Z.of_nat n) == 1)%Q as H' by lra.
  unfold Qeq in H'. cbn in H'. lia.
Qed.

Lemma placePeg_inv (rows r c : nat) (st : GenState) :
  genInv rows st -> genInv rows (placePeg 6 rows r c st).
Proof.
  intros [Hids Hall]. unfold genInv, placePeg, Math_random.
  cbv beta iota zeta. cbn [genPegs genIdx].
  split.
  - rewrite map_app, Hids, seq_S, map_app. reflexivity.
  - apply Forall_app. split; [assumption|]. apply Forall_singleton.
    unfold placed, fresh. cbn [Peg.removed Peg.hit Peg.num Peg.x Peg.y].
    split; [done|]. split.
    + unfold ofNat. rewrite sub_fin, div_fin by (apply ofNat_sub_1_nonzero; lia).
      rewrite !sub_fin, !mul_fin, !add_fin. apply clamp_fin. lra.
    + intros Hrows. unfold ofNat.
      rewrite sub_fin, div_fin by (by apply ofNat_sub_1_nonzero).
      rewrite !sub_fin, !mul_fin, !add_fin. apply clamp_fin. lra.
Qed.

Lemma colLoop_inv (count rows r : nat) (cs : list nat) (st : GenState) :
  genInv rows st -> genInv rows (colLoop count 6 rows r cs st).
Proof.
  revert st. induction cs as [|c cs IH]; intros st H; cbn [colLoop]; [done|].
  destruct (count <=? genIdx st)%nat; [done|]. by apply IH, placePeg_inv.
Qed.

Lemma rowLoop_inv (count rows : nat) (rs : list nat) (st : GenState) :
  genInv rows st -> genInv rows (rowLoop count 6 rows rs st).
Proof.
  revert st. induction rs as [|r rs IH]; intros st H; cbn [rowLoop]; [done|].
  by apply IH, colLoop_inv.
Qed.

Lemma colLoop_idx (count cols rows r : nat) (cs : list nat) (st : GenState) :
  (genIdx st <= count)%nat ->
  genIdx (colLoop count cols rows r cs st)
  = Nat.min count (genIdx st + length cs).
Proof.
  revert st. induction cs as [|c cs IH]; intros st H; cbn [colLoop length].
  - lia.
  - destruct (Nat.leb_spec count (genIdx st)); [lia|].
    rewrite IH; unfold placePeg, Math_random; cbv beta iota zeta;
      cbn [genIdx]; lia.
Qed.

Lemma rowLoop_idx (count cols rows : nat) (rs : list nat) (st : GenState) :
  (genIdx st <= count)%nat ->
  genIdx (rowLoop count cols rows rs st)
  = Nat.min count (genIdx st + cols * length rs).
Proof.
  revert st. induction rs as [|r rs IH]; intros st H; cbn [rowLoop length].
  - lia.
  - rewrite IH; rewrite colLoop_idx by done; rewrite ?length_seq; lia.
Qed.

Lemma ceilDiv_covers (count : nat) : (count <= 6 * ceilDiv count 6)%nat.
Proof.
  unfold ceilDiv.
  set (x := (inject_Z (Z.of_nat count) / inject_Z (Z.of_nat 6))%Q).
  pose proof (Qle_ceiling x) as Hc.
  assert (0 <= x)%Q as Hx.
  { unfold x. apply Qle_shift_div_l; [reflexivity|].
    rewrite Qmult_0_l. rewrite <- (Zle_Qle 0). lia. }
  assert (0 <= Qceiling x)%Z as Hpos.
  { rewrite Zle_Qle. change (inject_Z 0) with 0%Q. lra. }
  assert (inject_Z (Z.of_nat count) <= inject_Z (6 * Qceiling x))%Q as Hle.
  { rewrite inject_Z_mult.
    assert (inject_Z (Z.of_nat count) == x * inject_Z 6)%Q as ->.
    { unfold x. change (Z.of_nat 6) with 6%Z. field. }
    change (inject_Z 6) with 6%Q. lra. }
  rewrite <- Zle_Qle in Hle. lia.
Qed.

Lemma ceilDiv_rows (count : nat) : (7 <= count)%nat -> ceilDiv count 6 <> 1%nat.
Proof. intros H E. pose proof (ceilDiv_covers count). lia. Qed.

Lemma generatePegs_inv (count : nat) (g : RNG) :
  let ps := (generatePegs count g).1 in
  map Peg.id ps = map pegId (seq 0 count) /\
  Forall (placed (ceilDiv count 6)) ps.
Proof.
  unfold generatePegs. cbn [fst].
  set (rows := ceilDiv count 6).
  set (st := rowLoop count 6 rows (seq 0 rows) (mkGen [] 0 g)).
  assert (genInv rows st) as [Hids Hall].
  { apply rowLoop_inv. split; [reflexivity | constructor]. }
  assert (genIdx st = count) as Hidx.
  { unfold st. rewrite rowLoop_idx by (cbn; lia). rewrite length_seq.
    cbn [genIdx]. pose proof (ceilDiv_covers count). fold rows in H. lia. }
  rewrite Hidx in Hids. done.
Qed.

(** [generatePegs] returns [count] pegs with the ids [peg-0 .. peg-(count-1)],
    none removed, hit or numbered, with x inside [0.12, 0.88] *)
Lemma generatePegs_shape (count : nat) (g : RNG) :
  let ps := (generatePegs count g).1 in
  length ps = count /\ NoDup (map Peg.id ps) /\
  Forall (fun p => fresh p /\ Num.within 0.12 0.88 (Peg.x p)) ps.
Proof.
  destruct (generatePegs_inv count g) as [Hids Hall]. cbn zeta. repeat split.
  - rewrite <- (length_map Peg.id), Hids, length_map. apply length_seq.
  - rewrite Hids. apply (NoDup_fmap_2 pegId), NoDup_seq.
  - eapply Forall_impl; [exact Hall|]. intros p (? & ? & _). done.
Qed.

(** from seven pegs on the grid has two rows or more and every peg lies in
    the inset rectangle *)
Lemma generatePegs_inField (count : nat) (g : RNG) :
  (7 <= count)%nat -> Forall inField (generatePegs count g).1.
Proof.
  intros H. destruct (generatePegs_inv count g) as [_ Hall].
  eapply Forall_impl; [exact Hall|]. intros p (_ & Hx & Hy).
  split; [done|]. by apply Hy, ceilDiv_rows.
Qed.

(** C6 (as the code behaves): for a count of 1 to 6 the grid has a single
    row, [r / (rows - 1)] is [0 / 0], and every peg that [generatePegs]
    returns has the y coordinate NaN, which is not inside [0.15, 0.90]. *)
Theorem generatePegs_single_row_nan (count : nat) (g : RNG) :
  (1 <= count <= 6)%nat ->
  length (generatePegs count g).1 = count /\
  Forall (fun p => Peg.y p = NaN /\ ~ inField p) (generatePegs count g).1.
Proof.
  intros Hcount. split; [apply generatePegs_shape|].
  assert (Forall (fun v => v = NaN) (map Peg.y (generatePegs count g).1)) as H.
  { destruct count as [|[|[|[|[|[|[|n]]]]]]]; try lia;
      vm_compute; repeat constructor. }
  rewrite Forall_map in H. eapply Forall_impl; [exact H|].
  intros p Hy. split; [exact Hy|]. intros [_ Hin]. rewrite Hy in Hin.
  exact Hin.
Qed.

Lemma generatePegs_single_row_nan_witness :
  length (generatePegs 1 halfDraws).1 = 1%nat /\
  Forall (fun p => Peg.y p = NaN /\ ~ inField p) (generatePegs 1 halfDraws).1.
Proof. apply (generatePegs_single_row_nan 1 halfDraws). lia. Defined.

(** ** The number oracle *)

Lemma Qfloor_unique (x : Q) (z : Z) :
  (inject_Z z <= x)%Q -> (x < inject_Z (z + 1))%Q -> Qfloor x = z.
Proof.
  intros Hlo Hhi.
  pose proof (Qfloor_le x) as H1. pose proof (Qlt_floor x) as H2.
  assert (inject_Z (Qfloor x) < inject_Z (z + 1))%Q as H3 by lra.
  assert (inject_Z z < inject_Z (Qfloor x + 1))%Q as H4 by lra.
  rewrite <- Zlt_Qlt in H3, H4. lia.
Qed.

Lemma Qdiv_le_mult (a b c : Q) : (0 < b)%Q -> (a / b <= c)%Q -> (a <= c * b)%Q.
Proof.
  intros Hb H. apply (Qle_trans _ (a / b * b)).
  - apply Qle_lteq. right. field. lra.
  - apply Qmult_le_compat_r; lra.
Qed.

Lemma Qlt_div_mult (a b c : Q) : (0 < b)%Q -> (c < a / b)%Q -> (c * b < a)%Q.
Proof.
  intros Hb H. apply (Qlt_le_trans _ (a / b * b)).
  - apply Qmult_lt_compat_r; lra.
  - apply Qle_lteq. right. field. lra.
Qed.

Lemma inPart_floor (i n : Z) (u : Q) :
  (0 < n)%Z -> inPart i n u -> Qfloor (u * inject_Z n) = i.
Proof.
  intros Hn [Hlo Hhi].
  assert (0 < inject_Z n)%Q as Hn' by (rewrite (Zlt_Qlt 0) in Hn; exact Hn).
  apply Qfloor_unique.
  - by apply Qdiv_le_mult.
  - by apply Qlt_div_mult.
Qed.

Lemma floor_inPart (n : Z) (u : Q) :
  (0 < n)%Z -> inPart (Qfloor (u * inject_Z n)) n u.
Proof.
  intros Hn.
  assert (0 < inject_Z n)%Q as Hn' by (rewrite (Zlt_Qlt 0) in Hn; exact Hn).
  split.
  - apply Qle_shift_div_r; [exact Hn' | apply Qfloor_le].
  - apply Qlt_shift_div_l; [exact Hn' | apply Qlt_floor].
Qed.

Lemma floor_unit_range (n : Z) (u : Q) :
  (0 < n)%Z -> (0 <= u)%Q -> (u < 1)%Q ->
  (0 <= Qfloor (u * inject_Z n) < n)%Z.
Proof.
  intros Hn H0 H1.
  assert (0 < inject_Z n)%Q as Hn' by (rewrite (Zlt_Qlt 0) in Hn; exact Hn).
  pose proof (Qfloor_le (u * inject_Z n)) as Hf.
  pose proof (Qlt_floor (u * inject_Z n)) as Hc.
  assert (0 <= u * inject_Z n)%Q by nra.
  assert (u * inject_Z n < inject_Z n)%Q by nra.
  split.
  - assert (inject_Z (-1 + 1) < inject_Z (Qfloor (u * inject_Z n) + 1))%Q as H3.
    { change (inject_Z (-1 + 1)) with 0%Q. lra. }
    rewrite <- Zlt_Qlt in H3. lia.
  - rewrite Zlt_Qlt. lra.
Qed.

Lemma elem_of_unmarkedOf (pool : list Z) (marked : gset Z) (n : Z) :
  n ∈ unmarkedOf pool marked <-> n ∈ pool /\ n ∉ marked.
Proof. unfold unmarkedOf. rewrite list_elem_of_filter. tauto. Qed.

(** C5: [pickHitNumber] reads two draws [roll] and [u].  With [unmarked]
    the pool minus the marked set: when [unmarked] is non-empty and
    [roll < 0.75] it returns the element of [unmarked] whose position is
    the one of the [length unmarked] equal parts of [0,1) that [u] falls
    in; otherwise it returns [k] in [1..75] for [u] in the [k]-th of 75
    equal parts. *)
Theorem pickHitNumber_policy (pool : list Z) (marked : gset Z) (g : RNG) :
  unitDraws g ->
  let unmarked := unmarkedOf pool marked in
  let len := Z.of_nat (length unmarked) in
  let roll := draws g (cursor g) in
  let u := draws g (S (cursor g)) in
  let res := (pickHitNumber pool marked g).1 in
  (forall n, n ∈ unmarked <-> n ∈ pool /\ n ∉ marked) /\
  (unmarked <> [] -> (roll < 0.75)%Q ->
     (exists n, res = Some n /\ n ∈ unmarked) /\
     (forall (i : nat) n, unmarked !! i = Some n ->
        (inPart (Z.of_nat i) len u <-> Qfloor (u * inject_Z len) = Z.of_nat i) /\
        (inPart (Z.of_nat i) len u -> res = Some n))) /\
  (unmarked = [] \/ (0.75 <= roll)%Q ->
     (exists k, res = Some k /\ (1 <= k <= 75)%Z) /\
     (forall k, (1 <= k <= 75)%Z -> (inPart (k - 1) 75 u <-> res = Some k))) /\
  cursor (pickHitNumber pool marked g).2 = S (S (cursor g)).
Proof.
  intros Hg. cbv zeta. fold (unmarkedOf pool marked).
  destruct (Hg (S (cursor g))) as [Hu0 Hu1].
  unfold pickHitNumber, Math_random. fold (unmarkedOf pool marked).
  cbv beta iota zeta. cbn [draws cursor].
  set (unmarked := unmarkedOf pool marked).
  set (roll := draws g (cursor g)). set (u := draws g (S (cursor g))).
  fold u in Hu0, Hu1.
  split; [intros n; apply elem_of_unmarkedOf|].
  split; [|split].
  - intros Hne Hroll.
    assert (0 < length unmarked)%nat as Hlen by (destruct unmarked; [done | cbn; lia]).
    assert (0 < Z.of_nat (length unmarked))%Z as HlenZ by lia.
    apply Nat.ltb_lt in Hlen as ->. apply Qltb_lt in Hroll as ->.
    cbn [andb fst].
    pose proof (floor_unit_range _ u HlenZ Hu0 Hu1) as Hrange.
    unfold arrayGet.
    destruct (Z.ltb_spec (Qfloor (u * inject_Z (Z.of_nat (length unmarked)))) 0);
      [lia|].
    split.
    + destruct (lookup_lt_is_Some_2 unmarked
                  (Z.to_nat (Qfloor (u * inject_Z (Z.of_nat (length unmarked))))))
        as [n Hn]; [lia|].
      exists n. split; [exact Hn|]. eapply list_elem_of_lookup_2, Hn.
    + intros i n Hi. split.
      * split; [by apply inPart_floor | intros <-; by apply floor_inPart].
      * intros Hpart. rewrite (inPart_floor _ _ _ HlenZ Hpart), Nat2Z.id.
        exact Hi.
  - intros Hcase.
    assert (((0 <? length unmarked)%nat && Qltb roll 0.75) = false) as ->.
    { destruct Hcase as [-> | Hroll]; [reflexivity|].
      apply Qltb_ge in Hroll as ->. apply andb_false_r. }
    cbn [fst].
    pose proof (floor_unit_range 75 u eq_refl Hu0 Hu1) as Hrange.
    change (inject_Z 75) with 75%Q in Hrange.
    split.
    + eexists. split; [reflexivity | lia].
    + intros k Hk. split.
      * intros Hpart. apply (inPart_floor _ 75) in Hpart; [|lia].
        change (inject_Z 75) with 75%Q in Hpart. rewrite Hpart. f_equal. lia.
      * intros Hres.
        assert (Qfloor (u * 75) + 1 = k)%Z as Hk' by congruence.
        replace (k - 1)%Z with (Qfloor (u * 75)) by lia.
        apply (floor_inPart 75). lia.
  - destruct ((0 <? length unmarked)%nat && Qltb roll 0.75); reflexivity.
Qed.

Lemma pickHitNumber_policy_witness :
  (pickHitNumber [4; 9; 27]%Z {[9%Z]} halfDraws).1 = Some 27%Z.
Proof.
  pose proof (pickHitNumber_policy [4; 9; 27]%Z {[9%Z]} halfDraws) as H.
  assert (unitDraws halfDraws) as Hg.
  { intros i. cbn. split; [discriminate | reflexivity]. }
  destruct (H Hg) as (_ & Hpick & _).
  destruct Hpick as [_ Hpos]; [discriminate | reflexivity |].
  apply (Hpos 1%nat 27%Z); [reflexivity|].
  split; [discriminate | reflexivity].
Defined.

(** ** Cleanup *)

Lemma withRemoved_removed (p : Peg) : Peg.removed p = true -> withRemoved p = p.
Proof. destruct p. cbn. by intros ->. Qed.

Lemma cleanupPegs_next (hitIds : gset string) (ps : list Peg) :
  (cleanupPegs hitIds ps).1 = map (cleaned hitIds) ps.
Proof.
  induction ps as [|p ps IH]; [reflexivity|]. cbn [cleanupPegs map].
  destruct (cleanupPegs hitIds ps) as [next hitNums]. cbn [fst] in IH.
  rewrite <- IH. unfold cleaned.
  destruct (Peg.removed p) eqn:Hr;
    destruct (decide (Peg.id p ∈ hitIds)); cbn [fst]; try reflexivity.
  by rewrite withRemoved_removed.
Qed.

Lemma cleanupPegs_nums (hitIds : gset string) (ps : list Peg) :
  (cleanupPegs hitIds ps).2 = omap Peg.num (filter (touchedLive hitIds) ps).
Proof.
  induction ps as [|p ps IH]; [reflexivity|]. cbn [cleanupPegs].
  destruct (cleanupPegs hitIds ps) as [next hitNums]. cbn [snd] in IH.
  rewrite filter_cons.
  destruct (decide (touchedLive hitIds p)) as [[Hr Hin]|Hn].
  - rewrite Hr, decide_True by done. cbn [snd omap list_omap].
    rewrite <- IH. destruct (Peg.num p); reflexivity.
  - rewrite <- IH. destruct (Peg.removed p) eqn:Hr; [reflexivity|].
    rewrite decide_False; [reflexivity|]. intros Hin. by apply Hn.
Qed.

Lemma cleaned_idem (hitIds : gset string) (p : Peg) :
  cleaned hitIds (cleaned hitIds p) = cleaned hitIds p.
Proof. unfold cleaned. repeat case_decide; done. Qed.

Lemma cleaned_not_live (hitIds : gset string) (p : Peg) :
  ~ touchedLive hitIds (cleaned hitIds p).
Proof.
  unfold touchedLive, cleaned. case_decide; cbn; intros [? ?]; done.
Qed.

Lemma cleanupPegs_again (hitIds : gset string) (ps : list Peg) :
  cleanupPegs hitIds (cleanupPegs hitIds ps).1
  = ((cleanupPegs hitIds ps).1, []).
Proof.
  apply injective_projections; cbn [fst snd].
  - rewrite !cleanupPegs_next, map_map. apply map_ext. intros p.
    apply cleaned_idem.
  - rewrite cleanupPegs_nums, cleanupPegs_next.
    induction ps as [|p ps IH]; [reflexivity|]. cbn [map].
    rewrite filter_cons, decide_False by apply cleaned_not_live. exact IH.
Qed.

(** ** Rendering and the state between inputs *)

Ltac proj :=
  unfold pool in *;
  cbn [card marked pegs ballsLeft ball isPositioning hitPegIdsRef ballRef
       pegsRef poolRef markedRef lastUpdateRef isPositioningRef frameCount
       ballSet dirty rng
       with_card with_marked with_pegs with_ballsLeft with_ball
       with_isPositioning with_hitPegIdsRef with_ballRef with_pegsRef
       with_poolRef with_markedRef with_lastUpdateRef with_isPositioningRef
       with_frameCount with_ballSet with_dirty with_rng
       setBall setPegs setCard setMarked pool fst snd] in *.

Lemma render_consistent (s : GameState) : settling s -> consistent (render s).
Proof.
  intros (Hset & Hclean & Hagree). unfold render, consistent.
  destruct (dirty s) eqn:Hd.
  - proj. repeat split; try reflexivity.
    + destruct (ballSet s); [reflexivity | by apply Hagree].
    + destruct (ballSet s); [reflexivity | by apply Hagree].
  - destruct (ballSet s) eqn:Hb; [by specialize (Hset eq_refl)|].
    destruct (Hclean eq_refl) as (? & ? & ?). destruct (Hagree eq_refl).
    repeat split; assumption.
Qed.

Lemma consistent_settling (s : GameState) : consistent s -> settling s.
Proof.
  intros (Hd & Hb & Hp & Hpool & Hm & Hdrop & Heq). unfold settling.
  rewrite Hb, Hd. repeat split; done.
Qed.

Lemma markNumber_same (n : Z) (s : GameState) :
  sameButMarked s (markNumber n s) /\
  (marked (markNumber n s) = marked s \/ dirty (markNumber n s) = true) /\
  (dirty s = true -> dirty (markNumber n s) = true).
Proof.
  unfold markNumber, sameButMarked.
  repeat case_decide; proj; (split; [by destruct s | split; auto]).
Qed.

Lemma sameButMarked_trans (s1 s2 s3 : GameState) :
  sameButMarked s1 s2 -> sameButMarked s2 s3 -> sameButMarked s1 s3.
Proof. unfold sameButMarked. intros -> ->. reflexivity. Qed.

Lemma markNumbers_same (l : list Z) (s : GameState) :
  let s' := foldl (fun s n => markNumber n s) s l in
  sameButMarked s s' /\
  (marked s' = marked s \/ dirty s' = true) /\
  (dirty s = true -> dirty s' = true).
Proof.
  revert s. induction l as [|n l IH]; intros s; cbn [foldl].
  - split; [by destruct s | split; auto].
  - destruct (markNumber_same n s) as (H1 & H2 & H3).
    destruct (IH (markNumber n s)) as (H4 & H5 & H6). cbv zeta in *.
    split; [by eapply sameButMarked_trans|]. split.
    + destruct H5 as [->|]; [|by right]. destruct H2 as [->|H2]; [by left|].
      right. by apply H6.
    + intros Hd. by apply H6, H3.
Qed.

Lemma markNumbers_shape (l : list Z) (s : GameState) :
  exists m d,
    foldl (fun s n => markNumber n s) s l = with_dirty d (with_marked m s) /\
    (m = marked s \/ d = true) /\ (dirty s = true -> d = true).
Proof.
  destruct (markNumbers_same l s) as (H1 & H2 & H3). cbv zeta in *.
  eexists _, _. split; [exact H1|]. split; assumption.
Qed.

Lemma with_lastUpdateRef_consistent (now : Q) (s : GameState) :
  consistent s -> consistent (with_lastUpdateRef now s).
Proof. unfold consistent. proj. done. Qed.

Section PhysicsFacts.

Variable powQ : Q -> Q -> Q.
Variable sqrtQ : Q -> Q.

Lemma cleanupStep_settling (s : GameState) :
  consistent s -> settling (cleanupStep s).1.
Proof.
  intros Hs. unfold cleanupStep.
  destruct (_ && _); [|by apply consistent_settling].
  destruct (cleanupPegs _ _) as [next hitNums].
  destruct (markNumbers_shape hitNums s) as (m & d & -> & _ & _).
  destruct Hs as (Hd & Hb & Hp & Hpool & Hm & Hdrop & Heq).
  unfold settling. proj. rewrite Hb. repeat split; done.
Qed.

Lemma physicsStep_settling (dt : Q) (s : GameState) :
  consistent s -> PBall.dropping (ballRef s) = true ->
  settling (physicsStep powQ sqrtQ dt s).
Proof.
  intros (Hd & Hb & Hp & Hpool & Hm & Hdrop & Heq) Hdropping.
  unfold physicsStep.
  destruct (integrate _ _ _) as [[[x y] vx] vy].
  destruct (wallCollisions _ _ _ _) as [[[x1 y1] vx1] vy1].
  destruct (bounceOff _ _ _ _ _ _) as [[[x2 y2] vx2] vy2].
  set (scan := scanPegs x1 y1 s).
  destruct (0 <? length (scanUpdates scan))%nat;
    destruct (y2 >? 1.06%Q)%num; proj;
    try destruct (S (frameCount s) mod 3 =? 0)%nat;
    unfold settling; proj; rewrite ?Hb, ?Hd, ?Hdrop, ?Hdropping;
    repeat split; done.
Qed.

Lemma step_settling (now : Q) (s : GameState) :
  consistent s -> settling (step powQ sqrtQ now s).1.
Proof.
  intros Hs. unfold step.
  apply (with_lastUpdateRef_consistent now) in Hs.
  destruct (PBall.dropping (ballRef (with_lastUpdateRef now s))) eqn:Hdrop;
    cbn [negb].
  - by apply physicsStep_settling.
  - by apply cleanupStep_settling.
Qed.

End PhysicsFacts.

Lemma positionBall_settling (nx : number) (s : GameState) :
  settling s -> settling (positionBall nx s).
Proof.
  intros Hs. unfold positionBall. destruct (PBall.dropping (ball s)); [done|].
  unfold settling. proj. done.
Qed.

Lemma setIsPositioning_settling (v : bool) (s : GameState) :
  settling s -> settling (setIsPositioning v s).
Proof.
  intros Hs. unfold setIsPositioning. destruct (eqb _ _); [done|].
  destruct Hs as (H1 & H2 & H3). unfold settling. proj. done.
Qed.

Lemma with_isPositioningRef_settling (v : bool) (s : GameState) :
  settling s -> settling (with_isPositioningRef v s).
Proof. unfold settling. proj. done. Qed.

Lemma setBall_settling (b : PBall) (s : GameState) : settling (setBall b s).
Proof. unfold settling. proj. done. Qed.

Lemma handleStart_settling (x01 : Q) (s : GameState) :
  consistent s -> settling (handleStart x01 s).
Proof.
  intros Hs. apply consistent_settling in Hs. unfold handleStart.
  destruct (_ || _); [done|].
  by apply positionBall_settling, setIsPositioning_settling,
    with_isPositioningRef_settling.
Qed.

Lemma handleMove_settling (x01 : Q) (s : GameState) :
  consistent s -> settling (handleMove x01 s).
Proof.
  intros Hs. apply consistent_settling in Hs. unfold handleMove.
  destruct (negb _); [done|]. destruct (_ || _); [done|].
  by apply positionBall_settling.
Qed.

Lemma handleEnd_settling (s : GameState) :
  consistent s -> settling (handleEnd s).
Proof.
  intros Hs. apply consistent_settling in Hs. unfold handleEnd.
  destruct (negb _); [by apply setIsPositioning_settling|].
  destruct (_ || _).
  - by apply setIsPositioning_settling, with_isPositioningRef_settling.
  - unfold Math_random. apply setBall_settling.
Qed.

Lemma resetBoard_settling (s : GameState) : settling (resetBoard s).
Proof.
  unfold resetBoard. destruct (generatePegs _ _) as [newPegs g1].
  unfold settling. proj. done.
Qed.

Lemma newGame_settling (s : GameState) : settling (newGame s).
Proof.
  unfold newGame. destruct (generateBingoCard _) as [c g1].
  apply resetBoard_settling.
Qed.

Lemma handle_consistent powQ sqrtQ (e : Event) (s : GameState) :
  consistent s -> consistent (handle powQ sqrtQ e s).1.
Proof.
  intros Hs. destruct e; cbn [handle].
  - pose proof (step_settling powQ sqrtQ now s Hs) as H.
    destruct (step _ _ _ _) as [s' out]. by apply render_consistent.
  - by apply render_consistent, handleStart_settling.
  - by apply render_consistent, handleMove_settling.
  - by apply render_consistent, handleEnd_settling.
  - apply render_consistent, resetBoard_settling.
  - apply render_consistent, newGame_settling.
Qed.

Lemma initialState_consistent (t0 : Q) (g : RNG) : consistent (initialState t0 g).
Proof.
  unfold initialState. destruct (generateBingoCard g) as [c g1].
  destruct (generatePegs 30 g1) as [ps g2]. unfold consistent. proj. done.
Qed.

Lemma size_pos_nonempty (X : gset string) :
  (0 <? size X)%nat = true <-> X <> ∅.
Proof.
  rewrite Nat.ltb_lt. split.
  - intros H ->. rewrite size_empty in H. lia.
  - intros H. assert (size X <> 0%nat); [|lia].
    rewrite size_non_empty_iff. by intros ?%leibniz_equiv.
Qed.

Section CleanupFrame.

Variable powQ : Q -> Q -> Q.
Variable sqrtQ : Q -> Q.

(** the frame that performs the cleanup, written out *)
Lemma cleanup_frame_eq (now : Q) (s : GameState) :
  consistent s ->
  PBall.dropping (ballRef s) = false ->
  (PBall.y (ballRef s) >=? 1.05%Q)%num = true ->
  hitPegIdsRef s <> ∅ ->
  exists m,
    handle powQ sqrtQ (Frame now) s
    = (with_hitPegIdsRef ∅
         (with_pegsRef (map (cleaned (hitPegIdsRef s)) (pegs s))
         (with_pegs (map (cleaned (hitPegIdsRef s)) (pegs s))
         (with_markedRef m (with_marked m
         (with_frameCount 0 (with_lastUpdateRef now s)))))),
       omap Peg.num (filter (touchedLive (hitPegIdsRef s)) (pegs s))).
Proof.
  intros (Hd & Hb & Hp & Hpool & Hm & Hdrop & Heq) Hidle Hy Hne.
  apply size_pos_nonempty in Hne.
  cbn [handle]. unfold step. proj. rewrite Hidle. cbn [negb].
  unfold cleanupStep. proj. rewrite Hy, Hne. cbn [andb].
  pose proof (cleanupPegs_next (hitPegIdsRef s) (pegsRef s)) as Hnext.
  pose proof (cleanupPegs_nums (hitPegIdsRef s) (pegsRef s)) as Hnums.
  destruct (cleanupPegs _ _) as [next hitNums]. cbn [fst snd] in *.
  subst next hitNums. rewrite Hp.
  destruct (markNumbers_shape
              (omap Peg.num (filter (touchedLive (hitPegIdsRef s)) (pegs s)))
              (with_lastUpdateRef now s)) as (m & d & -> & _ & _).
  exists m. unfold render. proj. rewrite Hb.
  destruct s. proj. subst. reflexivity.
Qed.

End CleanupFrame.

(** C2: in a frame with the ball at rest at the bottom and a non-empty
    touched set, every peg whose id is in the touched set is marked
    removed (a peg already removed stays as it is), every other peg is
    unchanged, and the numbers handed to the marking collaborator are
    those of the touched pegs still on the board, one per peg, in peg
    order. *)
Theorem cleanup_frame powQ sqrtQ (now : Q) (s : GameState) :
  consistent s ->
  PBall.dropping (ballRef s) = false ->
  (PBall.y (ballRef s) >=? 1.05%Q)%num = true ->
  hitPegIdsRef s <> ∅ ->
  let hitIds := hitPegIdsRef s in
  let s' := (handle powQ sqrtQ (Frame now) s).1 in
  let out := (handle powQ sqrtQ (Frame now) s).2 in
  pegs s' = map (cleaned hitIds) (pegs s) /\
  (forall p, Peg.id p ∈ hitIds -> cleaned hitIds p = withRemoved p) /\
  (forall p, Peg.removed p = true -> cleaned hitIds p = p) /\
  (forall p, Peg.id p ∉ hitIds -> cleaned hitIds p = p) /\
  out = omap Peg.num (filter (touchedLive hitIds) (pegs s)) /\
  pegsRef s' = pegs s' /\ hitPegIdsRef s' = ∅.
Proof.
  intros Hs Hidle Hy Hne. cbv zeta.
  destruct (cleanup_frame_eq powQ sqrtQ now s Hs Hidle Hy Hne) as [m ->].
  proj. repeat split; try reflexivity.
  - intros p Hin. unfold cleaned. by rewrite decide_True.
  - intros p Hr. unfold cleaned. case_decide; [|done].
    by apply withRemoved_removed.
  - intros p Hout. unfold cleaned. by rewrite decide_False.
Qed.

(** C9: the frame after a cleanup frame, with no drop in between, changes
    no peg and no mark and hands no number to the marking collaborator;
    and the cleanup pass itself, run again with the same touched set on
    the pegs it produced, removes nothing more and collects no number. *)
Theorem cleanup_idempotent powQ sqrtQ (now1 now2 : Q) (s : GameState) :
  consistent s ->
  PBall.dropping (ballRef s) = false ->
  (PBall.y (ballRef s) >=? 1.05%Q)%num = true ->
  hitPegIdsRef s <> ∅ ->
  let r1 := handle powQ sqrtQ (Frame now1) s in
  let r2 := handle powQ sqrtQ (Frame now2) r1.1 in
  pegs r2.1 = pegs r1.1 /\ marked r2.1 = marked r1.1 /\ r2.2 = [] /\
  cleanupPegs (hitPegIdsRef s) (pegs r1.1) = (pegs r1.1, []).
Proof.
  intros Hs Hidle Hy Hne. cbv zeta.
  destruct (cleanup_frame_eq powQ sqrtQ now1 s Hs Hidle Hy Hne) as [m E].
  rewrite E. cbn [fst snd].
  assert (pegs (handle powQ sqrtQ (Frame now1) s).1
          = (cleanupPegs (hitPegIdsRef s) (pegs s)).1) as Hpegs.
  { rewrite E, cleanupPegs_next. reflexivity. }
  rewrite E in Hpegs. cbn [fst] in Hpegs.
  split; [|split; [|split]].
  4: { rewrite Hpegs. apply cleanupPegs_again. }
  all: cbn [handle]; unfold step; proj; rewrite Hidle; cbn [negb];
    unfold cleanupStep; proj; rewrite size_empty, andb_false_r;
    destruct Hs as (Hd & Hb & _); unfold render; proj; rewrite ?Hd;
    reflexivity.
Qed.

(** ** Release *)

Lemma handleEnd_noop powQ sqrtQ (s : GameState) :
  consistent s ->
  PBall.dropping (ballRef s) = true \/ (ballsLeft s <= 0)%Z \/
    isPositioningRef s = false ->
  sameRound s (handle powQ sqrtQ PointerUp s).1.
Proof.
  intros (Hd & Hb & Hp & Hpool & Hm & Hdrop & Heq) Hcase.
  cbn [handle fst]. unfold handleEnd.
  assert (negb (isPositioningRef s) = true \/
          (PBall.dropping (ballRef s) || (ballsLeft s <=? 0)%Z) = true) as Hg.
  { destruct Hcase as [ -> | [H%Z.leb_le | -> ] ]; auto.
    right. rewrite H. apply orb_true_r. }
  assert (forall s0, sameRound s s0 -> dirty s0 = false -> ballSet s0 = false ->
            sameRound s (render (setIsPositioning false s0))) as Hfin.
  { intros s0 (H1 & H2 & H3 & H4 & H5 & H6 & H7) Hd0 Hb0.
    unfold setIsPositioning, render.
    destruct (eqb _ _); [rewrite Hd0; repeat split; assumption|].
    proj. rewrite Hb0. unfold sameRound. proj.
    repeat split; try assumption; congruence. }
  destruct (negb (isPositioningRef s)).
  - apply Hfin; [repeat split | assumption..].
  - destruct Hg as [ | -> ]; [done|]. apply Hfin; proj; [repeat split | done..].
Qed.

Lemma handleEnd_release powQ sqrtQ (s : GameState) :
  consistent s ->
  PBall.dropping (ballRef s) = false -> (0 < ballsLeft s)%Z ->
  isPositioningRef s = true ->
  let s' := (handle powQ sqrtQ PointerUp s).1 in
  ballsLeft s' = (ballsLeft s - 1)%Z /\ hitPegIdsRef s' = ∅ /\
  ball s' = released (ball s) (nextDraw s) /\ ballRef s' = ball s' /\
  pegs s' = pegs s /\ pegsRef s' = pegsRef s /\ marked s' = marked s /\
  isPositioningRef s' = false.
Proof.
  intros (Hd & Hb & Hp & Hpool & Hm & Hdrop & Heq) Hidle Hballs Hpos.
  cbn [handle fst]. unfold handleEnd. rewrite Hpos, Hidle. cbn [negb orb].
  destruct (Z.leb_spec (ballsLeft s) 0); [lia|].
  unfold Math_random, setIsPositioning, setBallsLeft. proj.
  destruct (eqb false (isPositioning s)); proj;
    (destruct (Z.eqb_spec (Z.max 0 (ballsLeft s - 1)) (ballsLeft s)); [lia|]);
    unfold render; proj; repeat split; (reflexivity || lia || congruence).
Qed.

(** C7 (amended): a pointer release while the ball is dropping, while no
    ball is left, or while no positioning gesture is in progress changes
    neither the ball, the pegs, the touched set nor the balls left; a
    release that ends a positioning gesture, with the ball at rest and a
    ball left, takes one ball off the count, empties the touched set and
    sends the ball off with vy = 0.02, vx = (u - 0.5) * 0.18 for the next
    draw [u] (so |vx| <= 0.09), and [dropping] set. *)
Theorem release_guarded powQ sqrtQ (s : GameState) :
  consistent s ->
  let s' := (handle powQ sqrtQ PointerUp s).1 in
  (PBall.dropping (ballRef s) = true \/ (ballsLeft s <= 0)%Z \/
     isPositioningRef s = false ->
   sameRound s s') /\
  (PBall.dropping (ballRef s) = false -> (0 < ballsLeft s)%Z ->
   isPositioningRef s = true ->
   ballsLeft s' = (ballsLeft s - 1)%Z /\ hitPegIdsRef s' = ∅ /\
   PBall.vy (ballRef s') = 0.02%Q /\
   PBall.vx (ballRef s') = ((Fin (nextDraw s) - 0.5%Q) * 0.18%Q)%num /\
   (unitDraws (rng s) -> Num.within (-0.09) 0.09 (PBall.vx (ballRef s'))) /\
   PBall.dropping (ballRef s') = true /\ ball s' = ballRef s' /\
   pegs s' = pegs s).
Proof.
  intros Hs. cbv zeta. split; [by apply handleEnd_noop|].
  intros Hidle Hballs Hpos.
  destruct (handleEnd_release powQ sqrtQ s Hs Hidle Hballs Hpos)
    as (H1 & H2 & H3 & H4 & H5 & _).
  rewrite H4, H3. unfold released. cbn [PBall.vx PBall.vy PBall.dropping].
  split; [assumption|]. split; [assumption|]. split; [reflexivity|].
  split; [reflexivity|].
  split; [|split; [reflexivity | split; [reflexivity | assumption]]].
  intros Hg. destruct (Hg (cursor (rng s))). unfold nextDraw.
  rewrite sub_fin, mul_fin. cbn [Num.within]. lra.
Qed.

Lemma release_guarded_witness :
  ballsLeft (handle powApprox sqrtApprox PointerUp
               (handle powApprox sqrtApprox (PointerDown 0.3)
                  (initialState 0 cycleDraws)).1).1 = 4%Z.
Proof.
  set (s := (handle powApprox sqrtApprox (PointerDown 0.3)
               (initialState 0 cycleDraws)).1).
  assert (consistent s) as Hs.
  { apply handle_consistent, initialState_consistent. }
  destruct (release_guarded powApprox sqrtApprox s Hs) as [_ H].
  destruct H as (H & _); [reflexivity..|]. exact H.
Defined.

(** C7 (counterexample): the ball is at rest and five balls are left, but
    no positioning gesture is in progress: the release handler neither
    takes a ball off the count nor starts the drop. *)
Lemma release_without_gesture :
  let s := initialState 0 cycleDraws in
  PBall.dropping (ballRef s) = false /\ ballsLeft s = 5%Z /\
  ballsLeft (handleEnd s) = 5%Z /\
  PBall.dropping (ball (handleEnd s)) = false.
Proof. vm_compute. repeat split. Qed.

Lemma cleanupStep_ball (s : GameState) :
  ball (cleanupStep s).1 = ball s /\ ballRef (cleanupStep s).1 = ballRef s /\
  ballSet (cleanupStep s).1 = ballSet s.
Proof.
  unfold cleanupStep. destruct (_ && _); [|done].
  destruct (cleanupPegs _ _) as [next hitNums].
  destruct (markNumbers_shape hitNums s) as (m & d & -> & _ & _).
  proj. done.
Qed.




(** ** The marked set *)

Lemma markNumber_markedInPool (n : Z) (s : GameState) :
  markedInPool s ->
  markedInPool (markNumber n s) /\ card (markNumber n s) = card s.
Proof.
  intros Hs. unfold markNumber. repeat case_decide; try done.
  split; [|reflexivity]. unfold markedInPool. proj. intros k Hk.
  apply elem_of_union in Hk as [Hk%elem_of_singleton|Hk]; [by subst | by apply Hs].
Qed.

Lemma markNumbers_markedInPool (l : list Z) (s : GameState) :
  markedInPool s -> markedInPool (foldl (fun s n => markNumber n s) s l).
Proof.
  revert s. induction l as [|n l IH]; intros s Hs; cbn [foldl]; [done|].
  by apply IH, markNumber_markedInPool.
Qed.

Lemma markedInPool_ext (s s' : GameState) :
  card s' = card s -> marked s' = marked s ->
  markedInPool s -> markedInPool s'.
Proof. unfold markedInPool, pool. intros -> ->. done. Qed.

Lemma render_markedInPool (s : GameState) :
  markedInPool s -> markedInPool (render s).
Proof.
  unfold render. destruct (dirty s); [|done].
  apply markedInPool_ext; reflexivity.
Qed.

Lemma resetBoard_card_marked (s : GameState) :
  card (resetBoard s) = card s /\ marked (resetBoard s) = marked s.
Proof.
  unfold resetBoard. destruct (generatePegs _ _) as [newPegs g1]. proj. done.
Qed.

Lemma positionBall_card_marked (nx : number) (s : GameState) :
  card (positionBall nx s) = card s /\ marked (positionBall nx s) = marked s.
Proof. unfold positionBall. destruct (PBall.dropping _); proj; done. Qed.

Lemma handle_markedInPool powQ sqrtQ (e : Event) (s : GameState) :
  markedInPool s -> markedInPool (handle powQ sqrtQ e s).1.
Proof.
  intros Hs. destruct e; cbn [handle].
  - assert (markedInPool (step powQ sqrtQ now s).1) as H.
    { assert (markedInPool (with_lastUpdateRef now s)) as Hs'
        by (revert Hs; apply markedInPool_ext; reflexivity).
      unfold step. destruct (negb _).
      - unfold cleanupStep. destruct (_ && _); [|done].
        destruct (cleanupPegs _ _) as [next hitNums]. cbn [fst].
        eapply markedInPool_ext;
          [| | apply (markNumbers_markedInPool hitNums), Hs']; reflexivity.
      - cbn [fst]. revert Hs'. apply markedInPool_ext.
        all: unfold physicsStep;
          destruct (integrate _ _ _) as [[[x y] vx] vy];
          destruct (wallCollisions _ _ _ _) as [[[x1 y1] vx1] vy1];
          destruct (bounceOff _ _ _ _ _ _) as [[[x2 y2] vx2] vy2];
          destruct (0 <? length _)%nat; destruct (y2 >? 1.06%Q)%num; proj;
          try destruct (S (frameCount s) mod 3 =? 0)%nat; reflexivity. }
    destruct (step _ _ _ _) as [s' out]. by apply render_markedInPool.
  - apply render_markedInPool. revert Hs. apply markedInPool_ext.
    all: unfold handleStart; destruct (_ || _); [reflexivity|];
      match goal with |- _ (positionBall ?nx ?s0) = _ =>
        destruct (positionBall_card_marked nx s0) as [E1 E2];
        rewrite ?E1, ?E2 end;
      unfold setIsPositioning; proj; destruct (eqb _ _); reflexivity.
  - apply render_markedInPool. revert Hs. apply markedInPool_ext.
    all: unfold handleMove; destruct (negb _); [reflexivity|];
      destruct (_ || _); [reflexivity|]; apply positionBall_card_marked.
  - apply render_markedInPool. revert Hs. apply markedInPool_ext.
    all: unfold handleEnd, setIsPositioning, setBallsLeft, Math_random; proj;
      destruct (negb _); [destruct (eqb _ _); reflexivity|];
      destruct (_ || _); [destruct (eqb _ _); reflexivity|];
      destruct (eqb _ _); proj; destruct (_ =? _)%Z; reflexivity.
  - apply render_markedInPool. revert Hs.
    apply markedInPool_ext; apply resetBoard_card_marked.
  - apply render_markedInPool. unfold newGame.
    destruct (generateBingoCard _) as [c g1].
    intros n Hn. destruct (resetBoard_card_marked
      (setBallsLeft 5 (setMarked ∅ (setCard c (with_rng g1 s))))) as [_ Hm].
    rewrite Hm in Hn. unfold setBallsLeft in Hn.
    destruct (_ =? _)%Z; proj; set_solver.
Qed.

Lemma run_markedInPool powQ sqrtQ (es : list Event) (s : GameState) :
  markedInPool s -> markedInPool (run powQ sqrtQ es s).1.
Proof.
  revert s. induction es as [|e es IH]; intros s Hs; cbn [run]; [done|].
  pose proof (handle_markedInPool powQ sqrtQ e s Hs) as H1.
  destruct (handle _ _ e s) as [s1 out1]. specialize (IH s1 H1).
  destruct (run _ _ es s1) as [s2 out2]. exact IH.
Qed.

(** C10: marking a number that is not on the card leaves the marked set
    as it is, and in every state the game reaches from its first render,
    through frames, pointer input, board resets and new games, every
    marked number is a number of the current card. *)
Theorem marked_subset_pool powQ sqrtQ (t0 : Q) (g : RNG) (es : list Event) :
  (forall (n : Z) (s : GameState), n ∉ pool s -> markNumber n s = s) /\
  (forall n : Z,
     n ∈ marked (run powQ sqrtQ es (initialState t0 g)).1 ->
     n ∈ pool (run powQ sqrtQ es (initialState t0 g)).1).
Proof.
  split.
  - intros n s Hn. unfold markNumber. by rewrite decide_False.
  - apply run_markedInPool. unfold initialState.
    destruct (generateBingoCard g) as [c g1].
    destruct (generatePegs 30 g1) as [ps g2]. intros n. proj. set_solver.
Qed.

(** ** Number assignment *)

Lemma updated_untouched (ups : list (string * option Z)) (p : Peg) :
  Peg.id p ∉ ups.*1 -> updated ups p = p.
Proof.
  intros Hout. unfold updated.
  rewrite (not_elem_of_list_to_map_1 (reverse ups)); [reflexivity|].
  rewrite fmap_reverse, elem_of_reverse. exact Hout.
Qed.

Lemma updated_cases (ups : list (string * option Z)) (p : Peg) :
  updated ups p = p \/
  (Peg.id p ∈ ups.*1 /\ exists n, updated ups p = withHit n p).
Proof.
  destruct (decide (Peg.id p ∈ ups.*1)) as [Hin|Hout].
  - unfold updated. destruct (mjoin _) as [n|]; [|by left].
    right. split; [exact Hin | by exists n].
  - left. by apply updated_untouched.
Qed.

Lemma scanPeg_updates (x y : number) (pool : list Z) (marked : gset Z)
    (st : ScanState) (p : Peg) :
  scanUpdates (scanPeg x y pool marked st p) = scanUpdates st \/
  (Peg.hit p = false /\ Peg.removed p = false /\
   exists num,
     scanUpdates (scanPeg x y pool marked st p)
     = scanUpdates st ++ [(Peg.id p, num)]).
Proof.
  unfold scanPeg. destruct (Peg.removed p) eqn:Hr; [by left|].
  set (dist2 := (_ + _)%num).
  destruct (dist2 <=? rr)%num.
  - destruct (Peg.hit p) eqn:Hh; cbn [negb].
    + left. cbn [scanBest]. destruct (dist2 <? scanBest st)%num; reflexivity.
    + right. split; [reflexivity|]. split; [reflexivity|].
      destruct (pickHitNumber pool marked (scanRng st)) as [num g1].
      exists num. cbn [scanBest].
      destruct (dist2 <? scanBest st)%num; reflexivity.
  - left. destruct (dist2 <? scanBest st)%num; reflexivity.
Qed.

Lemma scan_updates (x y : number) (pool : list Z) (marked : gset Z)
    (ps : list Peg) (st : ScanState) :
  Forall (fun u => u ∈ scanUpdates st \/
                   exists q, q ∈ ps /\ Peg.id q = u.1 /\ Peg.hit q = false)
         (scanUpdates (foldl (scanPeg x y pool marked) st ps)).
Proof.
  revert st. induction ps as [|p ps IH]; intros st; cbn [foldl].
  - apply Forall_forall. intros u Hu. by left.
  - eapply Forall_impl; [apply IH|]. cbn beta. intros u [Hu|(q & Hq & Hid & Hh)].
    + destruct (scanPeg_updates x y pool marked st p) as [E|(Hh & _ & num & E)];
        rewrite E in Hu; [by left|].
      apply elem_of_app in Hu as [Hu|Hu%list_elem_of_singleton]; [by left|].
      right. exists p. subst u. split; [left|done].
    + right. exists q. split; [by right | done].
Qed.

Lemma hit_peg_not_updated (x y : number) (s : GameState) (i : nat) (p : Peg) :
  NoDup (map Peg.id (pegsRef s)) ->
  pegsRef s !! i = Some p -> Peg.hit p = true ->
  updated (scanUpdates (scanPegs x y s)) p = p.
Proof.
  intros Hnd Hi Hh. apply updated_untouched. intros Hin.
  apply list_elem_of_fmap in Hin as ([idu num] & Hid & Hu).
  cbn [fst] in Hid. subst idu.
  pose proof (scan_updates x y (poolRef s) (markedRef s) (pegsRef s)
                (mkScan (hitPegIdsRef s) [] None PosInf (rng s))) as Hall.
  rewrite Forall_forall in Hall. apply Hall in Hu.
  cbn [scanUpdates fst] in Hu.
  destruct Hu as [Hu|(q & Hq & Hid & Hq')]; [by apply elem_of_nil in Hu|].
  apply list_elem_of_lookup in Hq as [j Hj].
  assert (i = j) as <-.
  { eapply NoDup_lookup; [exact Hnd | |].
    - rewrite list_lookup_fmap, Hi. reflexivity.
    - rewrite list_lookup_fmap, Hj. cbn. by rewrite Hid. }
  congruence.
Qed.

Lemma Forall2_map_lookup {A B : Type} (R : A -> B -> Prop) (f : A -> B)
    (l : list A) :
  (forall i x, l !! i = Some x -> R x (f x)) -> Forall2 R l (map f l).
Proof.
  intros H. apply Forall2_same_length_lookup. split.
  - symmetry. apply length_map.
  - intros i x y Hx Hy. change (map f l) with (f <$> l) in Hy.
    rewrite list_lookup_fmap, Hx in Hy. injection Hy as <-. by eapply H.
Qed.

Lemma Forall2_refl_on {A : Type} (R : A -> A -> Prop) (l : list A) :
  (forall x, R x x) -> Forall2 R l l.
Proof. intros H. induction l; constructor; auto. Qed.

Lemma pegStep_refl (p : Peg) : pegStep p p.
Proof. by left. Qed.

Lemma pegStep_keeps (p p' : Peg) : pegStep p p' -> keeps p p'.
Proof.
  intros [->|[->|(Hh & n & ->)]]; unfold keeps; cbn; split; try done.
  intros. congruence.
Qed.

Lemma pegStep_numbered (p p' : Peg) :
  pegStep p p' -> numbered p -> numbered p'.
Proof.
  intros [->|[->|(Hh & n & ->)]]; unfold numbered; cbn; done.
Qed.

Lemma pegStep_ids (ps ps' : list Peg) :
  Forall2 pegStep ps ps' -> map Peg.id ps' = map Peg.id ps.
Proof.
  induction 1 as [|p p' ps ps' H _ IH]; [reflexivity|]. cbn [map].
  f_equal; [|exact IH]. by destruct (pegStep_keeps p p' H).
Qed.

Lemma render_pegs (s : GameState) : pegs (render s) = pegs s.
Proof. unfold render. destruct (dirty s); reflexivity. Qed.

Section PegSteps.

Variable powQ : Q -> Q -> Q.
Variable sqrtQ : Q -> Q.

Lemma cleanupStep_pegs (s : GameState) :
  consistent s -> Forall2 pegStep (pegs s) (pegs (cleanupStep s).1).
Proof.
  intros (_ & _ & Hp & _). unfold cleanupStep.
  destruct (_ && _); [|apply Forall2_refl_on, pegStep_refl].
  pose proof (cleanupPegs_next (hitPegIdsRef s) (pegsRef s)) as Hnext.
  destruct (cleanupPegs _ _) as [next hitNums]. cbn [fst] in Hnext.
  proj. subst next. rewrite Hp. apply Forall2_map_lookup.
  intros i p _. unfold cleaned, pegStep. case_decide; auto.
Qed.

Lemma physicsStep_pegs_eq (dt : Q) (s : GameState) :
  exists x y,
    pegs (physicsStep powQ sqrtQ dt s) = pegs s \/
    pegs (physicsStep powQ sqrtQ dt s)
    = map (updated (scanUpdates (scanPegs x y s))) (pegs s).
Proof.
  unfold physicsStep.
  destruct (integrate _ _ _) as [[[x y] vx] vy].
  destruct (wallCollisions _ _ _ _) as [[[x1 y1] vx1] vy1].
  exists x1, y1.
  destruct (bounceOff _ _ _ _ _ _) as [[[x2 y2] vx2] vy2].
  destruct (0 <? length _)%nat; [right|left];
    destruct (y2 >? 1.06%Q)%num; proj;
    try destruct (S (frameCount s) mod 3 =? 0)%nat; reflexivity.
Qed.

Lemma physicsStep_pegs (dt : Q) (s : GameState) :
  consistent s -> NoDup (map Peg.id (pegs s)) ->
  Forall2 pegStep (pegs s) (pegs (physicsStep powQ sqrtQ dt s)).
Proof.
  intros (_ & _ & Hp & _) Hnd.
  destruct (physicsStep_pegs_eq dt s) as (x & y & [-> | ->]);
    [apply Forall2_refl_on, pegStep_refl|].
  apply Forall2_map_lookup. intros i p Hi. unfold pegStep.
  destruct (Peg.hit p) eqn:Hh.
  - left. eapply hit_peg_not_updated; rewrite ?Hp; eassumption.
  - destruct (updated_cases (scanUpdates (scanPegs x y s)) p)
      as [->|(_ & n & ->)]; [by left|]. right. right. eauto.
Qed.

Lemma handle_pegs (e : Event) (s : GameState) :
  consistent s -> NoDup (map Peg.id (pegs s)) -> noReset e ->
  Forall2 pegStep (pegs s) (pegs (handle powQ sqrtQ e s).1).
Proof.
  intros Hs Hnd He. destruct e; cbn [handle]; try done.
  - assert (Forall2 pegStep (pegs s) (pegs (step powQ sqrtQ now s).1)).
    { unfold step.
      pose proof (with_lastUpdateRef_consistent now s Hs) as Hs'.
      destruct (negb _).
      - by apply (cleanupStep_pegs (with_lastUpdateRef now s)).
      - by apply (physicsStep_pegs _ (with_lastUpdateRef now s)). }
    destruct (step _ _ _ _) as [s' out]. cbn [fst] in *.
    by rewrite render_pegs.
  - cbn [fst]. rewrite render_pegs. unfold handleStart.
    destruct (_ || _); [apply Forall2_refl_on, pegStep_refl|].
    unfold positionBall, setIsPositioning. proj.
    destruct (eqb _ _); proj; destruct (PBall.dropping _); proj;
      apply Forall2_refl_on, pegStep_refl.
  - cbn [fst]. rewrite render_pegs. unfold handleMove, positionBall.
    destruct (negb _); [apply Forall2_refl_on, pegStep_refl|].
    destruct (_ || _); [apply Forall2_refl_on, pegStep_refl|].
    destruct (PBall.dropping _); proj; apply Forall2_refl_on, pegStep_refl.
  - cbn [fst]. rewrite render_pegs.
    unfold handleEnd, setIsPositioning, setBallsLeft, Math_random. proj.
    destruct (negb _);
      [destruct (eqb _ _); apply Forall2_refl_on, pegStep_refl|].
    destruct (_ || _);
      [destruct (eqb _ _); apply Forall2_refl_on, pegStep_refl|].
    destruct (eqb _ _); proj; destruct (_ =? _)%Z; proj;
      apply Forall2_refl_on, pegStep_refl.
Qed.

Lemma reset_pegs (e : Event) (s : GameState) :
  ~ noReset e ->
  exists g, pegs (handle powQ sqrtQ e s).1 = (generatePegs 30 g).1.
Proof.
  intros He. destruct e; cbn [noReset] in He; try tauto; cbn [handle fst];
    rewrite render_pegs.
  - exists (rng s). unfold resetBoard.
    destruct (generatePegs _ _) as [newPegs g1]. reflexivity.
  - unfold newGame. destruct (generateBingoCard _) as [c g1].
    eexists. unfold resetBoard. proj.
    destruct (generatePegs 30 _) as [newPegs g2] eqn:E. proj.
    unfold setBallsLeft in E. proj.
    destruct (_ =? _)%Z in E; proj; rewrite E; reflexivity.
Qed.

End PegSteps.

Lemma keeps_refl (p : Peg) : keeps p p.
Proof. unfold keeps. done. Qed.

Lemma keeps_trans (p1 p2 p3 : Peg) : keeps p1 p2 -> keeps p2 p3 -> keeps p1 p3.
Proof.
  intros [E1 H1] [E2 H2]. split; [congruence|]. intros Hh.
  destruct (H1 Hh) as [Hh2 Hn2]. destruct (H2 Hh2) as [Hh3 Hn3].
  split; congruence.
Qed.

Lemma Forall2_trans_on {A : Type} (R : A -> A -> Prop) (l1 l2 l3 : list A) :
  (forall x y z, R x y -> R y z -> R x z) ->
  Forall2 R l1 l2 -> Forall2 R l2 l3 -> Forall2 R l1 l3.
Proof.
  intros HR H12. revert l3. induction H12 as [|x y l1 l2 Hxy _ IH];
    intros l3 H23; inversion H23; subst; constructor; eauto.
Qed.

Lemma noReset_dec (e : Event) : {noReset e} + {~ noReset e}.
Proof. destruct e; cbn; auto. Qed.

Lemma fresh_numbered (p : Peg) : fresh p -> numbered p.
Proof. intros (_ & _ & Hn) [n Hs]. congruence. Qed.

Lemma generatePegs_pegsOk (g : RNG) :
  NoDup (map Peg.id (generatePegs 30 g).1) /\
  Forall numbered (generatePegs 30 g).1.
Proof.
  destruct (generatePegs_shape 30 g) as (_ & Hnd & Hall). split; [exact Hnd|].
  eapply Forall_impl; [exact Hall|]. intros p [Hp _]. by apply fresh_numbered.
Qed.

Lemma handle_pegsOk powQ sqrtQ (e : Event) (s : GameState) :
  consistent s -> pegsOk s -> pegsOk (handle powQ sqrtQ e s).1.
Proof.
  intros Hs [Hnd Hnum]. destruct (noReset_dec e) as [He|He].
  - pose proof (handle_pegs powQ sqrtQ e s Hs Hnd He) as H. split.
    + by rewrite (pegStep_ids _ _ H).
    + clear Hnd. induction H as [|p p' ps ps' Hp _ IH]; [constructor|].
      inversion Hnum; subst. constructor; [by eapply pegStep_numbered | auto].
  - unfold pegsOk. destruct (reset_pegs powQ sqrtQ e s He) as [g ->].
    apply generatePegs_pegsOk.
Qed.

Lemma initialState_pegsOk (t0 : Q) (g : RNG) : pegsOk (initialState t0 g).
Proof.
  unfold initialState. destruct (generateBingoCard g) as [c g1].
  pose proof (generatePegs_pegsOk g1). destruct (generatePegs 30 g1).
  unfold pegsOk. proj. done.
Qed.

Lemma run_invariant powQ sqrtQ (es : list Event) (s : GameState) :
  consistent s -> pegsOk s ->
  consistent (run powQ sqrtQ es s).1 /\ pegsOk (run powQ sqrtQ es s).1.
Proof.
  revert s. induction es as [|e es IH]; intros s Hs Hok; cbn [run]; [done|].
  pose proof (handle_consistent powQ sqrtQ e s Hs) as H1.
  pose proof (handle_pegsOk powQ sqrtQ e s Hs Hok) as H2.
  destruct (handle _ _ e s) as [s1 out1]. specialize (IH s1 H1 H2).
  destruct (run _ _ es s1) as [s2 out2]. exact IH.
Qed.

Lemma run_keeps powQ sqrtQ (es : list Event) (s : GameState) :
  Forall noReset es -> consistent s -> pegsOk s ->
  Forall2 keeps (pegs s) (pegs (run powQ sqrtQ es s).1).
Proof.
  revert s. induction es as [|e es IH]; intros s Hes Hs Hok; cbn [run].
  - apply Forall2_refl_on, keeps_refl.
  - inversion Hes as [|? ? He Hes']; subst.
    pose proof (handle_consistent powQ sqrtQ e s Hs) as H1.
    pose proof (handle_pegsOk powQ sqrtQ e s Hs Hok) as H2.
    pose proof (handle_pegs powQ sqrtQ e s Hs (proj1 Hok) He) as H3.
    destruct (handle _ _ e s) as [s1 out1]. specialize (IH s1 Hes' H1 H2).
    destruct (run _ _ es s1) as [s2 out2]. cbn [fst] in *.
    eapply Forall2_trans_on; [apply keeps_trans | | exact IH].
    eapply Forall2_impl; [exact H3 | apply pegStep_keeps].
Qed.

(** every state the game reaches from its first render is a state between
    inputs with well-formed pegs *)
Lemma reachable_invariant powQ sqrtQ (t0 : Q) (g : RNG) (es : list Event) :
  consistent (run powQ sqrtQ es (initialState t0 g)).1 /\
  pegsOk (run powQ sqrtQ es (initialState t0 g)).1.
Proof.
  apply run_invariant; [apply initialState_consistent | apply initialState_pegsOk].
Qed.

(** C1: in a state between inputs whose pegs have distinct ids and carry
    numbers on hit pegs only (every state the game reaches is one), take
    a peg that has a number.  After any further frames and pointer input
    (drops included, no board reset and no new game) the peg at that
    place is the same peg, is hit, and carries the same number. *)
Theorem peg_number_assigned_once powQ sqrtQ (s : GameState)
    (es : list Event) (i : nat) (p : Peg) (n : Z) :
  consistent s -> pegsOk s -> Forall noReset es ->
  pegs s !! i = Some p -> Peg.num p = Some n ->
  exists p', pegs (run powQ sqrtQ es s).1 !! i = Some p' /\
             Peg.id p' = Peg.id p /\ Peg.hit p' = true /\
             Peg.num p' = Some n.
Proof.
  intros Hs Hok Hes Hi Hn.
  pose proof (run_keeps powQ sqrtQ es s Hes Hs Hok) as Hk.
  destruct (Forall2_lookup_l _ _ _ _ _ Hk Hi) as (p' & Hi' & Hid & Hkeep).
  assert (Peg.hit p = true) as Hh.
  { destruct Hok as [_ Hnum]. rewrite Forall_forall in Hnum.
    apply (Hnum p); [by eapply list_elem_of_lookup_2 | by rewrite Hn]. }
  destruct (Hkeep Hh) as [Hh' Hn']. exists p'. repeat split; congruence.
Qed.

Lemma peg_number_assigned_once_witness :
  exists p',
    pegs (run powApprox sqrtApprox [PointerDown 0.43; PointerUp; Frame 20]
            numberedSample).1 !! 2%nat = Some p' /\
    Peg.id p' = "peg-2" /\ Peg.hit p' = true /\ Peg.num p' = Some 15%Z.
Proof.
  assert (exists p0, pegs numberedSample !! 2%nat = Some p0 /\
                     Peg.id p0 = "peg-2" /\ Peg.num p0 = Some 15%Z)
    as (p0 & Hp0 & Hid0 & Hn0).
  { eexists. split; [vm_compute; reflexivity | split; reflexivity]. }
  destruct (peg_number_assigned_once powApprox sqrtApprox numberedSample
              [PointerDown 0.43; PointerUp; Frame 20] 2 p0 15)
    as (p' & A & B & C & D).
  - unfold consistent. vm_compute. repeat split.
  - split; (eapply bool_decide_unpack; vm_compute; exact I).
  - repeat constructor.
  - exact Hp0.
  - exact Hn0.
  - exists p'. rewrite <- Hid0. exact (conj A (conj B (conj C D))).
Defined.

Lemma cleanup_frame_witness :
  let r := handle powApprox sqrtApprox (Frame 20) drainedSample in
  r.2 = [15%Z] /\
  map Peg.id (filter (fun p => Peg.removed p = true) (pegs r.1)) = ["peg-2"].
Proof.
  destruct (cleanup_frame powApprox sqrtApprox 20 drainedSample)
    as (Hpegs & _ & _ & _ & Hout & _).
  - unfold consistent. vm_compute. repeat split.
  - reflexivity.
  - reflexivity.
  - intros H. apply (f_equal size) in H. vm_compute in H. discriminate.
  - cbv zeta. rewrite Hout, Hpegs. vm_compute. split; reflexivity.
Defined.

Lemma cleanup_idempotent_witness :
  let r1 := handle powApprox sqrtApprox (Frame 20) drainedSample in
  let r2 := handle powApprox sqrtApprox (Frame 40) r1.1 in
  pegs r2.1 = pegs r1.1 /\ r2.2 = [].
Proof.
  destruct (cleanup_idempotent powApprox sqrtApprox 20 40 drainedSample)
    as (Hpegs & _ & Hout & _).
  - unfold consistent. vm_compute. repeat split.
  - reflexivity.
  - reflexivity.
  - intros H. apply (f_equal size) in H. vm_compute in H. discriminate.
  - split; assumption.
Defined.

(** ** The physics step *)

Lemma isFin_ex (a : number) : Num.isFin a -> exists q, a = Fin q.
Proof. destruct a; cbn; try tauto. eauto. Qed.

Lemma within_ex (lo hi : Q) (a : number) :
  Num.within lo hi a -> exists q, a = Fin q /\ (lo <= q <= hi)%Q.
Proof. destruct a; cbn; try tauto. eauto. Qed.

Lemma sumsq_fin (a b : number) (d : Q) :
  (a * a + b * b)%num = Fin d ->
  exists p q, a = Fin p /\ b = Fin q /\ d = (p * p + q * q)%Q.
Proof.
  destruct a as [|p| |], b as [|q| |]; cbn;
    try discriminate; try (unfold Num.scaleInf; destruct (Qsign _); discriminate).
  intros [= <-]. eauto.
Qed.

Lemma clamp_fin_ex (q a b : Q) :
  (a <= b)%Q -> exists r, clamp (Fin q) a b = Fin r /\ (a <= r <= b)%Q.
Proof. intros H. apply within_ex, clamp_fin, H. Qed.

Ltac finarith :=
  repeat (rewrite add_fin || rewrite sub_fin || rewrite mul_fin).

Lemma inPlay_valid (b : PBall) : inPlay b -> validBall b.
Proof.
  intros (Hx & Hy & Hvx & Hvy). repeat split; try assumption.
  - eapply within_weaken; [| |exact Hx]; lra.
  - eapply within_weaken; [| |exact Hy]; lra.
Qed.

Section Dynamics.

Variable powQ : Q -> Q -> Q.
Variable sqrtQ : Q -> Q.

Lemma integrate_fin (dt : Q) (b : PBall) :
  Num.isFin (PBall.x b) -> Num.isFin (PBall.y b) ->
  Num.isFin (PBall.vx b) -> Num.isFin (PBall.vy b) ->
  exists x y vx vy,
    integrate powQ dt b = (Fin x, Fin y, Fin vx, Fin vy).
Proof.
  intros (x & Hx)%isFin_ex (y & Hy)%isFin_ex (vx & Hvx)%isFin_ex
    (vy & Hvy)%isFin_ex.
  unfold integrate. rewrite Hx, Hy, Hvx, Hvy.
  finarith. eauto 8.
Qed.

Lemma wallCollisions_fin (x y vx vy : Q) :
  exists x' y' vx' vy',
    wallCollisions (Fin x) (Fin y) (Fin vx) (Fin vy)
    = (Fin x', Fin y', Fin vx', Fin vy') /\
    (0.03 <= x' <= 0.97)%Q /\ (0.03 <= y')%Q /\
    ((0.03 <= y)%Q -> y' = y).
Proof.
  unfold wallCollisions, rBall, Num.gtb. cbn [Num.ltb Num.sub Num.mul].
  destruct (Qltb x 0.03) eqn:E1; cbn [Num.ltb].
  - assert (Qltb (1 - 0.03) 0.03 = false) as -> by reflexivity.
    destruct (Qltb y 0.03) eqn:E3; eexists _, _, _, _;
      (split; [reflexivity|]); apply Qltb_lt in E3 || apply Qltb_ge in E3;
      repeat split; try lra; try reflexivity.
  - apply Qltb_ge in E1.
    destruct (Qltb (1 - 0.03) x) eqn:E2;
      apply Qltb_lt in E2 || apply Qltb_ge in E2;
      destruct (Qltb y 0.03) eqn:E3; eexists _, _, _, _;
      (split; [reflexivity|]); apply Qltb_lt in E3 || apply Qltb_ge in E3;
      repeat split; try lra; try reflexivity.
Qed.

Lemma or_sqrt_cases (d : Q) :
  exists r, Num.or (Math_sqrt sqrtQ (Fin d)) 1%Q = Fin r /\ ~ (r == 0)%Q /\
            (r = 1%Q \/ ((0 <= d)%Q /\ r = sqrtQ d)).
Proof.
  unfold Math_sqrt. destruct (Qltb d 0) eqn:Ed.
  - exists 1%Q. cbn. split; [reflexivity|]. split; [discriminate | by left].
  - apply Qltb_ge in Ed. cbn [Num.or]. unfold Qsign.
    destruct (sqrtQ d ?= 0)%Q eqn:Er.
    + exists 1%Q. split; [reflexivity|]. split; [discriminate | by left].
    + exists (sqrtQ d). split; [reflexivity|]. split; [|by right].
      intros H%Qeq_alt. congruence.
    + exists (sqrtQ d). split; [reflexivity|]. split; [|by right].
      intros H%Qeq_alt. congruence.
Qed.

Lemma bounceOff_fin (closest : option Peg) (x y vx vy : Q) :
  exists x' y' vx' vy',
    bounceOff sqrtQ closest (Fin x) (Fin y) (Fin vx) (Fin vy)
    = (Fin x', Fin y', Fin vx', Fin vy') /\
    ((x' = x /\ y' = y) \/
     ((0.03 <= x' <= 0.97)%Q /\ (0.03 <= y' <= 1.1)%Q)).
Proof.
  destruct closest as [c|]; [|exists x, y, vx, vy; split; [reflexivity | by left]].
  unfold bounceOff.
  destruct ((Fin x - Peg.x c) * (Fin x - Peg.x c) +
            (Fin y - Peg.y c) * (Fin y - Peg.y c))%num as [|d| |] eqn:Esum.
  - cbn. exists x, y, vx, vy. split; [reflexivity | by left].
  - apply sumsq_fin in Esum as (dx & dy & -> & -> & ->).
    destruct (or_sqrt_cases (dx * dx + dy * dy)) as (r & -> & Hr & _).
    destruct (r <? rBall + rPeg)%num;
      [|exists x, y, vx, vy; split; [reflexivity | by left]].
    rewrite !(div_fin _ r Hr). unfold rBall, rPeg. finarith.
    match goal with
    | |- context [(clamp (Fin ?a) _ _, clamp (Fin ?b) _ _, _, _)] =>
        destruct (clamp_fin_ex a 0.03 0.97 ltac:(lra)) as (x' & -> & Hx);
        destruct (clamp_fin_ex b 0.03 1.1 ltac:(lra)) as (y' & -> & Hy)
    end.
    eexists x', y', _, _. split; [reflexivity | by right].
  - cbn. exists x, y, vx, vy. split; [reflexivity | by left].
  - cbn. exists x, y, vx, vy. split; [reflexivity | by left].
Qed.

End Dynamics.

Lemma validBall_fin (b : PBall) :
  validBall b ->
  Num.isFin (PBall.x b) /\ Num.isFin (PBall.y b) /\
  Num.isFin (PBall.vx b) /\ Num.isFin (PBall.vy b).
Proof.
  intros ([Hx Hy] & Hvx & Hvy). repeat split; try assumption;
    eapply within_isFin; eassumption.
Qed.

Lemma spawnBall_valid : validBall spawnBall.
Proof. unfold validBall, inBounds, spawnBall. cbn. repeat split; lra. Qed.

Lemma render_ballsValid (s : GameState) : ballsValid s -> ballsValid (render s).
Proof.
  intros [Hb Hr]. unfold render, ballsValid.
  destruct (dirty s); [|done]. proj. destruct (ballSet s); done.
Qed.

Section Bounds.

Variable powQ : Q -> Q -> Q.
Variable sqrtQ : Q -> Q.

Lemma physicsStep_ball (dt : Q) (s : GameState) :
  validBall (ballRef s) ->
  inPlay (ballRef (physicsStep powQ sqrtQ dt s)) /\
  (ball (physicsStep powQ sqrtQ dt s) = ball s \/
   ball (physicsStep powQ sqrtQ dt s) = ballRef (physicsStep powQ sqrtQ dt s)).
Proof.
  intros (Hx & Hy & Hvx & Hvy)%validBall_fin. unfold physicsStep.
  destruct (integrate_fin powQ dt (ballRef s) Hx Hy Hvx Hvy)
    as (x & y & vx & vy & ->).
  destruct (wallCollisions_fin x y vx vy)
    as (x1 & y1 & vx1 & vy1 & -> & Hx1 & Hy1 & _).
  set (scan := scanPegs (Fin x1) (Fin y1) s).
  destruct (bounceOff_fin sqrtQ (scanClosest scan) x1 y1 vx1 vy1)
    as (x2 & y2 & vx2 & vy2 & -> & Hxy2).
  assert ((0.03 <= x2 <= 0.97)%Q /\ (0.03 <= y2)%Q) as [Hx2 Hy2].
  { destruct Hxy2 as [[-> ->]|[? ?]]; split; lra. }
  unfold Num.gtb. cbn [Num.ltb].
  destruct (Qltb 1.06 y2) eqn:Ey;
    apply Qltb_lt in Ey || apply Qltb_ge in Ey;
    destruct (0 <? length (scanUpdates scan))%nat; proj;
    try destruct (S (frameCount s) mod 3 =? 0)%nat; proj;
    (split; [unfold inPlay; cbn; repeat split; lra | auto]).
Qed.

Lemma step_ballsValid (now : Q) (s : GameState) :
  ballsValid s -> ballsValid (step powQ sqrtQ now s).1.
Proof.
  intros [Hb Hr]. unfold step.
  destruct (negb _).
  - destruct (cleanupStep_ball (with_lastUpdateRef now s)) as (E1 & E2 & _).
    unfold ballsValid. rewrite E1, E2. proj. done.
  - cbn [fst].
    destruct (physicsStep_ball (frameDt now s)
                (with_lastUpdateRef now s)) as [Hplay Hball]; [proj; done|].
    apply inPlay_valid in Hplay. split; [|exact Hplay].
    destruct Hball as [-> | ->]; [proj; done | exact Hplay].
Qed.

End Bounds.

Lemma positionBall_ballsValid (x01 : Q) (s : GameState) :
  ballsValid s -> ballsValid (positionBall (clamp x01 0.06%Q 0.94%Q) s).
Proof.
  intros [Hb Hr]. unfold positionBall. destruct (PBall.dropping (ball s)); [done|].
  unfold ballsValid. proj. split; [|exact Hr].
  destruct Hb as ([_ Hy] & Hvx & Hvy). repeat split; cbn; try assumption.
  eapply within_weaken; [| |apply (clamp_fin x01 0.06 0.94)]; lra.
Qed.

Lemma ballsValid_ext (s s' : GameState) :
  ball s' = ball s -> ballRef s' = ballRef s -> ballsValid s -> ballsValid s'.
Proof. unfold ballsValid. intros -> ->. done. Qed.

Lemma handleStart_ballsValid (x01 : Q) (s : GameState) :
  ballsValid s -> ballsValid (handleStart x01 s).
Proof.
  intros Hs. unfold handleStart. destruct (_ || _); [done|].
  apply positionBall_ballsValid. revert Hs. apply ballsValid_ext;
    unfold setIsPositioning; proj; destruct (eqb _ _); reflexivity.
Qed.

Lemma handleMove_ballsValid (x01 : Q) (s : GameState) :
  ballsValid s -> ballsValid (handleMove x01 s).
Proof.
  intros Hs. unfold handleMove. destruct (negb _); [done|].
  destruct (_ || _); [done|]. by apply positionBall_ballsValid.
Qed.

Lemma handleEnd_ballsValid (s : GameState) :
  ballsValid s -> ballsValid (handleEnd s).
Proof.
  intros Hs. unfold handleEnd, setIsPositioning, setBallsLeft, Math_random.
  proj. destruct (negb _); [destruct (eqb _ _); exact Hs|].
  destruct (_ || _); [destruct (eqb _ _); exact Hs|].
  destruct Hs as [Hb Hr]. destruct Hb as ([Hx _] & _ & _).
  destruct (eqb _ _); proj; destruct (_ =? _)%Z; proj;
    (split; [|exact Hr]); finarith;
    (split; [split; [exact Hx | cbn; lra] | cbn; done]).
Qed.

Lemma resetBoard_ballsValid (s : GameState) : ballsValid (resetBoard s).
Proof.
  unfold resetBoard. destruct (generatePegs _ _) as [newPegs g1].
  unfold ballsValid. proj. split; apply spawnBall_valid.
Qed.

Lemma handle_ballsValid powQ sqrtQ (e : Event) (s : GameState) :
  ballsValid s -> ballsValid (handle powQ sqrtQ e s).1.
Proof.
  intros Hs. destruct e; cbn [handle].
  - pose proof (step_ballsValid powQ sqrtQ now s Hs) as H.
    destruct (step _ _ _ _) as [s' out]. by apply render_ballsValid.
  - by apply render_ballsValid, handleStart_ballsValid.
  - by apply render_ballsValid, handleMove_ballsValid.
  - by apply render_ballsValid, handleEnd_ballsValid.
  - apply render_ballsValid, resetBoard_ballsValid.
  - apply render_ballsValid. unfold newGame.
    destruct (generateBingoCard _) as [c g1]. apply resetBoard_ballsValid.
Qed.

Lemma run_ballsValid powQ sqrtQ (es : list Event) (s : GameState) :
  ballsValid s -> ballsValid (run powQ sqrtQ es s).1.
Proof.
  revert s. induction es as [|e es IH]; intros s Hs; cbn [run]; [done|].
  pose proof (handle_ballsValid powQ sqrtQ e s Hs) as H1.
  destruct (handle _ _ e s) as [s1 out1]. specialize (IH s1 H1).
  destruct (run _ _ es s1) as [s2 out2]. exact IH.
Qed.

(** C3: from a ball inside the board with finite velocity, after any
    sequence of frames at any frame times (10,000 frames 16 ms apart are
    one such sequence), with or without pointer input and resets in
    between, the ball is inside x in [0, 1] and y in [0, 1.1]; and a
    frame that moves a dropping ball leaves it inside [0.03, 0.97] x
    [0.03, 1.06]. *)
Theorem ball_stays_in_bounds powQ sqrtQ (s : GameState) (es : list Event) :
  validBall (ball s) -> validBall (ballRef s) ->
  inBounds (ballRef (run powQ sqrtQ es s).1) /\
  inBounds (ball (run powQ sqrtQ es s).1) /\
  (forall dt : Q, inPlay (ballRef (physicsStep powQ sqrtQ dt s))).
Proof.
  intros Hb Hr.
  destruct (run_ballsValid powQ sqrtQ es s (conj Hb Hr)) as [[H1 _] [H2 _]].
  split; [exact H2|]. split; [exact H1|].
  intros dt. by apply physicsStep_ball.
Qed.

Lemma ball_stays_in_bounds_witness :
  inBounds (ballRef (run powApprox sqrtApprox
                       [PointerDown 0.43; PointerUp; Frame 20; Frame 40]
                       (initialState 0 cycleDraws)).1).
Proof.
  assert (validBall (ball (initialState 0 cycleDraws))) as Hb.
  { vm_compute. repeat split; (discriminate || exact I). }
  assert (validBall (ballRef (initialState 0 cycleDraws))) as Hr.
  { vm_compute. repeat split; (discriminate || exact I). }
  exact (proj1 (ball_stays_in_bounds powApprox sqrtApprox
                  (initialState 0 cycleDraws)
                  [PointerDown 0.43; PointerUp; Frame 20; Frame 40] Hb Hr)).
Defined.

(** ** Drain *)

Lemma sqrtApprox_nonneg : sqrtNonneg sqrtApprox.
Proof.
  intros d Hd. unfold sqrtApprox.
  assert ((d + 1) / 2 == (d + 1) * (1 # 2))%Q as -> by (field; discriminate).
  lra.
Qed.

Lemma clamp_above (q a b m : Q) :
  (a <= b)%Q -> (m < q)%Q -> (m < b)%Q ->
  exists r, clamp (Fin q) a b = Fin r /\ (m < r)%Q.
Proof.
  intros Hab Hq Hb. unfold clamp, Math_max, Math_min. cbn [Num.ltb].
  destruct (Qltb q b) eqn:E1; [apply Qltb_lt in E1|apply Qltb_ge in E1];
    cbn [Num.ltb].
  - destruct (Qltb a q) eqn:E2; [apply Qltb_lt in E2|apply Qltb_ge in E2];
      eexists; (split; [reflexivity|]); lra.
  - destruct (Qltb a b) eqn:E2; [apply Qltb_lt in E2|apply Qltb_ge in E2];
      eexists; (split; [reflexivity|]); lra.
Qed.

Lemma scanPeg_closest (x y : number) (pool : list Z) (marked : gset Z)
    (st : ScanState) (p : Peg) :
  scanClosest (scanPeg x y pool marked st p) = scanClosest st \/
  scanClosest (scanPeg x y pool marked st p) = Some p.
Proof.
  unfold scanPeg. destruct (Peg.removed p); [by left|].
  set (dist2 := (_ + _)%num).
  destruct (dist2 <=? rr)%num.
  - destruct (negb (Peg.hit p)).
    + destruct (pickHitNumber _ _ _) as [num g1]. cbn [scanBest scanClosest].
      destruct (dist2 <? scanBest st)%num; cbn; auto.
    + cbn [scanBest scanClosest]. destruct (dist2 <? scanBest st)%num; cbn; auto.
  - destruct (dist2 <? scanBest st)%num; cbn; auto.
Qed.

Lemma scan_closest (x y : number) (pool : list Z) (marked : gset Z)
    (ps : list Peg) (st : ScanState) (c : Peg) :
  scanClosest (foldl (scanPeg x y pool marked) st ps) = Some c ->
  scanClosest st = Some c \/ c ∈ ps.
Proof.
  revert st. induction ps as [|p ps IH]; intros st; cbn [foldl]; [by left|].
  intros [H|H]%IH; [|right; by right].
  destruct (scanPeg_closest x y pool marked st p) as [E|E]; rewrite E in H.
  - by left.
  - injection H as <-. right. by left.
Qed.

Section Drain.

Variable powQ : Q -> Q -> Q.
Variable sqrtQ : Q -> Q.
Hypothesis sqrtQ_nonneg : sqrtNonneg sqrtQ.

Lemma bounceOff_below (c : Peg) (x y vx vy : number) :
  onBoard c -> (y >? 1.06%Q)%num = true ->
  exists x' y' vx' vy',
    bounceOff sqrtQ (Some c) x y vx vy = (x', y', vx', vy') /\
    (y' >? 1.06%Q)%num = true.
Proof.
  intros Hc Hy. unfold bounceOff.
  destruct ((x - Peg.x c) * (x - Peg.x c) +
            (y - Peg.y c) * (y - Peg.y c))%num as [|d| |] eqn:Esum;
    try (cbn; do 4 eexists; split; [reflexivity | exact Hy]).
  apply sumsq_fin in Esum as (a & e & Ha & He & ->).
  unfold onBoard in Hc. unfold Num.gtb in Hy.
  destruct y as [|yq| |], (Peg.y c) as [|cq| |]; try discriminate.
  cbn in He, Hy, Hc. injection He as <-.
  apply Qltb_lt in Hy. apply Qltb_ge in Hc.
  destruct (or_sqrt_cases sqrtQ (a * a + (yq - cq) * (yq - cq)))
    as (r & -> & Hr & Hcases).
  unfold rBall, rPeg. cbn [Num.add Num.ltb].
  destruct (Qltb r (0.03 + 0.018)) eqn:Er.
  2: { do 4 eexists. split; [reflexivity|]. unfold Num.gtb. cbn.
       by apply Qltb_lt. }
  apply Qltb_lt in Er.
  assert (0 < r)%Q as Hpos.
  { destruct Hcases as [->|[Hd ->]]; [lra|].
    pose proof (sqrtQ_nonneg _ Hd) as H0.
    destruct (Qle_lt_or_eq _ _ H0) as [H|H]; [exact H|].
    exfalso. apply Hr. by symmetry. }
  rewrite Ha. finarith. rewrite !(div_fin _ r Hr). finarith.
  assert (0 < (yq - cq) / r)%Q as Hny.
  { unfold Qdiv. apply Qmult_lt_0_compat; [lra|]. by apply Qinv_lt_0_compat. }
  assert (0 < (yq - cq) / r * (0.03 + 0.018 - r))%Q as Hpush
    by (apply Qmult_lt_0_compat; [exact Hny | lra]).
  destruct (clamp_above (yq + (yq - cq) / r * (0.03 + 0.018 - r) * 0.8)
              0.03 1.1 1.06 ltac:(lra) ltac:(lra) ltac:(lra)) as (y' & -> & Hy').
  do 4 eexists. split; [reflexivity|]. unfold Num.gtb. cbn.
  by apply Qltb_lt.
Qed.

Lemma wallCollisions_below (x y vx vy : number) :
  (y >? 1.06%Q)%num = true ->
  exists x' vx', wallCollisions x y vx vy = (x', y, vx', vy).
Proof.
  intros Hy. unfold wallCollisions.
  assert ((y <? rBall)%num = false) as ->.
  { unfold Num.gtb in Hy. destruct y as [|yq| |]; try discriminate; [|reflexivity].
    cbn in *. apply Qltb_lt in Hy. apply Qltb_ge. lra. }
  destruct (x <? rBall)%num; cbv beta iota zeta;
    match goal with |- context [if ?c then _ else _] => destruct c end;
    eauto.
Qed.

Lemma physicsStep_drain (dt : Q) (s : GameState) :
  Forall onBoard (pegsRef s) ->
  ((integrate powQ dt (ballRef s)).1.1.2 >? 1.06%Q)%num = true ->
  exists x,
    ballRef (physicsStep powQ sqrtQ dt s) = PBall.mk x 1.06%Q 0%Q 0%Q false /\
    ball (physicsStep powQ sqrtQ dt s) = PBall.mk x 1.06%Q 0%Q 0%Q false /\
    ballSet (physicsStep powQ sqrtQ dt s) = true /\
    dirty (physicsStep powQ sqrtQ dt s) = true.
Proof.
  intros Hpegs Hy. unfold physicsStep.
  destruct (integrate powQ dt (ballRef s)) as [[[x y] vx] vy]. cbn [fst snd] in Hy.
  destruct (wallCollisions_below x y vx vy Hy) as (x1 & vx1 & ->).
  set (scan := scanPegs x1 y s).
  assert (exists x2 y2 vx2 vy2,
            bounceOff sqrtQ (scanClosest scan) x1 y vx1 vy = (x2, y2, vx2, vy2) /\
            (y2 >? 1.06%Q)%num = true)
    as (x2 & y2 & vx2 & vy2 & -> & Hy2).
  { destruct (scanClosest scan) as [c|] eqn:Ec;
      [|by exists x1, y, vx1, vy].
    apply bounceOff_below; [|exact Hy].
    apply scan_closest in Ec as [Ec|Ec]; [discriminate|].
    rewrite Forall_forall in Hpegs. by apply Hpegs. }
  rewrite Hy2. exists x2.
  destruct (0 <? length (scanUpdates scan))%nat; proj; done.
Qed.

End Drain.

Lemma render_ballRef_dropping (s : GameState) :
  PBall.dropping (ballRef s) = false -> PBall.dropping (ball s) = false ->
  PBall.dropping (ballRef (render s)) = false.
Proof.
  intros Hr Hb. unfold render. destruct (dirty s); [|exact Hr]. proj.
  destruct (ballSet s); assumption.
Qed.

Lemma resetBoard_dropping (s : GameState) :
  PBall.dropping (ballRef (resetBoard s)) = false /\
  PBall.dropping (ball (resetBoard s)) = false.
Proof.
  unfold resetBoard. destruct (generatePegs _ _) as [newPegs g1]. proj. done.
Qed.

Lemma positionBall_dropping (nx : number) (s : GameState) :
  PBall.dropping (ballRef s) = false -> PBall.dropping (ball s) = false ->
  PBall.dropping (ballRef (positionBall nx s)) = false /\
  PBall.dropping (ball (positionBall nx s)) = false.
Proof.
  intros Hr Hb. unfold positionBall. rewrite Hb. proj. done.
Qed.

Lemma idle_stays powQ sqrtQ (e : Event) (s : GameState) :
  consistent s -> PBall.dropping (ballRef s) = false -> e <> PointerUp ->
  PBall.dropping (ballRef (handle powQ sqrtQ e s).1) = false.
Proof.
  intros (Hd & Hb & Hp & Hpool & Hm & Hdrop & Heq) Hidle He.
  assert (PBall.dropping (ball s) = false) as Hball by congruence.
  destruct e as [now|x01|x01| | |]; cbn [handle fst].
  - unfold step. proj. rewrite Hidle. cbn [negb].
    destruct (cleanupStep_ball (with_lastUpdateRef now s)) as (E1 & E2 & E3).
    destruct (cleanupStep _) as [s' out]. cbn [fst] in *. proj.
    apply render_ballRef_dropping; congruence.
  - unfold handleStart. rewrite Hidle. cbn [orb].
    destruct (_ <=? _)%Z; [by apply render_ballRef_dropping|].
    apply render_ballRef_dropping;
      apply positionBall_dropping; unfold setIsPositioning; proj;
      destruct (eqb _ _); assumption.
  - unfold handleMove. destruct (negb _);
      [by apply render_ballRef_dropping|].
    destruct (_ || _); [by apply render_ballRef_dropping|].
    apply render_ballRef_dropping; by apply positionBall_dropping.
  - done.
  - apply render_ballRef_dropping; apply resetBoard_dropping.
  - unfold newGame. destruct (generateBingoCard _) as [c g1].
    apply render_ballRef_dropping; apply resetBoard_dropping.
Qed.

Lemma run_idle_stays powQ sqrtQ (es : list Event) (s : GameState) :
  consistent s -> PBall.dropping (ballRef s) = false ->
  Forall (fun e => e <> PointerUp) es ->
  PBall.dropping (ballRef (run powQ sqrtQ es s).1) = false /\
  PBall.dropping (ball (run powQ sqrtQ es s).1) = false.
Proof.
  revert s. induction es as [|e es IH]; intros s Hs Hidle Hes; cbn [run].
  - cbn [fst]. split; [exact Hidle|].
    destruct Hs as (_ & _ & _ & _ & _ & Hdrop & _). congruence.
  - inversion Hes as [|? ? He Hes']; subst.
    pose proof (handle_consistent powQ sqrtQ e s Hs) as H1.
    pose proof (idle_stays powQ sqrtQ e s Hs Hidle He) as H2.
    destruct (handle _ _ e s) as [s1 out1]. specialize (IH s1 H1 H2 Hes').
    destruct (run _ _ es s1) as [s2 out2]. exact IH.
Qed.

Lemma inField_onBoard (p : Peg) : inField p -> onBoard p.
Proof.
  intros [_ Hy]. unfold onBoard. destruct (Peg.y p) as [|q| |]; cbn in *;
    try tauto. apply Qltb_ge. lra.
Qed.

Lemma pegStep_onBoard (p p' : Peg) : pegStep p p' -> onBoard p -> onBoard p'.
Proof. intros [->|[->|(_ & n & ->)]]; unfold onBoard; cbn; done. Qed.

(** in every state the game reaches, the pegs are on the board *)
Lemma reachable_onBoard powQ sqrtQ (t0 : Q) (g : RNG) (es : list Event) :
  Forall onBoard (pegs (run powQ sqrtQ es (initialState t0 g)).1).
Proof.
  assert (forall es' s, consistent s -> pegsOk s -> Forall onBoard (pegs s) ->
            Forall onBoard (pegs (run powQ sqrtQ es' s).1)) as Hrun.
  { clear es. intros es.
    induction es as [|e es IH]; intros s Hs Hok Hon; cbn [run]; [done|].
    pose proof (handle_consistent powQ sqrtQ e s Hs) as H1.
    pose proof (handle_pegsOk powQ sqrtQ e s Hs Hok) as H2.
    assert (Forall onBoard (pegs (handle powQ sqrtQ e s).1)) as H3.
    { destruct (noReset_dec e) as [He|He].
      - pose proof (handle_pegs powQ sqrtQ e s Hs (proj1 Hok) He) as H.
        clear H1 H2 Hok. induction H as [|p p' ps ps' Hp _ IHp]; [constructor|].
        inversion Hon; subst. constructor; [by eapply pegStep_onBoard | auto].
      - destruct (reset_pegs powQ sqrtQ e s He) as [g' ->].
        eapply Forall_impl; [apply (generatePegs_inField 30); lia|].
        apply inField_onBoard. }
    destruct (handle _ _ e s) as [s1 out1]. specialize (IH s1 H1 H2 H3).
    destruct (run _ _ es s1) as [s2 out2]. exact IH. }
  apply Hrun; [apply initialState_consistent | apply initialState_pegsOk |].
  unfold initialState. destruct (generateBingoCard g) as [c g1].
  pose proof (generatePegs_inField 30 g1 ltac:(lia)) as Hin.
  destruct (generatePegs 30 g1) as [ps g2]. proj.
  eapply Forall_impl; [exact Hin | apply inField_onBoard].
Qed.

(** C4: the ball is dropping, no peg lies below the unit square,
    [Math.sqrt] returns no negative number, and the frame's integration
    carries y beyond 1.06.  The frame then leaves the ball at y = 1.06 with
    both velocity components 0 and [dropping] false, whether or not the
    nearest peg pushes the ball on its way; and after any further inputs
    that include no pointer release, [dropping] is still false. *)
Theorem drain_terminal powQ sqrtQ (now : Q) (s : GameState) :
  sqrtNonneg sqrtQ ->
  consistent s ->
  PBall.dropping (ballRef s) = true ->
  Forall onBoard (pegs s) ->
  (integratedY powQ now s >? 1.06%Q)%num = true ->
  let s1 := (handle powQ sqrtQ (Frame now) s).1 in
  PBall.y (ballRef s1) = 1.06%Q /\ PBall.vx (ballRef s1) = 0%Q /\
  PBall.vy (ballRef s1) = 0%Q /\ PBall.dropping (ballRef s1) = false /\
  ball s1 = ballRef s1 /\
  (forall es, Forall (fun e => e <> PointerUp) es ->
     PBall.dropping (ballRef (run powQ sqrtQ es s1).1) = false /\
     PBall.dropping (ball (run powQ sqrtQ es s1).1) = false).
Proof.
  intros Hsqrt Hs Hdrop Hpegs Hy. cbv zeta.
  pose proof (handle_consistent powQ sqrtQ (Frame now) s Hs) as Hs1.
  assert (exists x, ballRef (handle powQ sqrtQ (Frame now) s).1
                    = PBall.mk x 1.06%Q 0%Q 0%Q false /\
                    ball (handle powQ sqrtQ (Frame now) s).1
                    = PBall.mk x 1.06%Q 0%Q 0%Q false) as (x & Href & Hball).
  { cbn [handle]. unfold step. proj. rewrite Hdrop. cbn [negb fst].
    destruct (physicsStep_drain powQ sqrtQ Hsqrt (frameDt now s)
                (with_lastUpdateRef now s)) as (x & E1 & E2 & E3 & E4).
    - proj. destruct Hs as (_ & _ & -> & _). exact Hpegs.
    - exact Hy.
    - exists x. unfold render. rewrite E4. proj. rewrite E3. done. }
  rewrite Href, Hball in *. cbn [PBall.y PBall.vx PBall.vy PBall.dropping].
  do 5 (split; [reflexivity|]). intros es Hes.
  apply run_idle_stays; [exact Hs1 | by rewrite Href | exact Hes].
Qed.

Lemma drain_terminal_witness :
  let s1 := (handle powApprox sqrtApprox (Frame 20) fallingSample).1 in
  PBall.y (ballRef s1) = 1.06%Q /\
  PBall.dropping
    (ballRef (run powApprox sqrtApprox [Frame 40; PointerDown 0.3; Frame 60]
                s1).1) = false.
Proof.
  assert (consistent fallingSample) as Hs.
  { unfold consistent. vm_compute. repeat split; discriminate. }
  assert (Forall onBoard (pegs fallingSample)) as Hpegs.
  { eapply bool_decide_unpack. vm_compute. exact I. }
  assert ((integratedY powApprox 20 fallingSample >? 1.06%Q)%num = true) as Hy.
  { vm_compute. reflexivity. }
  destruct (drain_terminal powApprox sqrtApprox 20 fallingSample
              sqrtApprox_nonneg Hs eq_refl Hpegs Hy) as (H1 & _ & _ & _ & _ & H2).
  split; [exact H1|].
  apply (H2 [Frame 40; PointerDown 0.3; Frame 60]).
  repeat constructor; discriminate.
Defined.

(** the scenario of 10,000 frames at 16 ms, from any valid ball *)
Lemma ten_thousand_frames_in_bounds powQ sqrtQ (s : GameState) :
  validBall (ball s) -> validBall (ballRef s) ->
  inBounds
    (ballRef (run powQ sqrtQ (evenFrames (lastUpdateRef s) (Z.to_nat 10000)) s).1).
Proof.
  intros Hb Hr.
  destruct (run_ballsValid powQ sqrtQ
              (evenFrames (lastUpdateRef s) (Z.to_nat 10000)) s (conj Hb Hr))
    as [_ [H _]].
  exact H.
Qed.

(** ** The touched set *)

Lemma pickHitNumber_draws (pool : list Z) (marked : gset Z) (g : RNG) :
  draws (pickHitNumber pool marked g).2 = draws g.
Proof.
  unfold pickHitNumber, Math_random. cbv beta iota zeta.
  destruct (_ && _); reflexivity.
Qed.

Lemma pickHitNumber_some (pool : list Z) (marked : gset Z) (g : RNG) :
  unitDraws g -> is_Some (pickHitNumber pool marked g).1.
Proof.
  intros Hg. unfold pickHitNumber, Math_random. cbv beta iota zeta.
  cbn [draws cursor]. fold (unmarkedOf pool marked).
  destruct (Hg (S (cursor g))) as [Hu0 Hu1].
  destruct (0 <? length (unmarkedOf pool marked))%nat eqn:Hlen; cbn [andb];
    [|by eexists].
  destruct (Qltb _ _); [|by eexists]. cbn [fst].
  apply Nat.ltb_lt in Hlen.
  pose proof (floor_unit_range (Z.of_nat (length (unmarkedOf pool marked)))
                (draws g (S (cursor g))) ltac:(lia) Hu0 Hu1) as Hrange.
  unfold arrayGet.
  match goal with |- context [(?z <? 0)%Z] =>
    destruct (Z.ltb_spec z 0); [lia|] end.
  apply lookup_lt_is_Some_2. lia.
Qed.

Lemma placePeg_draws (cols rows r c : nat) (st : GenState) :
  draws (genRng (placePeg cols rows r c st)) = draws (genRng st).
Proof. reflexivity. Qed.

Lemma colLoop_draws (count cols rows r : nat) (cs : list nat) (st : GenState) :
  draws (genRng (colLoop count cols rows r cs st)) = draws (genRng st).
Proof.
  revert st. induction cs as [|c cs IH]; intros st; cbn [colLoop]; [done|].
  destruct (count <=? genIdx st)%nat; [done|]. by rewrite IH.
Qed.

Lemma rowLoop_draws (count cols rows : nat) (rs : list nat) (st : GenState) :
  draws (genRng (rowLoop count cols rows rs st)) = draws (genRng st).
Proof.
  revert st. induction rs as [|r rs IH]; intros st; cbn [rowLoop]; [done|].
  by rewrite IH, colLoop_draws.
Qed.

Lemma generatePegs_draws (count : nat) (g : RNG) :
  draws (generatePegs count g).2 = draws g.
Proof. unfold generatePegs. cbn [snd]. by rewrite rowLoop_draws. Qed.

Lemma sampleLoop_draws (fuel : nat) (lo hi : Z) (count : nat) (out : list Z)
    (used : gset Z) (g : RNG) :
  draws (sampleLoop fuel lo hi count out used g).2 = draws g.
Proof.
  revert out used g. induction fuel as [|fuel IH]; intros out used g;
    cbn [sampleLoop]; [done|].
  destruct (length out <? count)%nat; [|done].
  unfold Math_random. cbv beta iota zeta.
  destruct (decide _); by rewrite IH.
Qed.

Lemma columnPicks_draws (cols : list (string * Z * Z)) (used : gset Z)
    (g : RNG) :
  draws (columnPicks cols used g).2 = draws g.
Proof.
  revert used g. induction cols as [|[[l lo] hi] cols IH]; intros used g;
    cbn [columnPicks]; [done|].
  pose proof (sampleLoop_draws (Z.to_nat 10000) lo hi 5 [] used g) as H.
  unfold sampleUniqueInts.
  destruct (sampleLoop _ _ _ _ _ _ _) as [[picks used'] g1]. cbn [snd] in H.
  specialize (IH used' g1). destruct (columnPicks cols used' g1) as [rest g2].
  cbn [snd] in *. congruence.
Qed.

Lemma generateBingoCard_draws (g : RNG) :
  draws (generateBingoCard g).2 = draws g.
Proof.
  unfold generateBingoCard. pose proof (columnPicks_draws COLS ∅ g) as H.
  destruct (columnPicks COLS ∅ g) as [cols g1]. exact H.
Qed.

Lemma unitDraws_ext (g g' : RNG) : draws g' = draws g -> unitDraws g -> unitDraws g'.
Proof. unfold unitDraws. intros ->. done. Qed.

Lemma scanPeg_touch (x y : number) (pool : list Z) (marked : gset Z)
    (st : ScanState) (p : Peg) :
  unitDraws (scanRng st) ->
  Forall (fun u => is_Some u.2) (scanUpdates st) ->
  let st' := scanPeg x y pool marked st p in
  draws (scanRng st') = draws (scanRng st) /\
  Forall (fun u => is_Some u.2) (scanUpdates st') /\
  (exists l, scanUpdates st' = scanUpdates st ++ l) /\
  (forall i, i ∈ scanHit st' ->
     i ∈ scanHit st \/
     (i = Peg.id p /\ Peg.removed p = false /\
      (Peg.hit p = true \/ Peg.id p ∈ (scanUpdates st').*1))).
Proof.
  intros Hg Hups. cbv zeta. unfold scanPeg.
  destruct (Peg.removed p) eqn:Hr.
  { split; [done|]. split; [done|].
    split; [exists []; by rewrite app_nil_r | auto]. }
  set (dist2 := (_ + _)%num).
  destruct (dist2 <=? rr)%num.
  - destruct (Peg.hit p) eqn:Hh; cbn [negb].
    + cbn [scanBest]. destruct (dist2 <? scanBest st)%num;
        cbn [scanRng scanUpdates scanHit];
        (split; [done|]); (split; [done|]);
        (split; [exists []; by rewrite app_nil_r|]);
        intros i [->%elem_of_singleton|Hi]%elem_of_union; auto.
    + pose proof (pickHitNumber_some pool marked _ Hg) as Hsome.
      pose proof (pickHitNumber_draws pool marked (scanRng st)) as Hdraws.
      destruct (pickHitNumber pool marked (scanRng st)) as [num g1].
      cbn [fst snd] in *. cbn [scanBest].
      destruct (dist2 <? scanBest st)%num;
        cbn [scanRng scanUpdates scanHit];
        (split; [done|]);
        (split; [apply Forall_app; split; [done | by apply Forall_singleton]|]);
        (split; [by eexists|]);
        intros i [->%elem_of_singleton|Hi]%elem_of_union; auto;
        right; (split; [done|]); (split; [done|]); right;
        rewrite fmap_app; apply elem_of_app; right; by left.
  - destruct (dist2 <? scanBest st)%num; cbn [scanRng scanUpdates scanHit];
      (split; [done|]); (split; [done|]);
      (split; [exists []; by rewrite app_nil_r | auto]).
Qed.

Lemma scan_touch (x y : number) (pool : list Z) (marked : gset Z)
    (ps : list Peg) (st : ScanState) :
  unitDraws (scanRng st) ->
  Forall (fun u => is_Some u.2) (scanUpdates st) ->
  let st' := foldl (scanPeg x y pool marked) st ps in
  draws (scanRng st') = draws (scanRng st) /\
  Forall (fun u => is_Some u.2) (scanUpdates st') /\
  (exists l, scanUpdates st' = scanUpdates st ++ l) /\
  (forall i, i ∈ scanHit st' ->
     i ∈ scanHit st \/
     exists p, p ∈ ps /\ Peg.id p = i /\ Peg.removed p = false /\
       (Peg.hit p = true \/ i ∈ (scanUpdates st').*1)).
Proof.
  revert st. induction ps as [|p ps IH]; intros st Hg Hups; cbn [foldl].
  - split; [done|]. split; [done|].
    split; [exists []; by rewrite app_nil_r | auto].
  - destruct (scanPeg_touch x y pool marked st p Hg Hups)
      as (Hd1 & Hu1 & [l1 Hl1] & Hh1). cbv zeta in *.
    destruct (IH (scanPeg x y pool marked st p)
                (unitDraws_ext _ _ Hd1 Hg) Hu1)
      as (Hd2 & Hu2 & [l2 Hl2] & Hh2). cbv zeta in *.
    split; [congruence|]. split; [done|].
    split; [exists (l1 ++ l2); by rewrite Hl2, Hl1, app_assoc|].
    intros i Hi. destruct (Hh2 i Hi) as [Hi1|(q & Hq & Hid & Hr & Hc)].
    + destruct (Hh1 i Hi1) as [?|(-> & Hr & Hc)]; [by left|].
      right. exists p. split; [by left|]. split; [done|]. split; [done|].
      destruct Hc as [?|Hc]; [by left|]. right.
      rewrite Hl2, fmap_app. apply elem_of_app. by left.
    + right. exists q. split; [by right | done].
Qed.

Lemma updated_nil (p : Peg) : updated [] p = p.
Proof. reflexivity. Qed.

Lemma updated_some (ups : list (string * option Z)) (p : Peg) :
  Forall (fun u => is_Some u.2) ups -> Peg.id p ∈ ups.*1 ->
  exists n, updated ups p = withHit n p.
Proof.
  intros Hall Hin. unfold updated.
  destruct ((list_to_map (reverse ups) : gmap string (option Z)) !! Peg.id p)
    as [v|] eqn:E.
  - apply elem_of_list_to_map_2 in E. rewrite elem_of_reverse in E.
    rewrite Forall_forall in Hall. destruct (Hall _ E) as [n Hn].
    cbn [snd] in Hn. subst v. by exists n.
  - apply not_elem_of_list_to_map_2 in E.
    rewrite fmap_reverse, elem_of_reverse in E. done.
Qed.

Section Touched.

Variable powQ : Q -> Q -> Q.
Variable sqrtQ : Q -> Q.

Lemma physicsStep_fields (dt : Q) (s : GameState) :
  exists x y,
    hitPegIdsRef (physicsStep powQ sqrtQ dt s) = scanHit (scanPegs x y s) /\
    rng (physicsStep powQ sqrtQ dt s) = scanRng (scanPegs x y s) /\
    pegs (physicsStep powQ sqrtQ dt s)
    = map (updated (scanUpdates (scanPegs x y s))) (pegs s).
Proof.
  unfold physicsStep.
  destruct (integrate _ _ _) as [[[x y] vx] vy].
  destruct (wallCollisions _ _ _ _) as [[[x1 y1] vx1] vy1].
  exists x1, y1.
  destruct (bounceOff _ _ _ _ _ _) as [[[x2 y2] vx2] vy2].
  destruct (scanUpdates (scanPegs x1 y1 s)) as [|u ups] eqn:E; cbn [length];
    [assert ((0 <? 0)%nat = false) as -> by reflexivity
    |assert ((0 <? S (length ups))%nat = true) as -> by reflexivity];
    destruct (y2 >? 1.06%Q)%num; proj;
    try destruct (S (frameCount s) mod 3 =? 0)%nat; proj;
    (split; [reflexivity|]); (split; [reflexivity|]);
    try reflexivity.
  all: symmetry; rewrite <- (map_id (pegs s)) at 2; apply map_ext;
    intros p; apply updated_nil.
Qed.

Lemma physicsStep_touched (dt : Q) (s : GameState) :
  consistent s -> pegsOk s -> Forall hitNumbered (pegs s) ->
  touchedOk s -> unitDraws (rng s) ->
  touchedOk (physicsStep powQ sqrtQ dt s) /\
  draws (rng (physicsStep powQ sqrtQ dt s)) = draws (rng s).
Proof.
  intros (_ & _ & Hp & _) [Hnd _] Hhn Htouch Hg.
  destruct (physicsStep_fields dt s) as (x & y & Ehit & Erng & Epegs).
  destruct (scan_touch x y (poolRef s) (markedRef s) (pegsRef s)
              (mkScan (hitPegIdsRef s) [] None PosInf (rng s)) Hg
              ltac:(constructor)) as (Hd & Hups & _ & Hhit).
  cbv zeta in *. fold (scanPegs x y s) in Hd, Hups, Hhit.
  cbn [scanRng scanHit] in *.
  split; [|by rewrite Erng].
  intros p' Hp' Hid. rewrite Epegs in Hp'. rewrite Ehit in Hid.
  apply list_elem_of_fmap in Hp' as (p & -> & Hin).
  assert (Peg.id (updated (scanUpdates (scanPegs x y s)) p) = Peg.id p
          /\ Peg.removed (updated (scanUpdates (scanPegs x y s)) p)
             = Peg.removed p
          /\ (is_Some (Peg.num p) ->
              is_Some (Peg.num (updated (scanUpdates (scanPegs x y s)) p))))
    as (Eid & Erem & Enum).
  { destruct (updated_cases (scanUpdates (scanPegs x y s)) p)
      as [->|(_ & n & ->)]; cbn; auto. }
  rewrite Eid in Hid. rewrite Erem.
  destruct (Hhit _ Hid) as [Hold|(q & Hq & Hqid & Hr & Hc)].
  - destruct (Htouch p Hin Hold) as [Hr Hn]. auto.
  - assert (q = p) as ->.
    { rewrite Hp in Hq.
      apply list_elem_of_lookup in Hq as [j Hj].
      apply list_elem_of_lookup in Hin as [i Hi].
      assert (i = j) as <-; [|congruence].
      eapply NoDup_lookup; [exact Hnd | |].
      - rewrite list_lookup_fmap, Hi. reflexivity.
      - rewrite list_lookup_fmap, Hj. cbn. by rewrite Hqid. }
    split; [exact Hr|]. destruct Hc as [Hh|Hc].
    + rewrite Forall_forall in Hhn. by apply Enum, (Hhn p).
    + destruct (updated_some _ p Hups Hc) as [n ->]. by eexists.
Qed.

End Touched.

Lemma pegStep_hitNumbered (p p' : Peg) :
  pegStep p p' -> hitNumbered p -> hitNumbered p'.
Proof.
  intros [->|[->|(Hh & n & ->)]]; unfold hitNumbered; cbn; try done.
Qed.

Lemma fresh_hitNumbered (p : Peg) : fresh p -> hitNumbered p.
Proof. intros (_ & Hh & _) H. congruence. Qed.

Lemma touchedOk_empty (s : GameState) : hitPegIdsRef s = ∅ -> touchedOk s.
Proof. intros H p _. rewrite H. set_solver. Qed.

Lemma touchedOk_ext (s s' : GameState) :
  pegs s' = pegs s -> hitPegIdsRef s' = hitPegIdsRef s ->
  touchedOk s -> touchedOk s'.
Proof. unfold touchedOk. intros -> ->. done. Qed.

Lemma render_touched (s : GameState) :
  hitPegIdsRef (render s) = hitPegIdsRef s.
Proof. unfold render. destruct (dirty s); reflexivity. Qed.

Lemma render_draws (s : GameState) : rng (render s) = rng s.
Proof. unfold render. destruct (dirty s); reflexivity. Qed.

Section Rounds.

Variable powQ : Q -> Q -> Q.
Variable sqrtQ : Q -> Q.

Lemma cleanupStep_touched (s : GameState) :
  touchedOk s ->
  touchedOk (cleanupStep s).1 /\ rng (cleanupStep s).1 = rng s.
Proof.
  intros Hs. unfold cleanupStep. destruct (_ && _); [|done].
  destruct (cleanupPegs _ _) as [next hitNums].
  destruct (markNumbers_shape hitNums s) as (m & d & -> & _ & _). proj.
  split; [|reflexivity]. by apply touchedOk_empty.
Qed.

Lemma handleStart_touched (x01 : Q) (s : GameState) :
  pegs (handleStart x01 s) = pegs s /\
  hitPegIdsRef (handleStart x01 s) = hitPegIdsRef s /\
  rng (handleStart x01 s) = rng s.
Proof.
  unfold handleStart, positionBall, setIsPositioning. proj.
  destruct (_ || _); [done|].
  destruct (eqb _ _); proj; destruct (PBall.dropping _); proj; done.
Qed.

Lemma handleMove_touched (x01 : Q) (s : GameState) :
  pegs (handleMove x01 s) = pegs s /\
  hitPegIdsRef (handleMove x01 s) = hitPegIdsRef s /\
  rng (handleMove x01 s) = rng s.
Proof.
  unfold handleMove, positionBall. destruct (negb _); [done|].
  destruct (_ || _); [done|]. destruct (PBall.dropping _); proj; done.
Qed.

Lemma handleEnd_touched (s : GameState) :
  pegs (handleEnd s) = pegs s /\
  (hitPegIdsRef (handleEnd s) = hitPegIdsRef s \/
   hitPegIdsRef (handleEnd s) = ∅) /\
  draws (rng (handleEnd s)) = draws (rng s).
Proof.
  unfold handleEnd, setIsPositioning, setBallsLeft, Math_random. proj.
  destruct (negb _); [destruct (eqb _ _); proj; auto|].
  destruct (_ || _); [destruct (eqb _ _); proj; auto|].
  destruct (eqb _ _); proj; destruct (_ =? _)%Z; proj; auto.
Qed.

Lemma resetBoard_touched (s : GameState) :
  hitPegIdsRef (resetBoard s) = ∅ /\
  draws (rng (resetBoard s)) = draws (rng s) /\
  Forall fresh (pegs (resetBoard s)).
Proof.
  unfold resetBoard. pose proof (generatePegs_draws 30 (rng s)) as Hd.
  destruct (generatePegs_shape 30 (rng s)) as (_ & _ & Hall).
  destruct (generatePegs 30 (rng s)) as [newPegs g1]. proj.
  repeat split; try done. eapply Forall_impl; [exact Hall|]. by intros p [? _].
Qed.

Lemma handle_roundOk (e : Event) (s : GameState) :
  consistent s -> pegsOk s -> roundOk s -> roundOk (handle powQ sqrtQ e s).1.
Proof.
  intros Hs Hok (Htouch & Hhn & Hg).
  assert (forall s', draws (rng s') = draws (rng s) -> unitDraws (rng s'))
    as Hunit by (intros s' E; by eapply unitDraws_ext).
  assert (noReset e ->
          Forall hitNumbered (pegs (handle powQ sqrtQ e s).1)) as Hkeep.
  { intros He. pose proof (handle_pegs powQ sqrtQ e s Hs (proj1 Hok) He) as H.
    clear Hok Htouch. induction H as [|p p' ps ps' Hp _ IHp]; [constructor|].
    inversion Hhn; subst. constructor; [by eapply pegStep_hitNumbered | auto]. }
  destruct e as [now|x01|x01| | |]; cbn [handle fst] in *.
  - specialize (Hkeep I). unfold step in *.
    destruct (negb (PBall.dropping (ballRef (with_lastUpdateRef now s)))).
    + destruct (cleanupStep_touched (with_lastUpdateRef now s))
        as [H1 H2]; [exact Htouch|].
      destruct (cleanupStep _) as [s' out]. cbn [fst] in *.
      split; [|split; [exact Hkeep|]].
      * revert H1. apply touchedOk_ext; [apply render_pegs | apply render_touched].
      * apply Hunit. by rewrite render_draws, H2.
    + cbn [fst] in *.
      destruct (physicsStep_touched powQ sqrtQ (frameDt now s)
                  (with_lastUpdateRef now s)
                  (with_lastUpdateRef_consistent now s Hs) Hok Hhn Htouch Hg)
        as [H1 H2].
      split; [|split; [exact Hkeep|]].
      * revert H1. apply touchedOk_ext; [apply render_pegs | apply render_touched].
      * apply Hunit. by rewrite render_draws, H2.
  - specialize (Hkeep I). destruct (handleStart_touched x01 s) as (E1 & E2 & E3).
    split; [|split; [exact Hkeep|]].
    + revert Htouch. apply touchedOk_ext;
        [by rewrite render_pegs | by rewrite render_touched].
    + apply Hunit. by rewrite render_draws, E3.
  - specialize (Hkeep I). destruct (handleMove_touched x01 s) as (E1 & E2 & E3).
    split; [|split; [exact Hkeep|]].
    + revert Htouch. apply touchedOk_ext;
        [by rewrite render_pegs | by rewrite render_touched].
    + apply Hunit. by rewrite render_draws, E3.
  - specialize (Hkeep I). destruct (handleEnd_touched s) as (E1 & E2 & E3).
    split; [|split; [exact Hkeep|]].
    + destruct E2 as [E2|E2].
      * revert Htouch. apply touchedOk_ext;
          [by rewrite render_pegs | by rewrite render_touched].
      * apply touchedOk_empty. by rewrite render_touched.
    + apply Hunit. by rewrite render_draws, E3.
  - destruct (resetBoard_touched s) as (E1 & E2 & E3).
    split; [|split].
    + apply touchedOk_empty. by rewrite render_touched.
    + rewrite render_pegs. eapply Forall_impl; [exact E3|].
      apply fresh_hitNumbered.
    + apply Hunit. by rewrite render_draws, E2.
  - unfold newGame. pose proof (generateBingoCard_draws (rng s)) as Hc.
    destruct (generateBingoCard (rng s)) as [c g1]. cbn [snd] in Hc.
    destruct (resetBoard_touched
                (setBallsLeft 5 (setMarked ∅ (setCard c (with_rng g1 s)))))
      as (E1 & E2 & E3).
    split; [|split].
    + apply touchedOk_empty. by rewrite render_touched.
    + rewrite render_pegs. eapply Forall_impl; [exact E3|].
      apply fresh_hitNumbered.
    + apply Hunit. rewrite render_draws, E2. unfold setBallsLeft. proj.
      destruct (_ =? _)%Z; proj; exact Hc.
Qed.

Lemma run_roundOk (es : list Event) (s : GameState) :
  consistent s -> pegsOk s -> roundOk s -> roundOk (run powQ sqrtQ es s).1.
Proof.
  revert s. induction es as [|e es IH]; intros s Hs Hok Hr; cbn [run]; [done|].
  pose proof (handle_consistent powQ sqrtQ e s Hs) as H1.
  pose proof (handle_pegsOk powQ sqrtQ e s Hs Hok) as H2.
  pose proof (handle_roundOk e s Hs Hok Hr) as H3.
  destruct (handle _ _ e s) as [s1 out1]. specialize (IH s1 H1 H2 H3).
  destruct (run _ _ es s1) as [s2 out2]. exact IH.
Qed.

Lemma initialState_roundOk (t0 : Q) (g : RNG) :
  unitDraws g -> roundOk (initialState t0 g).
Proof.
  intros Hg. unfold initialState.
  pose proof (generateBingoCard_draws g) as Hc.
  destruct (generateBingoCard g) as [c g1]. cbn [snd] in Hc.
  pose proof (generatePegs_draws 30 g1) as Hp.
  destruct (generatePegs_shape 30 g1) as (_ & _ & Hall).
  destruct (generatePegs 30 g1) as [ps g2]. cbn [fst snd] in *.
  split; [|split]; proj.
  - by apply touchedOk_empty.
  - eapply Forall_impl; [exact Hall|]. intros p [? _].
    by apply fresh_hitNumbered.
  - eapply unitDraws_ext; [|exact Hg]. congruence.
Qed.

(** in every state the game reaches with draws from [0, 1), a cleanup
    frame hands over exactly one number for each peg of the touched set,
    the peg's own, in peg order *)
Lemma cleanup_one_number_per_touched_peg (t0 now : Q) (g : RNG)
    (es : list Event) :
  unitDraws g ->
  let s := (run powQ sqrtQ es (initialState t0 g)).1 in
  PBall.dropping (ballRef s) = false ->
  (PBall.y (ballRef s) >=? 1.05%Q)%num = true ->
  hitPegIdsRef s <> ∅ ->
  Forall2 (fun p n => Peg.num p = Some n)
          (filter (fun p => Peg.id p ∈ hitPegIdsRef s) (pegs s))
          (handle powQ sqrtQ (Frame now) s).2.
Proof.
  intros Hg. cbv zeta. set (s := (run powQ sqrtQ es (initialState t0 g)).1).
  intros Hidle Hy Hne.
  destruct (run_invariant powQ sqrtQ es (initialState t0 g)
              (initialState_consistent t0 g) (initialState_pegsOk t0 g))
    as [Hs Hok]. fold s in Hs, Hok.
  destruct (run_roundOk es (initialState t0 g)
              (initialState_consistent t0 g) (initialState_pegsOk t0 g)
              (initialState_roundOk t0 g Hg)) as (Htouch & _ & _).
  fold s in Htouch.
  destruct (cleanup_frame_eq powQ sqrtQ now s Hs Hidle Hy Hne) as [m ->].
  cbn [snd]. unfold touchedOk in Htouch. clear Hs Hok Hidle Hy Hne.
  induction (pegs s) as [|p ps IH]; [constructor|].
  rewrite !filter_cons.
  destruct (decide (Peg.id p ∈ hitPegIdsRef s)) as [Hin|Hout].
  - destruct (Htouch p ltac:(left) Hin) as [Hr [n Hn]].
    rewrite decide_True by done. cbn [omap list_omap]. rewrite Hn.
    constructor; [exact Hn|]. apply IH. intros q Hq. apply Htouch. by right.
  - rewrite decide_False by (intros [_ ?]; done).
    apply IH. intros q Hq. apply Htouch. by right.
Qed.

End Rounds.

(** ** Bingo helpers *)

Lemma sample_in_range (lo hi : Z) (u : Q) :
  (lo <= hi)%Z -> (0 <= u)%Q -> (u < 1)%Q ->
  (lo <= Qfloor (u * inject_Z (hi - lo + 1)) + lo <= hi)%Z.
Proof.
  intros Hlh H0 H1.
  pose proof (floor_unit_range (hi - lo + 1) u ltac:(lia) H0 H1). lia.
Qed.

Lemma sampleLoop_spec (fuel : nat) (lo hi : Z) (count : nat) (out : list Z)
    (used : gset Z) (g : RNG) :
  NoDup out -> (forall n, n ∈ out -> n ∈ used) ->
  exists new,
    (sampleLoop fuel lo hi count out used g).1.1 = out ++ new /\
    (sampleLoop fuel lo hi count out used g).1.2 = used ∪ list_to_set new /\
    NoDup (out ++ new) /\ (forall n, n ∈ new -> n ∉ used) /\
    (length (out ++ new) <= Nat.max (length out) count)%nat /\
    (unitDraws g -> (lo <= hi)%Z ->
     forall n, n ∈ new -> (lo <= n <= hi)%Z).
Proof.
  revert out used g. induction fuel as [|fuel IH]; intros out used g Hnd Hin;
    cbn [sampleLoop].
  { exists []. rewrite app_nil_r. cbn [list_to_set foldr fst snd].
    split; [done|]. split; [set_solver|]. split; [done|].
    split; [intros n Hn; by apply elem_of_nil in Hn|]. split; [lia|].
    intros _ _ n Hn. by apply elem_of_nil in Hn. }
  destruct (Nat.ltb_spec (length out) count) as [Hlt|Hge].
  2: { exists []. rewrite app_nil_r. cbn [list_to_set foldr fst snd].
       split; [done|]. split; [set_solver|]. split; [done|].
       split; [intros n Hn; by apply elem_of_nil in Hn|]. split; [lia|].
       intros _ _ n Hn. by apply elem_of_nil in Hn. }
  unfold Math_random. cbv beta iota zeta.
  set (n0 := (Qfloor (draws g (cursor g) * inject_Z (hi - lo + 1)) + lo)%Z).
  set (g1 := mkRNG (draws g) (S (cursor g))).
  destruct (decide (n0 ∈ used)) as [Hused|Hfresh].
  - destruct (IH out used g1 Hnd Hin) as (new & E1 & E2 & H3 & H4 & H5 & H6).
    exists new. do 5 (split; [done|]).
    intros Hg Hlh. apply H6; [|done]. by eapply unitDraws_ext.
  - assert (NoDup (out ++ [n0])) as Hnd'.
    { apply NoDup_app. split; [done|]. split; [|apply NoDup_singleton].
      intros n Hn ->%list_elem_of_singleton. by apply Hfresh, Hin. }
    assert (forall n, n ∈ out ++ [n0] -> n ∈ {[n0]} ∪ used) as Hin'.
    { intros n [Hn| ->%list_elem_of_singleton]%elem_of_app; set_solver. }
    destruct (IH (out ++ [n0]) ({[n0]} ∪ used) g1 Hnd' Hin')
      as (new & E1 & E2 & H3 & H4 & H5 & H6).
    exists (n0 :: new). rewrite <- app_assoc in E1, H3, H5. cbn [app] in *.
    split; [done|]. split; [rewrite E2; set_solver|]. split; [done|].
    split; [|split].
    + intros n [->|Hn]%elem_of_cons; [done|]. apply H4 in Hn. set_solver.
    + rewrite !length_app in *. cbn [length] in *. lia.
    + intros Hg Hlh n [->|Hn]%elem_of_cons.
      * destruct (Hg (cursor g)). by apply sample_in_range.
      * apply H6; [|done|done]. by eapply unitDraws_ext.
Qed.

Lemma sampleLoop_exhausted (fuel : nat) (lo hi : Z) (count : nat)
    (out : list Z) (used : gset Z) (g : RNG) :
  unitDraws g -> (lo <= hi)%Z -> (length out < count)%nat ->
  (forall n, (lo <= n <= hi)%Z -> n ∈ used) ->
  sampleLoop fuel lo hi count out used g
  = (out, used, mkRNG (draws g) (cursor g + fuel)).
Proof.
  intros Hg Hlh Hlen Hall. revert g Hg.
  induction fuel as [|fuel IH]; intros g Hg; cbn [sampleLoop].
  { rewrite Nat.add_0_r. by destruct g. }
  apply Nat.ltb_lt in Hlen as Hlt. rewrite Hlt.
  unfold Math_random. cbv beta iota zeta.
  destruct (Hg (cursor g)) as [H0 H1].
  rewrite decide_True by (apply Hall; by apply sample_in_range).
  rewrite IH by (by eapply unitDraws_ext). cbn [draws cursor].
  do 2 f_equal. lia.
Qed.

Lemma columnPicks_spec (cols : list (string * Z * Z)) (used : gset Z)
    (g : RNG) :
  let r := (columnPicks cols used g).1 in
  length r = length cols /\
  NoDup (concat r) /\
  (forall n, n ∈ concat r -> n ∉ used) /\
  Forall (fun p => (length p <= 5)%nat) r /\
  (unitDraws g -> Forall (fun c => (c.1.2 <= c.2)%Z) cols ->
   Forall2 (fun c p => forall n, n ∈ p -> (c.1.2 <= n <= c.2)%Z) cols r).
Proof.
  revert used g. induction cols as [|[[l lo] hi] cols IH]; intros used g;
    cbn [columnPicks].
  { cbn. split; [done|]. split; [constructor|].
    split; [intros n Hn; by apply elem_of_nil in Hn|].
    split; [constructor|]. intros _ _. constructor. }
  unfold sampleUniqueInts.
  destruct (sampleLoop_spec (Z.to_nat 10000) lo hi 5 [] used g
              (NoDup_nil_2) ltac:(intros n Hn; by apply elem_of_nil in Hn))
    as (new & Hout & Hused & Hnd & Hfresh & Hlen & Hrange).
  pose proof (sampleLoop_draws (Z.to_nat 10000) lo hi 5 [] used g) as Hd.
  destruct (sampleLoop _ _ _ _ _ _ _) as [[picks used'] g1].
  cbn [fst snd app] in *. subst picks used'.
  specialize (IH (used ∪ list_to_set new) g1).
  destruct (columnPicks cols _ g1) as [rest g2]. cbn [fst snd] in *.
  destruct IH as (IHlen & IHnd & IHfresh & IHfive & IHrange).
  split; [cbn [length]; lia|].
  split.
  { cbn [concat]. apply NoDup_app. split; [done|]. split; [|done].
    intros n Hn Hn'. apply IHfresh in Hn'. set_solver. }
  split.
  { cbn [concat]. intros n Hn. apply elem_of_app in Hn as [Hn|Hn].
    - by apply Hfresh.
    - apply IHfresh in Hn. set_solver. }
  split; [constructor; [cbn [length] in Hlen; lia|done]|].
  intros Hg Hcols. apply Forall_cons in Hcols as [Hc Hcols]. cbn [fst snd] in Hc.
  constructor.
  - cbn [fst snd]. by apply Hrange.
  - apply IHrange; [|done]. by apply (unitDraws_ext g).
Qed.

(** the numbers of row [r] of the grid are the [r]-th picks *)
Lemma rowNumbers_picks (cols : list (list Z)) (r : nat) :
  rowNumbers (map (fun picks => pickCell picks r) cols)
  = concat (map (fun picks => option_list (picks !! r)) cols).
Proof.
  unfold rowNumbers. induction cols as [|p cols IH]; [done|].
  cbn [map concat]. rewrite IH. unfold pickCell. by destruct (p !! r).
Qed.

Lemma concat_map_app {A B : Type} (f g : A -> list B) (l : list A) :
  concat (map (fun a => f a ++ g a) l)
  ≡ₚ concat (map f l) ++ concat (map g l).
Proof.
  induction l as [|a l IH]; [done|]. cbn [map concat]. rewrite IH.
  rewrite <- !app_assoc. f_equiv. rewrite !app_assoc. f_equiv.
  apply Permutation_app_comm.
Qed.

Lemma take_option_list {A : Type} (p : list A) (k : nat) :
  concat (map (fun r => option_list (p !! r)) (seq 0 k)) = take k p.
Proof.
  induction k as [|k IH]; [by rewrite take_0|].
  rewrite seq_S, map_app, concat_app, IH. cbn [map concat Nat.add].
  rewrite app_nil_r. destruct (p !! k) as [x|] eqn:Hk.
  - by rewrite (take_S_r _ _ x).
  - cbn [option_list]. rewrite app_nil_r.
    apply lookup_ge_None in Hk. by rewrite !take_ge by lia.
Qed.

(** read row by row, the grid holds the first [k] picks of every column *)
Lemma transpose_picks (cols : list (list Z)) (k : nat) :
  concat (map (fun r => concat (map (fun picks => option_list (picks !! r)) cols))
              (seq 0 k))
  ≡ₚ concat (map (take k) cols).
Proof.
  induction cols as [|p cols IH].
  { cbn [map concat]. induction (seq 0 k) as [|a l IHl]; [done|]. done. }
  cbn [map concat].
  rewrite (concat_map_app (fun r => option_list (p !! r))
             (fun r => concat (map (fun picks => option_list (picks !! r)) cols))).
  by rewrite take_option_list, IH.
Qed.

Lemma rowNumbers_app (a b : list Cell) :
  rowNumbers (a ++ b) = rowNumbers a ++ rowNumbers b.
Proof. unfold rowNumbers. by rewrite map_app, concat_app. Qed.

Lemma rowNumbers_length (row : list Cell) :
  (length (rowNumbers row) <= length row)%nat.
Proof.
  unfold rowNumbers. induction row as [|v row IH]; [done|].
  cbn [map concat]. rewrite length_app. destruct v; cbn [length]; lia.
Qed.

Lemma rowNumbers_free (row : list Cell) (i : nat) :
  (i < length row)%nat ->
  rowNumbers (<[i := FREE]> row) `sublist_of` rowNumbers row /\
  (S (length (rowNumbers (<[i := FREE]> row))) <= length row)%nat.
Proof.
  revert i. induction row as [|v row IH]; intros i Hi; cbn [length] in Hi;
    [lia|].
  change (v :: row) with ([v] ++ row).
  destruct i as [|i].
  - change (<[0%nat := FREE]> ([v] ++ row)) with ([FREE] ++ row).
    rewrite !rowNumbers_app. split.
    + apply sublist_inserts_l. done.
    + cbn. pose proof (rowNumbers_length row). lia.
  - change (<[S i := FREE]> ([v] ++ row)) with ([v] ++ <[i := FREE]> row).
    rewrite !rowNumbers_app. destruct (IH i ltac:(lia)) as [IH1 IH2]. split.
    + by apply sublist_app.
    + rewrite length_app. pose proof (rowNumbers_length [v]).
      cbn [length app] in *. lia.
Qed.

Lemma cardNumberPool_rows (card : Card) :
  cardNumberPool card = concat (map rowNumbers card).
Proof. reflexivity. Qed.

(** the generated card, cell by cell *)
Lemma generateBingoCard_cells (g : RNG) :
  exists p0 p1 p2 p3 p4 : list Z,
    (columnPicks COLS ∅ g).1 = [p0; p1; p2; p3; p4] /\
    (generateBingoCard g).1 =
      [ [pickCell p0 0; pickCell p1 0; pickCell p2 0; pickCell p3 0; pickCell p4 0];
        [pickCell p0 1; pickCell p1 1; pickCell p2 1; pickCell p3 1; pickCell p4 1];
        [pickCell p0 2; pickCell p1 2; FREE; pickCell p3 2; pickCell p4 2];
        [pickCell p0 3; pickCell p1 3; pickCell p2 3; pickCell p3 3; pickCell p4 3];
        [pickCell p0 4; pickCell p1 4; pickCell p2 4; pickCell p3 4; pickCell p4 4] ].
Proof.
  unfold generateBingoCard.
  destruct (columnPicks_spec COLS ∅ g) as (Hlen & _).
  destruct (columnPicks COLS ∅ g) as [cols g1]. cbn [fst] in *.
  destruct cols as [|p0 [|p1 [|p2 [|p3 [|p4 [|? ?]]]]]]; try discriminate Hlen.
  exists p0, p1, p2, p3, p4. split; reflexivity.
Qed.

Lemma pickCell_not_free (p : list Z) (r : nat) : pickCell p r <> FREE.
Proof. unfold pickCell. by destruct (p !! r). Qed.

Lemma pickCell_num (p : list Z) (r : nat) (n : Z) :
  pickCell p r = CNum n -> p !! r = Some n.
Proof. unfold pickCell. destruct (p !! r); congruence. Qed.

Lemma generateBingoCard_pool (g : RNG) :
  cardNumberPool (generateBingoCard g).1
    `sublist_of`
  concat (map (fun r => concat (map (fun picks => option_list (picks !! r))
                                    (columnPicks COLS ∅ g).1))
              (seq 0 5)).
Proof.
  unfold generateBingoCard.
  destruct (columnPicks_spec COLS ∅ g) as (Hlen & _).
  destruct (columnPicks COLS ∅ g) as [cols g1]. cbn [fst] in *.
  rewrite cardNumberPool_rows.
  cbn [seq map alter list_alter]. rewrite !rowNumbers_picks. cbn [concat].
  repeat (apply sublist_app; [done|]).
  apply sublist_app; [|done].
  rewrite <- rowNumbers_picks. apply rowNumbers_free.
  rewrite length_map, Hlen. cbn. lia.
Qed.

Lemma generateBingoCard_pool_picks (g : RNG) :
  cardNumberPool (generateBingoCard g).1 ⊆+ concat (columnPicks COLS ∅ g).1.
Proof.
  etrans; [apply sublist_submseteq, generateBingoCard_pool|].
  rewrite transpose_picks.
  destruct (columnPicks_spec COLS ∅ g) as (_ & _ & _ & Hfive & _).
  induction Hfive as [|p l Hp _ IH]; [done|].
  cbn [map concat]. rewrite take_ge by lia. by apply submseteq_app.
Qed.

Ltac half_unit := intros ?; cbn; split; [discriminate | reflexivity].

Ltac cycle_unit :=
  let i := fresh "i" in
  intros i; cbn [draws cycleDraws]; unfold Qle, Qlt; cbn [Qnum Qden];
  pose proof (Nat.mod_upper_bound (i * 37) 100 ltac:(lia)); lia.

(** X1. [sampleUniqueInts] returns at most [count] numbers, no two
    equal and none of them in [used] beforehand, and leaves [used] enlarged
    by exactly the numbers it returns. *)
Theorem sampleUniqueInts_fresh (lo hi : Z) (count : nat) (used : gset Z)
    (g : RNG) :
  let out := (sampleUniqueInts lo hi count used g).1.1 in
  let used' := (sampleUniqueInts lo hi count used g).1.2 in
  NoDup out /\ (length out <= count)%nat /\
  (forall n, n ∈ out -> n ∉ used) /\
  used' = used ∪ list_to_set out.
Proof.
  unfold sampleUniqueInts.
  destruct (sampleLoop_spec (Z.to_nat 10000) lo hi count [] used g
              (NoDup_nil_2) ltac:(intros n Hn; by apply elem_of_nil in Hn))
    as (new & -> & -> & Hnd & Hfresh & Hlen & _).
  cbn [app length] in *. split; [done|]. split; [lia|]. split; done.
Qed.

(** X2. With [Math.random] in [0, 1) and [min <= max], every number
    [sampleUniqueInts] returns lies in [min .. max]. *)
Theorem sampleUniqueInts_range (lo hi : Z) (count : nat) (used : gset Z)
    (g : RNG) (n : Z) :
  unitDraws g -> (lo <= hi)%Z ->
  n ∈ (sampleUniqueInts lo hi count used g).1.1 ->
  (lo <= n <= hi)%Z.
Proof.
  intros Hg Hlh. unfold sampleUniqueInts.
  destruct (sampleLoop_spec (Z.to_nat 10000) lo hi count [] used g
              (NoDup_nil_2) ltac:(intros m Hm; by apply elem_of_nil in Hm))
    as (new & -> & _ & _ & _ & _ & Hrange).
  cbn [app]. by apply Hrange.
Qed.

Lemma sampleUniqueInts_range_witness :
  (sampleUniqueInts 16 30 5 ∅ cycleDraws).1.1 = [16; 21; 27; 17; 23]%Z /\
  (16 <= 27 <= 30)%Z.
Proof.
  assert ((sampleUniqueInts 16 30 5 ∅ cycleDraws).1.1 = [16; 21; 27; 17; 23]%Z)
    as E by (vm_compute; reflexivity).
  split; [exact E|].
  apply (sampleUniqueInts_range 16 30 5 ∅ cycleDraws 27);
    [cycle_unit | lia | rewrite E; set_solver].
Defined.

(** X3. When every number of [min .. max] is already in [used],
    [sampleUniqueInts] gives up: it returns the empty list, leaves [used] as
    it was, and has consumed exactly 10000 random numbers. *)
Theorem sampleUniqueInts_exhausted (lo hi : Z) (count : nat) (used : gset Z)
    (g : RNG) :
  unitDraws g -> (lo <= hi)%Z -> (0 < count)%nat ->
  (forall n, (lo <= n <= hi)%Z -> n ∈ used) ->
  sampleUniqueInts lo hi count used g
  = ([], used, mkRNG (draws g) (cursor g + Z.to_nat 10000)).
Proof.
  intros Hg Hlh Hc Hall. unfold sampleUniqueInts.
  rewrite (sampleLoop_exhausted _ lo hi count [] used g Hg Hlh Hc Hall).
  do 2 f_equal.
Qed.

Lemma sampleUniqueInts_exhausted_witness :
  sampleUniqueInts 7 8 3 {[7; 8]}%Z halfDraws
  = ([], {[7; 8]}%Z, mkRNG (draws halfDraws) (Z.to_nat 10000)).
Proof.
  apply (sampleUniqueInts_exhausted 7 8 3 {[7; 8]}%Z halfDraws);
    [half_unit | lia | lia | intros n Hn; assert (n = 7 \/ n = 8)%Z as [ -> | -> ] by lia; set_solver].
Defined.

Lemma generateBingoCard_pool_length (g : RNG) :
  (length (cardNumberPool (generateBingoCard g).1) <= 24)%nat.
Proof.
  unfold generateBingoCard.
  destruct (columnPicks_spec COLS ∅ g) as (Hlen & _).
  destruct (columnPicks COLS ∅ g) as [cols g1]. cbn [fst] in *.
  rewrite cardNumberPool_rows.
  cbn [seq map alter list_alter concat]. rewrite !length_app.
  assert (forall r, length (map (fun picks => pickCell picks r) cols) = 5%nat)
    as Hrow by (intros r; by rewrite length_map).
  pose proof (rowNumbers_length (map (fun picks => pickCell picks 0%nat) cols)).
  pose proof (rowNumbers_length (map (fun picks => pickCell picks 1%nat) cols)).
  pose proof (rowNumbers_length (map (fun picks => pickCell picks 3%nat) cols)).
  pose proof (rowNumbers_length (map (fun picks => pickCell picks 4%nat) cols)).
  destruct (rowNumbers_free (map (fun picks => pickCell picks 2%nat) cols) 2)
    as [_ Hmid]; [rewrite Hrow; lia|].
  rewrite !Hrow in *. cbn [length]. lia.
Qed.

Lemma generateBingoCard_pool_NoDup (g : RNG) :
  NoDup (cardNumberPool (generateBingoCard g).1).
Proof.
  destruct (columnPicks_spec COLS ∅ g) as (_ & Hnd & _).
  pose proof (generateBingoCard_pool_picks g) as Hsub.
  apply submseteq_Permutation in Hsub as [k Hk].
  rewrite Hk in Hnd. by apply NoDup_app in Hnd as [? _].
Qed.

Lemma COLS_ordered : Forall (fun c : string * Z * Z => (c.1.2 <= c.2)%Z) COLS.
Proof. unfold COLS. repeat constructor; cbn; lia. Qed.

Lemma generateBingoCard_pool_range (g : RNG) (n : Z) :
  unitDraws g -> n ∈ cardNumberPool (generateBingoCard g).1 ->
  (1 <= n <= 75)%Z.
Proof.
  intros Hg Hn.
  destruct (columnPicks_spec COLS ∅ g) as (_ & _ & _ & _ & Hrange).
  specialize (Hrange Hg COLS_ordered).
  pose proof (generateBingoCard_pool_picks g) as Hsub.
  apply (elem_of_submseteq _ _ _ Hn) in Hsub.
  apply list_elem_of_In, in_concat in Hsub as (p & Hp & Hnp).
  apply list_elem_of_In in Hp, Hnp.
  revert Hp Hrange. generalize ((columnPicks COLS ∅ g).1) as cols.
  unfold COLS. intros cols Hp Hrange.
  repeat match goal with
         | H : Forall2 _ (_ :: _) _ |- _ =>
             apply Forall2_cons_inv_l in H as (? & ? & ? & H & ->)
         | H : Forall2 _ [] _ |- _ => apply Forall2_nil_inv_l in H as ->
         end.
  cbn [fst snd] in *.
  repeat match goal with
         | H : p ∈ _ :: _ |- _ => apply elem_of_cons in H as [ -> | H]
         | H : p ∈ [] |- _ => by apply elem_of_nil in H
         end;
    match goal with H : forall n, n ∈ _ -> _ |- _ => specialize (H n Hnp); lia end.
Qed.

(** X4. The generated card has five rows of five cells and its
    only ["FREE"] cell is the centre. *)
Theorem generateBingoCard_layout (g : RNG) :
  let card := (generateBingoCard g).1 in
  length card = 5%nat /\ Forall (fun row => length row = 5%nat) card /\
  forall r c, cellOf card r c = Some FREE <-> r = 2%nat /\ c = 2%nat.
Proof.
  destruct (generateBingoCard_cells g) as (p0 & p1 & p2 & p3 & p4 & _ & ->).
  cbv zeta. split; [done|]. split; [by repeat constructor|].
  intros r c. split.
  - unfold cellOf. intros H.
    do 5 (destruct r as [|r]; cbn in H;
          [do 5 (destruct c as [|c]; cbn in H;
                 [first [done | injection H as H; by apply pickCell_not_free in H]|]);
           by destruct c|]).
    by destruct r.
  - by intros [-> ->].
Qed.

(** X5. With [Math.random] in [0, 1), every number on the
    generated card lies in the range of its column: B 1..15, I 16..30,
    N 31..45, G 46..60, O 61..75. *)
Theorem generateBingoCard_columns (g : RNG) (r c : nat) (n : Z)
    (label : string) (lo hi : Z) :
  unitDraws g ->
  cellOf (generateBingoCard g).1 r c = Some (CNum n) ->
  COLS !! c = Some (label, lo, hi) ->
  (lo <= n <= hi)%Z.
Proof.
  intros Hg Hcell Hcol.
  destruct (columnPicks_spec COLS ∅ g) as (_ & _ & _ & _ & Hrange).
  specialize (Hrange Hg COLS_ordered).
  destruct (generateBingoCard_cells g) as (p0 & p1 & p2 & p3 & p4 & E & Hcard).
  rewrite Hcard in Hcell. rewrite E in Hrange. clear E Hcard.
  unfold COLS in *.
  repeat match goal with
         | H : Forall2 _ (_ :: _) (_ :: _) |- _ =>
             apply Forall2_cons in H as [? H]
         end.
  cbn [fst snd] in *. unfold cellOf in Hcell.
  do 5 (destruct c as [|c]; cbn in Hcol;
        [injection Hcol as <- <- <-;
         do 5 (destruct r as [|r]; cbn in Hcell;
               [first [discriminate Hcell
                      | injection Hcell as Hcell; apply pickCell_num in Hcell;
                        apply list_elem_of_lookup_2 in Hcell; auto]|]);
         by destruct r|]).
  by destruct c.
Qed.

Lemma generateBingoCard_columns_witness :
  cellOf (generateBingoCard cycleDraws).1 0 1 = Some (CNum 28) /\
  (16 <= 28 <= 30)%Z.
Proof.
  assert (cellOf (generateBingoCard cycleDraws).1 0 1 = Some (CNum 28)) as E
    by (vm_compute; reflexivity).
  split; [exact E|].
  apply (generateBingoCard_columns cycleDraws 0 1 28 "I" 16 30);
    [cycle_unit | exact E | reflexivity].
Defined.

(** X6. The number pool of a generated card has no repeated
    number and at most 24 entries. *)
Theorem cardNumberPool_distinct (g : RNG) :
  let pool := cardNumberPool (generateBingoCard g).1 in
  NoDup pool /\ (length pool <= 24)%nat.
Proof.
  split; [apply generateBingoCard_pool_NoDup | apply generateBingoCard_pool_length].
Qed.

(** ** Lines of the card *)

Lemma isMarked_pickCell_empty (p : list Z) (r : nat) :
  isMarked ∅ (pickCell p r) = false.
Proof. unfold pickCell. destruct (p !! r); [|done]. cbn. by rewrite bool_decide_eq_false. Qed.

Lemma isMarked_mono (marked marked' : gset Z) (v : Cell) :
  marked ⊆ marked' -> isMarked marked v = true -> isMarked marked' v = true.
Proof.
  intros Hsub. destruct v as [n| |]; cbn; [|done..].
  rewrite !bool_decide_eq_true. set_solver.
Qed.

Lemma generateBingoCard_no_bingo (g : RNG) :
  hasBingo (generateBingoCard g).1 ∅ = Some false.
Proof.
  destruct (generateBingoCard_cells g) as (p0 & p1 & p2 & p3 & p4 & _ & ->).
  unfold hasBingo. cbn [lookup list_lookup]. f_equal.
  cbn [seq map app existsb forallb cellAt lookup list_lookup default id
       option_rect from_option].
  rewrite !isMarked_pickCell_empty. reflexivity.
Qed.

(** X7. On a generated card [hasBingo] never fails, and with
    nothing marked it is false: the free centre alone completes no line. *)
Theorem hasBingo_fresh (g : RNG) (marked : gset Z) :
  is_Some (hasBingo (generateBingoCard g).1 marked) /\
  hasBingo (generateBingoCard g).1 ∅ = Some false.
Proof.
  split; [|apply generateBingoCard_no_bingo].
  destruct (generateBingoCard_cells g) as (p0 & p1 & p2 & p3 & p4 & _ & ->).
  by eexists.
Qed.

(** X8. [hasBingo] is monotone in the marked set: marking more
    numbers never takes a bingo away. *)
Theorem hasBingo_mono (card : Card) (marked marked' : gset Z) :
  marked ⊆ marked' ->
  hasBingo card marked = Some true -> hasBingo card marked' = Some true.
Proof.
  intros Hsub. unfold hasBingo.
  destruct (card !! 0%nat) as [r0|]; [|done].
  destruct (card !! 1%nat) as [r1|]; [|done].
  destruct (card !! 2%nat) as [r2|]; [|done].
  destruct (card !! 3%nat) as [r3|]; [|done].
  destruct (card !! 4%nat) as [r4|]; [|done].
  cbv zeta. intros H. f_equal.
  assert (forall b, Some b = Some true -> b = true) as Hinj by congruence.
  apply Hinj in H. apply existsb_exists in H as (line & Hin & Hall).
  apply existsb_exists. exists line. split; [done|].
  rewrite forallb_forall in *. intros v Hv.
  apply (isMarked_mono marked); auto.
Qed.

Lemma hasBingo_mono_witness :
  hasBingo (generateBingoCard cycleDraws).1 {[12; 24; 50; 63; 7]}%Z = Some true.
Proof.
  apply (hasBingo_mono _ {[12; 24; 50; 63]}%Z).
  - set_solver.
  - vm_compute. reflexivity.
Defined.

(** ** What an input leaves alone *)

Lemma markNumbers_marked (l : list Z) (s : GameState) :
  let s' := foldl (fun s n => markNumber n s) s l in
  marked s' = marked s ∪ (list_to_set l ∩ list_to_set (pool s)) /\
  card s' = card s.
Proof.
  revert s. induction l as [|n l IH]; intros s; cbn [foldl].
  { split; [set_solver|done]. }
  destruct (IH (markNumber n s)) as [IHm IHc]. cbv zeta. rewrite IHm, IHc.
  unfold markNumber, pool. repeat case_decide; proj.
  all: split; [|done]. all: set_solver.
Qed.

Lemma render_static (s : GameState) :
  card (render s) = card s /\ marked (render s) = marked s /\
  ballsLeft (render s) = ballsLeft s /\
  isPositioning (render s) = isPositioning s /\
  isPositioningRef (render s) = isPositioningRef s /\
  hitPegIdsRef (render s) = hitPegIdsRef s /\
  lastUpdateRef (render s) = lastUpdateRef s.
Proof. unfold render. destruct (dirty s); proj; done. Qed.

Section Inputs.

Variable powQ : Q -> Q -> Q.
Variable sqrtQ : Q -> Q.

Lemma physicsStep_static (dt : Q) (s : GameState) :
  let s' := physicsStep powQ sqrtQ dt s in
  card s' = card s /\ marked s' = marked s /\ ballsLeft s' = ballsLeft s /\
  isPositioning s' = isPositioning s /\
  isPositioningRef s' = isPositioningRef s /\
  lastUpdateRef s' = lastUpdateRef s.
Proof.
  unfold physicsStep.
  destruct (integrate _ _ _) as [[[x y] vx] vy].
  destruct (wallCollisions _ _ _ _) as [[[x1 y1] vx1] vy1].
  destruct (bounceOff _ _ _ _ _ _) as [[[x2 y2] vx2] vy2].
  destruct (0 <? length _)%nat; destruct (y2 >? 1.06%Q)%num; proj;
    try destruct (S (frameCount s) mod 3 =? 0)%nat; proj; done.
Qed.

Lemma cleanupStep_static (s : GameState) :
  let s' := (cleanupStep s).1 in
  card s' = card s /\
  marked s' = marked s ∪ (list_to_set (cleanupStep s).2 ∩ list_to_set (pool s)) /\
  ballsLeft s' = ballsLeft s /\
  isPositioning s' = isPositioning s /\
  isPositioningRef s' = isPositioningRef s /\
  lastUpdateRef s' = lastUpdateRef s.
Proof.
  unfold cleanupStep. destruct (_ && _).
  2: { cbn [fst snd]. repeat (split; [done || set_solver|]). done. }
  destruct (cleanupPegs _ _) as [next hitNums]. cbn [fst snd].
  destruct (markNumbers_marked hitNums s) as [Hm Hc].
  destruct (markNumbers_shape hitNums s) as (m & d & E & _).
  cbv zeta in Hm, Hc. rewrite E in *. proj. split_and!; done.
Qed.

Lemma frame_static (now : Q) (s : GameState) :
  let s' := (handle powQ sqrtQ (Frame now) s).1 in
  card s' = card s /\
  marked s' = marked s ∪
    (list_to_set (handle powQ sqrtQ (Frame now) s).2 ∩ list_to_set (pool s)) /\
  ballsLeft s' = ballsLeft s /\
  isPositioning s' = isPositioning s /\
  isPositioningRef s' = isPositioningRef s.
Proof.
  cbn [handle]. unfold step.
  destruct (render_static
              (if negb (PBall.dropping (ballRef (with_lastUpdateRef now s)))
               then cleanupStep (with_lastUpdateRef now s)
               else (physicsStep powQ sqrtQ (frameDt now s)
                       (with_lastUpdateRef now s), [])).1)
    as (R1 & R2 & R3 & R4 & R5 & _).
  destruct (negb _).
  - destruct (cleanupStep_static (with_lastUpdateRef now s))
      as (C1 & C2 & C3 & C4 & C5 & _).
    destruct (cleanupStep _) as [s1 out]. cbn [fst snd] in *.
    rewrite R1, R2, R3, R4, R5, C1, C2, C3, C4, C5. done.
  - destruct (physicsStep_static (frameDt now s) (with_lastUpdateRef now s))
      as (C1 & C2 & C3 & C4 & C5 & _).
    cbn [fst snd] in *.
    rewrite R1, R2, R3, R4, R5, C1, C2, C3, C4, C5.
    repeat (split; [done || set_solver|]). done.
Qed.

Lemma positionBall_static (nx : number) (s : GameState) :
  let s' := positionBall nx s in
  card s' = card s /\ marked s' = marked s /\ ballsLeft s' = ballsLeft s /\
  pegs s' = pegs s /\ hitPegIdsRef s' = hitPegIdsRef s /\
  isPositioning s' = isPositioning s /\
  isPositioningRef s' = isPositioningRef s /\ rng s' = rng s.
Proof. unfold positionBall. destruct (PBall.dropping _); proj; done. Qed.

Lemma handleStart_static (x01 : Q) (s : GameState) :
  let s' := handleStart x01 s in
  card s' = card s /\ marked s' = marked s /\ ballsLeft s' = ballsLeft s /\
  pegs s' = pegs s /\ hitPegIdsRef s' = hitPegIdsRef s /\ rng s' = rng s.
Proof.
  unfold handleStart. destruct (_ || _); [done|].
  match goal with |- context [positionBall ?nx ?s0] =>
    destruct (positionBall_static nx s0) as (E1 & E2 & E3 & E4 & E5 & _ & _ & E8)
  end.
  cbv zeta. rewrite E1, E2, E3, E4, E5, E8.
  unfold setIsPositioning; proj; destruct (eqb _ _); done.
Qed.

Lemma handleMove_static (x01 : Q) (s : GameState) :
  let s' := handleMove x01 s in
  card s' = card s /\ marked s' = marked s /\ ballsLeft s' = ballsLeft s /\
  pegs s' = pegs s /\ hitPegIdsRef s' = hitPegIdsRef s /\ rng s' = rng s.
Proof.
  unfold handleMove. destruct (negb _); [done|]. destruct (_ || _); [done|].
  match goal with |- context [positionBall ?nx ?s0] =>
    destruct (positionBall_static nx s0) as (E1 & E2 & E3 & E4 & E5 & _ & _ & E8)
  end.
  cbv zeta. by rewrite E1, E2, E3, E4, E5, E8.
Qed.

Lemma handleEnd_static (s : GameState) :
  let s' := handleEnd s in
  card s' = card s /\ marked s' = marked s /\ pegs s' = pegs s /\
  (ballsLeft s' = ballsLeft s \/
   (0 < ballsLeft s)%Z /\ ballsLeft s' = (ballsLeft s - 1)%Z).
Proof.
  unfold handleEnd, setIsPositioning, setBallsLeft, Math_random; proj.
  destruct (negb _); [destruct (eqb _ _); proj; auto|].
  destruct (PBall.dropping _); cbn [orb]; [destruct (eqb _ _); proj; auto|].
  destruct (Z.leb_spec (ballsLeft s) 0); [destruct (eqb _ _); proj; auto|].
  destruct (eqb _ _); proj; destruct (Z.eqb_spec (Z.max 0 (ballsLeft s - 1)) (ballsLeft s));
    proj; repeat (split; [done|]); right; lia.
Qed.

Lemma resetBoard_static (s : GameState) :
  let s' := resetBoard s in
  card s' = card s /\ marked s' = marked s /\ ballsLeft s' = ballsLeft s /\
  isPositioning s' = isPositioning s /\
  isPositioningRef s' = isPositioningRef s /\
  pegs s' = (generatePegs 30 (rng s)).1 /\
  ball s' = spawnBall /\ ballRef s' = spawnBall /\ hitPegIdsRef s' = ∅ /\
  ballSet s' = true /\ dirty s' = true /\ rng s' = (generatePegs 30 (rng s)).2.
Proof.
  unfold resetBoard. destruct (generatePegs _ _) as [newPegs g1]. proj. done.
Qed.

End Inputs.

Section Games.

Variable powQ : Q -> Q -> Q.
Variable sqrtQ : Q -> Q.

Lemma handle_static (e : Event) (s : GameState) :
  e <> NewGame ->
  card (handle powQ sqrtQ e s).1 = card s /\
  marked (handle powQ sqrtQ e s).1
  = marked s ∪ (list_to_set (handle powQ sqrtQ e s).2 ∩ list_to_set (pool s)) /\
  (ballsLeft (handle powQ sqrtQ e s).1 = ballsLeft s \/
   (0 < ballsLeft s)%Z /\
   ballsLeft (handle powQ sqrtQ e s).1 = (ballsLeft s - 1)%Z).
Proof.
  intros He. destruct e; try done.
  - destruct (frame_static powQ sqrtQ now s) as (E1 & E2 & E3 & _). auto.
  - cbn [handle fst snd].
    destruct (render_static (handleStart x01 s)) as (R1 & R2 & R3 & _).
    destruct (handleStart_static x01 s) as (E1 & E2 & E3 & _).
    rewrite R1, R2, R3, E1, E2, E3. split_and!; [done|set_solver|auto].
  - cbn [handle fst snd].
    destruct (render_static (handleMove x01 s)) as (R1 & R2 & R3 & _).
    destruct (handleMove_static x01 s) as (E1 & E2 & E3 & _).
    rewrite R1, R2, R3, E1, E2, E3. split_and!; [done|set_solver|auto].
  - cbn [handle fst snd].
    destruct (render_static (handleEnd s)) as (R1 & R2 & R3 & _).
    destruct (handleEnd_static s) as (E1 & E2 & _ & E3).
    rewrite R1, R2, R3, E1, E2. split_and!; [done|set_solver|auto].
  - cbn [handle fst snd].
    destruct (render_static (resetBoard s)) as (R1 & R2 & R3 & _).
    destruct (resetBoard_static s) as (E1 & E2 & E3 & _).
    rewrite R1, R2, R3, E1, E2, E3. split_and!; [done|set_solver|auto].
Qed.

Lemma setBallsLeft_static (n : Z) (s : GameState) :
  let s' := setBallsLeft n s in
  ballsLeft s' = n /\ card s' = card s /\ marked s' = marked s /\
  rng s' = rng s.
Proof.
  unfold setBallsLeft. destruct (Z.eqb_spec n (ballsLeft s)); proj; done.
Qed.

Lemma newGame_static (s : GameState) :
  let s' := (handle powQ sqrtQ NewGame s).1 in
  card s' = (generateBingoCard (rng s)).1 /\ marked s' = ∅ /\
  ballsLeft s' = 5%Z /\
  pegs s' = (generatePegs 30 (generateBingoCard (rng s)).2).1 /\
  ball s' = spawnBall /\ ballRef s' = spawnBall /\ hitPegIdsRef s' = ∅ /\
  rng s' = (generatePegs 30 (generateBingoCard (rng s)).2).2.
Proof.
  cbn [handle fst]. unfold newGame.
  destruct (generateBingoCard (rng s)) as [c g1]. cbn [fst snd].
  pose proof (setBallsLeft_static 5 (setMarked ∅ (setCard c (with_rng g1 s))))
    as (F3 & F1 & F2 & F4).
  proj.
  pose proof (resetBoard_static
                (setBallsLeft 5 (setMarked ∅ (setCard c (with_rng g1 s)))))
    as (E1 & E2 & E3 & _ & _ & E4 & E5 & E6 & E7 & E8 & E9 & E10).
  rewrite F1 in E1. rewrite F2 in E2. rewrite F3 in E3.
  rewrite F4 in E4, E10.
  revert E1 E2 E3 E4 E5 E6 E7 E8 E9 E10.
  generalize (resetBoard
                (setBallsLeft 5 (setMarked ∅ (setCard c (with_rng g1 s))))).
  clear F1 F2 F3 F4.
  intros s1 E1 E2 E3 E4 E5 E6 E7 E8 E9 E10. unfold render. rewrite E9, E8.
  cbn [card marked pegs ballsLeft ball ballRef hitPegIdsRef rng].
  rewrite E1, E2, E3, E4, E5, E7, E10. split_and!; reflexivity.
Qed.

Lemma run_cons (e : Event) (es : list Event) (s : GameState) :
  run powQ sqrtQ (e :: es) s
  = ((run powQ sqrtQ es (handle powQ sqrtQ e s).1).1,
     (handle powQ sqrtQ e s).2 ++ (run powQ sqrtQ es (handle powQ sqrtQ e s).1).2).
Proof.
  cbn [run]. destruct (handle _ _ e s) as [s1 out1]. cbn [fst snd].
  by destruct (run _ _ es s1) as [s2 out2].
Qed.

Lemma union_inter_app (M P : gset Z) (l1 l2 : list Z) :
  M ∪ (list_to_set l1 ∩ P) ∪ (list_to_set l2 ∩ P)
  = M ∪ (list_to_set (l1 ++ l2) ∩ P).
Proof. set_solver. Qed.

Lemma run_static (es : list Event) (s : GameState) :
  Forall (fun e => e <> NewGame) es ->
  card (run powQ sqrtQ es s).1 = card s /\
  marked (run powQ sqrtQ es s).1
  = marked s ∪ (list_to_set (run powQ sqrtQ es s).2 ∩ list_to_set (pool s)) /\
  (ballsLeft (run powQ sqrtQ es s).1 <= ballsLeft s)%Z.
Proof.
  intros Hes. revert s. induction Hes as [|e es He _ IH]; intros s.
  { cbn [run fst snd]. split_and!; [done|set_solver|lia]. }
  rewrite run_cons. cbn [fst snd].
  destruct (handle_static e s He) as (H1 & H2 & H3).
  destruct (IH (handle powQ sqrtQ e s).1) as (I1 & I2 & I3).
  rewrite I1, I2, H1, H2. unfold pool. rewrite H1.
  split_and!; [done|apply union_inter_app|lia].
Qed.

Lemma handle_ballsLeft (e : Event) (s : GameState) :
  (0 <= ballsLeft s <= 5)%Z ->
  (0 <= ballsLeft (handle powQ sqrtQ e s).1 <= 5)%Z.
Proof.
  intros Hs.
  assert (e = NewGame \/ e <> NewGame) as [->|He]
    by (destruct e; auto; right; discriminate).
  - destruct (newGame_static s) as (_ & _ & -> & _). lia.
  - destruct (handle_static e s He) as (_ & _ & [->|[? ->]]); lia.
Qed.

End Games.

(** X9. Without a new game, the card stays the same and the
    marked set grows by exactly the revealed numbers that are on the card. *)
Theorem marked_are_revealed_card_numbers powQ sqrtQ (es : list Event)
    (s : GameState) :
  Forall (fun e => e <> NewGame) es ->
  card (run powQ sqrtQ es s).1 = card s /\
  marked (run powQ sqrtQ es s).1
  = marked s ∪ (list_to_set (run powQ sqrtQ es s).2 ∩ list_to_set (pool s)).
Proof.
  intros Hes. destruct (run_static powQ sqrtQ es s Hes) as (H1 & H2 & _). done.
Qed.

(** X10. Without a new game the number of balls left never goes
    up: neither a frame nor a board reset gives a ball back. *)
Theorem ballsLeft_never_refunded powQ sqrtQ (es : list Event)
    (s : GameState) :
  Forall (fun e => e <> NewGame) es ->
  (ballsLeft (run powQ sqrtQ es s).1 <= ballsLeft s)%Z.
Proof.
  intros Hes. destruct (run_static powQ sqrtQ es s Hes) as (_ & _ & H). done.
Qed.


Lemma marked_are_revealed_card_numbers_witness :
  let r := run powApprox sqrtApprox [Frame 16; PointerDown 0.3] markingSample in
  r.2 = [28; 75]%Z /\ marked r.1 = {[28%Z]}.
Proof.
  destruct (marked_are_revealed_card_numbers powApprox sqrtApprox
              [Frame 16; PointerDown 0.3] markingSample) as [_ E].
  - repeat constructor; discriminate.
  - cbv zeta. rewrite E. vm_compute. split; reflexivity.
Defined.

Lemma ballsLeft_never_refunded_witness :
  (ballsLeft (run powApprox sqrtApprox [PointerDown 0.3; PointerUp; ResetBoard]
                (initialState 0 cycleDraws)).1 <= 5)%Z.
Proof.
  apply (ballsLeft_never_refunded powApprox sqrtApprox
           [PointerDown 0.3; PointerUp; ResetBoard] (initialState 0 cycleDraws)).
  repeat constructor; discriminate.
Defined.

(** ** Pointer input *)

Lemma render_positionBall (nx : number) (s : GameState) :
  PBall.dropping (ball s) = false ->
  let target := PBall.mk nx (PBall.y (ball s)) (PBall.vx (ball s))
                         (PBall.vy (ball s)) false in
  let s' := render (positionBall nx s) in
  ball s' = target /\ ballRef s' = target /\
  isPositioningRef s' = isPositioningRef s /\ rng s' = rng s /\
  ballsLeft s' = ballsLeft s /\ hitPegIdsRef s' = hitPegIdsRef s.
Proof.
  intros Hd. unfold positionBall. rewrite Hd. unfold render. proj. done.
Qed.

Section Pointer.

Variable powQ : Q -> Q -> Q.
Variable sqrtQ : Q -> Q.

Lemma pointerDown_idle (x01 : Q) (s : GameState) :
  consistent s -> PBall.dropping (ballRef s) = false -> (0 < ballsLeft s)%Z ->
  let target := PBall.mk (clamp x01 0.06%Q 0.94%Q) (PBall.y (ball s))
                         (PBall.vx (ball s)) (PBall.vy (ball s)) false in
  let s' := (handle powQ sqrtQ (PointerDown x01) s).1 in
  ball s' = target /\ ballRef s' = target /\ isPositioningRef s' = true /\
  rng s' = rng s /\ ballsLeft s' = ballsLeft s /\
  hitPegIdsRef s' = hitPegIdsRef s.
Proof.
  intros Hs Hd Hb. cbn [handle fst]. unfold handleStart. rewrite Hd.
  destruct (Z.leb_spec (ballsLeft s) 0) as [?|_]; [lia|]. cbn [orb].
  destruct Hs as (_ & _ & _ & _ & _ & Hdd & _). rewrite <- Hdd in Hd.
  match goal with |- context [positionBall ?nx ?s0] =>
    assert (ball s0 = ball s /\ isPositioningRef s0 = true /\ rng s0 = rng s /\
            ballsLeft s0 = ballsLeft s /\ hitPegIdsRef s0 = hitPegIdsRef s)
      as (E1 & E2 & E3 & E4 & E5)
      by (unfold setIsPositioning; proj; destruct (eqb _ _); proj; done);
    destruct (render_positionBall nx s0 ltac:(by rewrite E1))
      as (R1 & R2 & R3 & R4 & R5 & R6)
  end.
  cbv zeta. rewrite R1, R2, R3, R4, R5, R6, E1, E2, E3, E4, E5. done.
Qed.

Lemma pointerMove_idle (x01 : Q) (s : GameState) :
  consistent s -> PBall.dropping (ballRef s) = false -> (0 < ballsLeft s)%Z ->
  isPositioningRef s = true ->
  let target := PBall.mk (clamp x01 0.06%Q 0.94%Q) (PBall.y (ball s))
                         (PBall.vx (ball s)) (PBall.vy (ball s)) false in
  let s' := (handle powQ sqrtQ (PointerMove x01) s).1 in
  ball s' = target /\ ballRef s' = target /\ isPositioningRef s' = true /\
  rng s' = rng s /\ ballsLeft s' = ballsLeft s /\
  hitPegIdsRef s' = hitPegIdsRef s.
Proof.
  intros Hs Hd Hb Hp. cbn [handle fst]. unfold handleMove. rewrite Hp, Hd.
  destruct (Z.leb_spec (ballsLeft s) 0) as [?|_]; [lia|]. cbn [orb negb].
  destruct Hs as (_ & _ & _ & _ & _ & Hdd & _). rewrite <- Hdd in Hd.
  destruct (render_positionBall (clamp x01 0.06%Q 0.94%Q) s Hd)
    as (R1 & R2 & R3 & R4 & R5 & R6).
  cbv zeta. rewrite R1, R2, R3, R4, R5, R6, Hp. done.
Qed.

End Pointer.

(** X11. While the ball is dropping or no ball is left, pressing
    on the board does nothing at all. *)
Theorem pointerDown_ignored powQ sqrtQ (x01 : Q) (s : GameState) :
  consistent s ->
  PBall.dropping (ballRef s) = true \/ (ballsLeft s <= 0)%Z ->
  handle powQ sqrtQ (PointerDown x01) s = (s, []).
Proof.
  intros Hs Hgate. cbn [handle]. unfold handleStart.
  assert (PBall.dropping (ballRef s) || (ballsLeft s <=? 0)%Z = true) as ->.
  { destruct Hgate as [->|H]; [done|].
    apply Z.leb_le in H. rewrite H. by destruct (PBall.dropping _). }
  unfold render. destruct Hs as (-> & _). done.
Qed.

Lemma pointerDown_ignored_witness :
  handle powApprox sqrtApprox (PointerDown 0.3) fallingSample
  = (fallingSample, []).
Proof.
  apply (pointerDown_ignored powApprox sqrtApprox).
  - unfold consistent. vm_compute. repeat split.
  - left. reflexivity.
Defined.

(** X12. Moving the pointer does nothing unless a press has
    started positioning, the ball is at rest and a ball is left. *)
Theorem pointerMove_ignored powQ sqrtQ (x01 : Q) (s : GameState) :
  consistent s ->
  isPositioningRef s = false \/ PBall.dropping (ballRef s) = true \/
    (ballsLeft s <= 0)%Z ->
  handle powQ sqrtQ (PointerMove x01) s = (s, []).
Proof.
  intros Hs Hgate. cbn [handle]. unfold handleMove.
  assert (render s = s) as Hr by (unfold render; destruct Hs as (-> & _); done).
  destruct (isPositioningRef s); cbn [negb]; [|by rewrite Hr].
  assert (PBall.dropping (ballRef s) || (ballsLeft s <=? 0)%Z = true) as ->.
  { destruct Hgate as [?|[->|H]]; [done|done|].
    apply Z.leb_le in H. rewrite H. by destruct (PBall.dropping _). }
  by rewrite Hr.
Qed.

Lemma pointerMove_ignored_witness :
  handle powApprox sqrtApprox (PointerMove 0.8) (initialState 0 cycleDraws)
  = (initialState 0 cycleDraws, []).
Proof.
  apply (pointerMove_ignored powApprox sqrtApprox).
  - apply initialState_consistent.
  - left. vm_compute. reflexivity.
Defined.

(** X13. Pressing on the board with the ball at rest and a ball
    left starts positioning and puts the ball at the pointer's x, clamped
    into [0.06, 0.94]; its height and velocity stay as they were. *)
Theorem pointerDown_positions powQ sqrtQ (x01 : Q) (s : GameState) :
  consistent s -> PBall.dropping (ballRef s) = false -> (0 < ballsLeft s)%Z ->
  let s' := (handle powQ sqrtQ (PointerDown x01) s).1 in
  Num.within 0.06 0.94 (PBall.x (ballRef s')) /\
  ballRef s'
  = PBall.mk (clamp x01 0.06%Q 0.94%Q) (PBall.y (ball s)) (PBall.vx (ball s))
             (PBall.vy (ball s)) false /\
  ball s' = ballRef s' /\ isPositioningRef s' = true.
Proof.
  intros Hs Hd Hb.
  destruct (pointerDown_idle powQ sqrtQ x01 s Hs Hd Hb) as (E1 & E2 & E3 & _).
  cbv zeta. rewrite E1, E2, E3. cbn [PBall.x].
  split_and!; try done. apply clamp_fin. lra.
Qed.

Lemma pointerDown_positions_witness :
  ballRef (handle powApprox sqrtApprox (PointerDown 2) (initialState 0 cycleDraws)).1
  = PBall.mk 0.94%Q 0.06%Q 0%Q 0%Q false.
Proof.
  destruct (pointerDown_positions powApprox sqrtApprox 2 (initialState 0 cycleDraws))
    as (_ & E & _).
  - apply initialState_consistent.
  - vm_compute. reflexivity.
  - vm_compute. reflexivity.
  - rewrite E. vm_compute. reflexivity.
Defined.

(** X14. Press, drag and release with the ball at rest and a ball
    left: the ball drops from the last pointer position, clamped into
    [0.06, 0.94], at height 0.06, one ball is used up and the touched set
    is empty. *)
Theorem press_drag_release powQ sqrtQ (x0 x1 : Q) (s : GameState) :
  consistent s -> PBall.dropping (ballRef s) = false -> (0 < ballsLeft s)%Z ->
  let s' := (run powQ sqrtQ [PointerDown x0; PointerMove x1; PointerUp] s).1 in
  ballRef s' = released (PBall.mk (clamp x1 0.06%Q 0.94%Q) 0%Q 0%Q 0%Q false)
                        (nextDraw s) /\
  ball s' = ballRef s' /\
  ballsLeft s' = (ballsLeft s - 1)%Z /\ hitPegIdsRef s' = ∅.
Proof.
  intros Hs Hd Hb. rewrite !(run_cons powQ sqrtQ). cbn [run fst snd].
  pose proof (handle_consistent powQ sqrtQ (PointerDown x0) s Hs) as Hs1.
  destruct (pointerDown_idle powQ sqrtQ x0 s Hs Hd Hb) as (A1 & A2 & A3 & A4 & A5 & A6).
  set (s1 := (handle powQ sqrtQ (PointerDown x0) s).1) in *.
  assert (PBall.dropping (ballRef s1) = false) as Hd1 by (by rewrite A2).
  pose proof (handle_consistent powQ sqrtQ (PointerMove x1) s1 Hs1) as Hs2.
  destruct (pointerMove_idle powQ sqrtQ x1 s1 Hs1 Hd1 ltac:(lia) A3)
    as (B1 & B2 & B3 & B4 & B5 & B6).
  set (s2 := (handle powQ sqrtQ (PointerMove x1) s1).1) in *.
  assert (PBall.dropping (ballRef s2) = false) as Hd2 by (by rewrite B2).
  destruct (handleEnd_release powQ sqrtQ s2 Hs2 Hd2 ltac:(lia) B3)
    as (C1 & C2 & C3 & C4 & _).
  rewrite C4, C3, C1, C2, B5, A5. unfold released, nextDraw.
  rewrite B1, B4, A4. cbn [PBall.x]. done.
Qed.

Lemma press_drag_release_witness :
  let s' := (run powApprox sqrtApprox
               [PointerDown 0.2; PointerMove 0.7; PointerUp]
               (initialState 0 cycleDraws)).1 in
  PBall.x (ballRef s') = Fin 0.7 /\ PBall.dropping (ballRef s') = true /\
  ballsLeft s' = 4%Z.
Proof.
  destruct (press_drag_release powApprox sqrtApprox 0.2 0.7
              (initialState 0 cycleDraws)) as (E1 & _ & E2 & _).
  - apply initialState_consistent.
  - vm_compute. reflexivity.
  - vm_compute. reflexivity.
  - cbv zeta. rewrite E1, E2. vm_compute. repeat split.
Defined.


(** ** Balls, resets and new games *)

Lemma initialState_fields (t0 : Q) (g : RNG) :
  let s := initialState t0 g in
  card s = (generateBingoCard g).1 /\ marked s = ∅ /\ ballsLeft s = 5%Z /\
  pegs s = (generatePegs 30 (generateBingoCard g).2).1 /\
  ball s = spawnBall /\ ballRef s = spawnBall /\ hitPegIdsRef s = ∅ /\
  rng s = (generatePegs 30 (generateBingoCard g).2).2 /\
  isPositioningRef s = false.
Proof.
  unfold initialState. destruct (generateBingoCard g) as [c g1].
  cbn [fst snd]. destruct (generatePegs 30 g1) as [ps g2]. proj. done.
Qed.

Lemma run_ballsLeft powQ sqrtQ (es : list Event) (s : GameState) :
  (0 <= ballsLeft s <= 5)%Z ->
  (0 <= ballsLeft (run powQ sqrtQ es s).1 <= 5)%Z.
Proof.
  revert s. induction es as [|e es IH]; intros s Hs; [done|].
  rewrite run_cons. cbn [fst]. by apply IH, handle_ballsLeft.
Qed.

Lemma generatePegs_board (g : RNG) :
  let ps := (generatePegs 30 g).1 in
  length ps = 30%nat /\ map Peg.id ps = map pegId (seq 0 30) /\
  NoDup (map Peg.id ps) /\ Forall fresh ps /\ Forall inField ps.
Proof.
  destruct (generatePegs_shape 30 g) as (H1 & H2 & H3).
  destruct (generatePegs_inv 30 g) as (H4 & _).
  pose proof (generatePegs_inField 30 g ltac:(lia)) as H5.
  cbv zeta. split; [exact H1|]. split; [exact H4|]. split; [exact H2|].
  split; [|exact H5].
  eapply Forall_impl; [exact H3|]. intros p [Hp _]. exact Hp.
Qed.

(** X15. In every state the game reaches, the number of balls
    left is between 0 and 5. *)
Theorem ballsLeft_bounds powQ sqrtQ (t0 : Q) (g : RNG) (es : list Event) :
  (0 <= ballsLeft (run powQ sqrtQ es (initialState t0 g)).1 <= 5)%Z.
Proof.
  apply run_ballsLeft.
  destruct (initialState_fields t0 g) as (_ & _ & -> & _). lia.
Qed.

Lemma handle_out_of_balls powQ sqrtQ (e : Event) (s : GameState) :
  consistent s -> (ballsLeft s <= 0)%Z -> PBall.dropping (ballRef s) = false ->
  e <> NewGame ->
  PBall.dropping (ballRef (handle powQ sqrtQ e s).1) = false /\
  ballsLeft (handle powQ sqrtQ e s).1 = ballsLeft s.
Proof.
  intros Hs Hb Hd He. split.
  - assert (e = PointerUp \/ e <> PointerUp) as [->|Hup]
      by (destruct e; auto; right; discriminate).
    + destruct (handleEnd_noop powQ sqrtQ s Hs) as (_ & -> & _); auto.
    + by apply idle_stays.
  - destruct (handle_static powQ sqrtQ e s He) as (_ & _ & [->|[? _]]); [done|lia].
Qed.

(** X16. Once no ball is left and the ball is at rest, no input
    but a new game starts another drop: the ball stays at rest and the
    count stays where it is. *)
Theorem out_of_balls_no_drop powQ sqrtQ (es : list Event) (s : GameState) :
  consistent s -> (ballsLeft s <= 0)%Z -> PBall.dropping (ballRef s) = false ->
  Forall (fun e => e <> NewGame) es ->
  PBall.dropping (ballRef (run powQ sqrtQ es s).1) = false /\
  ballsLeft (run powQ sqrtQ es s).1 = ballsLeft s.
Proof.
  intros Hs Hb Hd Hes. revert s Hs Hb Hd.
  induction Hes as [|e es He _ IH]; intros s Hs Hb Hd; [done|].
  rewrite run_cons. cbn [fst].
  destruct (handle_out_of_balls powQ sqrtQ e s Hs Hb Hd He) as [H1 H2].
  destruct (IH (handle powQ sqrtQ e s).1) as [I1 I2];
    [by apply handle_consistent | lia | done |].
  split; [done | congruence].
Qed.

Lemma out_of_balls_no_drop_witness :
  let s := with_ballsLeft 0 (initialState 0 cycleDraws) in
  let s' := (run powApprox sqrtApprox
               [PointerDown 0.3; PointerMove 0.6; PointerUp; Frame 16] s).1 in
  PBall.dropping (ballRef s') = false /\ ballsLeft s' = 0%Z.
Proof.
  apply (out_of_balls_no_drop powApprox sqrtApprox
           [PointerDown 0.3; PointerMove 0.6; PointerUp; Frame 16]
           (with_ballsLeft 0 (initialState 0 cycleDraws))).
  - unfold consistent. vm_compute. repeat split.
  - vm_compute. discriminate.
  - vm_compute. reflexivity.
  - repeat constructor; discriminate.
Defined.

(** X17. Reset Board, in any state and even in the middle of a
    drop: the card, the marked set and the balls left stay as they are;
    the board gets 30 new pegs with distinct ids, none hit or removed, all
    within the peg field; the ball is back at rest at (0.5, 0.06) and the
    touched set is empty. *)
Theorem resetBoard_effect powQ sqrtQ (s : GameState) :
  let s' := (handle powQ sqrtQ ResetBoard s).1 in
  card s' = card s /\ marked s' = marked s /\ ballsLeft s' = ballsLeft s /\
  length (pegs s') = 30%nat /\ NoDup (map Peg.id (pegs s')) /\
  Forall fresh (pegs s') /\ Forall inField (pegs s') /\
  ball s' = spawnBall /\ ballRef s' = spawnBall /\ hitPegIdsRef s' = ∅.
Proof.
  cbn [handle fst].
  destruct (resetBoard_static s)
    as (E1 & E2 & E3 & _ & _ & E4 & E5 & E6 & E7 & E8 & E9 & _).
  destruct (generatePegs_board (rng s)) as (G1 & _ & G2 & G3 & G4).
  revert E1 E2 E3 E4 E5 E6 E7 E8 E9. generalize (resetBoard s).
  intros s1 E1 E2 E3 E4 E5 E6 E7 E8 E9. unfold render. rewrite E9, E8.
  cbn [card marked pegs ballsLeft ball ballRef hitPegIdsRef].
  rewrite E1, E2, E3, E4, E5, E7.
  split_and!; first [reflexivity | assumption].
Qed.

(** X18. New Game, in any state: a new card with nothing marked
    and no bingo, five balls, a new board of 30 pegs, the ball at rest at
    (0.5, 0.06), and the physics' pool and marked set in step with the new
    card. *)
Theorem newGame_effect powQ sqrtQ (s : GameState) :
  let s' := (handle powQ sqrtQ NewGame s).1 in
  card s' = (generateBingoCard (rng s)).1 /\ marked s' = ∅ /\
  hasBingo (card s') (marked s') = Some false /\
  ballsLeft s' = 5%Z /\ length (pegs s') = 30%nat /\
  Forall fresh (pegs s') /\ ballRef s' = spawnBall /\ hitPegIdsRef s' = ∅ /\
  poolRef s' = cardNumberPool (card s') /\ markedRef s' = ∅.
Proof.
  destruct (newGame_static powQ sqrtQ s)
    as (E1 & E2 & E3 & E4 & E5 & E6 & E7 & _).
  assert (consistent (handle powQ sqrtQ NewGame s).1)
    as (_ & _ & _ & Hpool & Hmarked & _).
  { cbn [handle fst]. apply render_consistent. unfold newGame.
    destruct (generateBingoCard (rng s)) as [c g1].
    unfold resetBoard. destruct (generatePegs _ _) as [ps g2].
    unfold settling, setBallsLeft. destruct (_ =? _)%Z; proj; done. }
  destruct (generatePegs_board (generateBingoCard (rng s)).2)
    as (G1 & _ & _ & G3 & _).
  cbv zeta. rewrite Hpool, Hmarked. unfold pool. rewrite E1, E2, E3, E4, E6, E7.
  pose proof (generateBingoCard_no_bingo (rng s)) as Hb.
  split_and!; first [reflexivity | assumption].
Qed.

(** ** Pegs over a round *)

Lemma scan_updates_live (x y : number) (pool : list Z) (marked : gset Z)
    (ps : list Peg) (st : ScanState) :
  Forall (fun u => u ∈ scanUpdates st \/
                   exists q, q ∈ ps /\ Peg.id q = u.1 /\ Peg.removed q = false)
         (scanUpdates (foldl (scanPeg x y pool marked) st ps)).
Proof.
  revert st. induction ps as [|p ps IH]; intros st; cbn [foldl].
  - apply Forall_forall. intros u Hu. by left.
  - eapply Forall_impl; [apply IH|]. cbn beta. intros u [Hu|(q & Hq & Hid & Hh)].
    + destruct (scanPeg_updates x y pool marked st p) as [E|(_ & Hr & num & E)];
        rewrite E in Hu; [by left|].
      apply elem_of_app in Hu as [Hu|Hu%list_elem_of_singleton]; [by left|].
      right. exists p. subst u. split; [left|done].
    + right. exists q. split; [by right | done].
Qed.

Lemma removed_peg_not_updated (x y : number) (s : GameState) (i : nat) (p : Peg) :
  NoDup (map Peg.id (pegsRef s)) ->
  pegsRef s !! i = Some p -> Peg.removed p = true ->
  updated (scanUpdates (scanPegs x y s)) p = p.
Proof.
  intros Hnd Hi Hh. apply updated_untouched. intros Hin.
  apply list_elem_of_fmap in Hin as ([idu num] & Hid & Hu).
  cbn [fst] in Hid. subst idu.
  pose proof (scan_updates_live x y (poolRef s) (markedRef s) (pegsRef s)
                (mkScan (hitPegIdsRef s) [] None PosInf (rng s))) as Hall.
  rewrite Forall_forall in Hall. apply Hall in Hu.
  cbn [scanUpdates fst] in Hu.
  destruct Hu as [Hu|(q & Hq & Hid & Hq')]; [by apply elem_of_nil in Hu|].
  apply list_elem_of_lookup in Hq as [j Hj].
  assert (i = j) as <-.
  { eapply NoDup_lookup; [exact Hnd | |].
    - rewrite list_lookup_fmap, Hi. reflexivity.
    - rewrite list_lookup_fmap, Hj. cbn. by rewrite Hid. }
  congruence.
Qed.

Lemma liveStep_pegStep (p p' : Peg) : liveStep p p' -> pegStep p p'.
Proof. unfold liveStep, pegStep. intros [?|[_ [?|?]]]; auto. Qed.

Lemma liveStep_stays (p p' : Peg) : liveStep p p' -> stays p p'.
Proof.
  intros [->|[Hr [->|(_ & n & ->)]]]; unfold stays; cbn;
    split_and!; try done; congruence.
Qed.

Lemma stays_refl (p : Peg) : stays p p.
Proof. unfold stays. done. Qed.

Lemma stays_trans (p1 p2 p3 : Peg) : stays p1 p2 -> stays p2 p3 -> stays p1 p3.
Proof.
  intros (A1 & A2 & A3 & A4) (B1 & B2 & B3 & B4). unfold stays.
  split_and!; try congruence.
  intros Hr. specialize (A4 Hr). subst p2. auto.
Qed.

Section LiveSteps.

Variable powQ : Q -> Q -> Q.
Variable sqrtQ : Q -> Q.

Lemma handle_liveStep (e : Event) (s : GameState) :
  consistent s -> NoDup (map Peg.id (pegs s)) -> noReset e ->
  Forall2 liveStep (pegs s) (pegs (handle powQ sqrtQ e s).1).
Proof.
  intros Hs Hnd He.
  assert (forall l : list Peg, Forall2 liveStep l l) as Hrefl
    by (intros l; apply Forall2_refl_on; by left).
  destruct e; cbn [noReset] in He; try done; cbn [handle].
  - assert (Forall2 liveStep (pegs s) (pegs (step powQ sqrtQ now s).1)).
    { unfold step.
      pose proof (with_lastUpdateRef_consistent now s Hs) as Hs'.
      destruct Hs' as (_ & _ & Hp & _).
      destruct (negb _).
      - unfold cleanupStep. destruct (_ && _); [|apply Hrefl].
        pose proof (cleanupPegs_next (hitPegIdsRef (with_lastUpdateRef now s))
                      (pegsRef (with_lastUpdateRef now s))) as Hnext.
        destruct (cleanupPegs _ _) as [next hitNums]. cbn [fst] in Hnext.
        proj. subst next. rewrite Hp. apply Forall2_map_lookup.
        intros i p _. unfold cleaned, liveStep. case_decide; [|by left].
        destruct (Peg.removed p) eqn:Hr; [left; by apply withRemoved_removed|].
        right. auto.
      - cbn [fst].
        destruct (physicsStep_pegs_eq powQ sqrtQ (frameDt now s)
                    (with_lastUpdateRef now s)) as (x & y & [-> | ->]);
          [apply Hrefl|].
        apply Forall2_map_lookup. intros i p Hi. unfold liveStep.
        destruct (Peg.removed p) eqn:Hr.
        + left. eapply removed_peg_not_updated; rewrite ?Hp; eassumption.
        + destruct (Peg.hit p) eqn:Hh.
          * left. eapply hit_peg_not_updated; rewrite ?Hp; eassumption.
          * destruct (updated_cases
                        (scanUpdates (scanPegs x y (with_lastUpdateRef now s))) p)
              as [->|(_ & n & ->)]; [by left|]. right. eauto. }
    destruct (step _ _ _ _) as [s' out]. cbn [fst] in *.
    by rewrite render_pegs.
  - cbn [fst]. rewrite render_pegs.
    destruct (handleStart_static x01 s) as (_ & _ & _ & -> & _). apply Hrefl.
  - cbn [fst]. rewrite render_pegs.
    destruct (handleMove_static x01 s) as (_ & _ & _ & -> & _). apply Hrefl.
  - cbn [fst]. rewrite render_pegs.
    destruct (handleEnd_static s) as (_ & _ & -> & _). apply Hrefl.
Qed.

End LiveSteps.

(** X19. Until the board is reset no peg moves, and a peg that
    has been removed is never touched again: it keeps its flags and its
    number exactly as they were. *)
Theorem removed_pegs_stay powQ sqrtQ (es : list Event) (s : GameState) :
  consistent s -> NoDup (map Peg.id (pegs s)) -> Forall noReset es ->
  Forall2 stays (pegs s) (pegs (run powQ sqrtQ es s).1).
Proof.
  intros Hs Hnd Hes. revert s Hs Hnd.
  induction Hes as [|e es He _ IH]; intros s Hs Hnd.
  { apply Forall2_refl_on, stays_refl. }
  rewrite run_cons. cbn [fst].
  pose proof (handle_liveStep powQ sqrtQ e s Hs Hnd He) as Hstep.
  eapply Forall2_trans_on; [apply stays_trans | |].
  - eapply Forall2_impl; [exact Hstep | apply liveStep_stays].
  - apply IH; [by apply handle_consistent|].
    rewrite (pegStep_ids (pegs s)); [done|].
    eapply Forall2_impl; [exact Hstep | apply liveStep_pegStep].
Qed.

Lemma removed_pegs_stay_witness :
  let s1 := (handle powApprox sqrtApprox (Frame 16) markingSample).1 in
  Forall2 stays (pegs s1)
    (pegs (run powApprox sqrtApprox
             [PointerDown 0.4; PointerUp; Frame 32] s1).1).
Proof.
  apply (removed_pegs_stay powApprox sqrtApprox
           [PointerDown 0.4; PointerUp; Frame 32]).
  - apply handle_consistent. unfold consistent. vm_compute. repeat split.
  - eapply bool_decide_unpack. vm_compute. exact I.
  - repeat constructor.
Defined.

(** ** Counting pegs *)

Lemma remaining_cleaned (hitIds : gset string) (ps : list Peg) :
  (length (filter (fun p => Peg.removed p = false) (map (cleaned hitIds) ps))
   + length (filter (touchedLive hitIds) ps)
   = length (filter (fun p => Peg.removed p = false) ps))%nat.
Proof.
  induction ps as [|p ps IH]; [reflexivity|]. cbn [map].
  assert (Peg.removed p = true ->
          Peg.removed (cleaned hitIds p) <> false /\ ~ touchedLive hitIds p)
    as Hgone.
  { intros Hr. split; [|intros [? _]; congruence].
    unfold cleaned. case_decide; cbn; congruence. }
  assert (Peg.removed p = false -> Peg.id p ∈ hitIds ->
          Peg.removed (cleaned hitIds p) <> false /\ touchedLive hitIds p)
    as Htouched.
  { intros Hr Hin. split; [|done].
    unfold cleaned. rewrite decide_True by done. cbn. congruence. }
  assert (Peg.removed p = false -> Peg.id p ∉ hitIds ->
          Peg.removed (cleaned hitIds p) = false /\ ~ touchedLive hitIds p)
    as Hkept.
  { intros Hr Hout. split; [|intros [_ ?]; done].
    unfold cleaned. by rewrite decide_False. }
  destruct (Peg.removed p) eqn:Hr.
  - destruct (Hgone eq_refl) as [H1 H2].
    rewrite (filter_cons_False _ (cleaned hitIds p)) by exact H1.
    rewrite (filter_cons_False (touchedLive hitIds)) by exact H2.
    rewrite filter_cons_False by (rewrite Hr; discriminate). exact IH.
  - destruct (decide (Peg.id p ∈ hitIds)) as [Hin|Hout].
    + destruct (Htouched eq_refl Hin) as [H1 H2].
      rewrite (filter_cons_False _ (cleaned hitIds p)) by exact H1.
      rewrite (filter_cons_True (touchedLive hitIds)) by exact H2.
      rewrite filter_cons_True by exact Hr. cbn [length]. lia.
    + destruct (Hkept eq_refl Hout) as [H1 H2].
      rewrite (filter_cons_True _ (cleaned hitIds p)) by exact H1.
      rewrite (filter_cons_False (touchedLive hitIds)) by exact H2.
      rewrite filter_cons_True by exact Hr. cbn [length]. lia.
Qed.

Lemma remaining_updated (ups : list (string * option Z)) (ps : list Peg) :
  length (filter (fun p => Peg.removed p = false) (map (updated ups) ps))
  = length (filter (fun p => Peg.removed p = false) ps).
Proof.
  induction ps as [|p ps IH]; [reflexivity|]. cbn [map].
  assert (Peg.removed (updated ups p) = Peg.removed p) as Hr.
  { destruct (updated_cases ups p) as [->|(_ & n & ->)]; reflexivity. }
  destruct (Peg.removed p) eqn:Hp.
  - rewrite !filter_cons_False by congruence. exact IH.
  - rewrite !filter_cons_True by congruence. cbn [length]. by rewrite IH.
Qed.

Lemma length_omap_le {A B : Type} (f : A -> option B) (l : list A) :
  (length (omap f l) <= length l)%nat.
Proof.
  induction l as [|a l IH]; [done|]. cbn [omap list_omap].
  destruct (f a); cbn [length]; lia.
Qed.

Section Counting.

Variable powQ : Q -> Q -> Q.
Variable sqrtQ : Q -> Q.

Lemma remainingPegs_render (s : GameState) :
  remainingPegs (render s) = remainingPegs s.
Proof. unfold remainingPegs. by rewrite render_pegs. Qed.

Lemma handle_remaining (e : Event) (s : GameState) :
  consistent s -> noReset e ->
  (length (handle powQ sqrtQ e s).2 + remainingPegs (handle powQ sqrtQ e s).1
   <= remainingPegs s)%nat.
Proof.
  intros Hs He.
  destruct e; cbn [noReset] in He; try done; cbn [handle].
  - assert (length (step powQ sqrtQ now s).2
            + remainingPegs (step powQ sqrtQ now s).1 <= remainingPegs s)%nat.
    { unfold step.
      pose proof (with_lastUpdateRef_consistent now s Hs) as Hs'.
      destruct Hs' as (_ & _ & Hp & _).
      destruct (negb _).
      - unfold cleanupStep. destruct (_ && _); [|cbn [fst snd length]; done].
        pose proof (cleanupPegs_next (hitPegIdsRef (with_lastUpdateRef now s))
                      (pegsRef (with_lastUpdateRef now s))) as Hnext.
        pose proof (cleanupPegs_nums (hitPegIdsRef (with_lastUpdateRef now s))
                      (pegsRef (with_lastUpdateRef now s))) as Hnums.
        destruct (cleanupPegs _ _) as [next hitNums]. cbn [fst snd] in *.
        unfold remainingPegs. proj. subst next hitNums. rewrite Hp.
        pose proof (remaining_cleaned (hitPegIdsRef s) (pegs s)).
        pose proof (length_omap_le Peg.num
                      (filter (touchedLive (hitPegIdsRef s)) (pegs s))).
        lia.
      - cbn [fst snd length]. unfold remainingPegs.
        destruct (physicsStep_pegs_eq powQ sqrtQ (frameDt now s)
                    (with_lastUpdateRef now s)) as (x & y & [-> | ->]);
          [done|].
        by rewrite remaining_updated. }
    destruct (step _ _ _ _) as [s' out]. cbn [fst snd] in *.
    by rewrite remainingPegs_render.
  - cbn [fst snd length]. rewrite remainingPegs_render. unfold remainingPegs.
    destruct (handleStart_static x01 s) as (_ & _ & _ & -> & _). done.
  - cbn [fst snd length]. rewrite remainingPegs_render. unfold remainingPegs.
    destruct (handleMove_static x01 s) as (_ & _ & _ & -> & _). done.
  - cbn [fst snd length]. rewrite remainingPegs_render. unfold remainingPegs.
    destruct (handleEnd_static s) as (_ & _ & -> & _). done.
Qed.

Lemma run_ids (es : list Event) (s : GameState) :
  consistent s -> pegsOk s ->
  map Peg.id (pegs s) = map pegId (seq 0 30) ->
  map Peg.id (pegs (run powQ sqrtQ es s).1) = map pegId (seq 0 30).
Proof.
  revert s. induction es as [|e es IH]; intros s Hs Hok Hids; [done|].
  rewrite run_cons. cbn [fst].
  apply IH; [by apply handle_consistent | by apply handle_pegsOk |].
  destruct (noReset_dec e) as [He|He].
  - rewrite (pegStep_ids (pegs s)); [done|].
    apply handle_pegs; [done | apply Hok | done].
  - destruct (reset_pegs powQ sqrtQ e s He) as [g ->].
    by destruct (generatePegs_inv 30 g) as [-> _].
Qed.

End Counting.

(** X20. Every number revealed costs a peg: until the board is
    reset, the numbers revealed and the pegs still on the board together
    never exceed the pegs that were on the board before. *)
Theorem revealed_numbers_cost_pegs powQ sqrtQ (es : list Event)
    (s : GameState) :
  consistent s -> Forall noReset es ->
  (length (run powQ sqrtQ es s).2 + remainingPegs (run powQ sqrtQ es s).1
   <= remainingPegs s)%nat.
Proof.
  intros Hs Hes. revert s Hs.
  induction Hes as [|e es He _ IH]; intros s Hs; [cbn; lia|].
  rewrite run_cons. cbn [fst snd]. rewrite length_app.
  pose proof (handle_remaining powQ sqrtQ e s Hs He).
  pose proof (IH (handle powQ sqrtQ e s).1 (handle_consistent powQ sqrtQ e s Hs)).
  lia.
Qed.

Lemma revealed_numbers_cost_pegs_witness :
  let r := run powApprox sqrtApprox [Frame 16; PointerDown 0.3; PointerUp]
               markingSample in
  (length r.2 + remainingPegs r.1 <= remainingPegs markingSample)%nat /\
  r.2 = [28; 75]%Z /\ remainingPegs r.1 = 28%nat.
Proof.
  split.
  - apply (revealed_numbers_cost_pegs powApprox sqrtApprox
             [Frame 16; PointerDown 0.3; PointerUp] markingSample).
    + unfold consistent. vm_compute. repeat split.
    + repeat constructor.
  - vm_compute. split; reflexivity.
Defined.

(** X21. In every state the game reaches the board holds
    exactly 30 pegs, with the ids peg-0 to peg-29 in this order. *)
Theorem board_ids_fixed powQ sqrtQ (t0 : Q) (g : RNG) (es : list Event) :
  map Peg.id (pegs (run powQ sqrtQ es (initialState t0 g)).1)
  = map pegId (seq 0 30) /\
  length (pegs (run powQ sqrtQ es (initialState t0 g)).1) = 30%nat.
Proof.
  assert (map Peg.id (pegs (run powQ sqrtQ es (initialState t0 g)).1)
          = map pegId (seq 0 30)) as H.
  { apply run_ids;
      [apply initialState_consistent | apply initialState_pegsOk |].
    destruct (initialState_fields t0 g) as (_ & _ & _ & -> & _).
    by destruct (generatePegs_inv 30 (generateBingoCard g).2) as [-> _]. }
  split; [exact H|].
  apply (f_equal length) in H. by rewrite !length_map, length_seq in H.
Qed.

(** ** The range of the numbers *)

Lemma pickHitNumber_range (pool : list Z) (marked : gset Z) (g : RNG) :
  unitDraws g -> (forall n, n ∈ pool -> inRange n) ->
  exists n, (pickHitNumber pool marked g).1 = Some n /\ inRange n.
Proof.
  intros Hg Hpool. unfold pickHitNumber, Math_random. cbv beta iota zeta.
  cbn [draws cursor]. fold (unmarkedOf pool marked).
  destruct (Hg (S (cursor g))) as [Hu0 Hu1].
  destruct (0 <? length (unmarkedOf pool marked))%nat eqn:Hlen; cbn [andb].
  2: { eexists. split; [reflexivity|]. unfold inRange.
       pose proof (floor_unit_range 75 (draws g (S (cursor g))) ltac:(lia) Hu0 Hu1).
       cbn [fst]. change (inject_Z 75) with 75%Q in *. lia. }
  destruct (Qltb _ _).
  2: { eexists. split; [reflexivity|]. unfold inRange.
       pose proof (floor_unit_range 75 (draws g (S (cursor g))) ltac:(lia) Hu0 Hu1).
       cbn [fst]. change (inject_Z 75) with 75%Q in *. lia. }
  cbn [fst]. apply Nat.ltb_lt in Hlen.
  pose proof (floor_unit_range (Z.of_nat (length (unmarkedOf pool marked)))
                (draws g (S (cursor g))) ltac:(lia) Hu0 Hu1) as Hrange.
  unfold arrayGet.
  destruct (Z.ltb_spec (Qfloor (draws g (S (cursor g))
              * inject_Z (Z.of_nat (length (unmarkedOf pool marked))))) 0);
    [lia|].
  destruct (lookup_lt_is_Some_2 (unmarkedOf pool marked)
              (Z.to_nat (Qfloor (draws g (S (cursor g))
                 * inject_Z (Z.of_nat (length (unmarkedOf pool marked)))))))
    as [n Hn]; [lia|].
  exists n. split; [exact Hn|].
  apply list_elem_of_lookup_2, elem_of_unmarkedOf in Hn as [Hn _]. auto.
Qed.

Lemma scanPeg_range (x y : number) (pool : list Z) (marked : gset Z)
    (st : ScanState) (p : Peg) :
  (forall n, n ∈ pool -> inRange n) ->
  unitDraws (scanRng st) -> Forall okUpdate (scanUpdates st) ->
  let st' := scanPeg x y pool marked st p in
  unitDraws (scanRng st') /\ Forall okUpdate (scanUpdates st').
Proof.
  intros Hpool Hg Hups. unfold scanPeg.
  destruct (Peg.removed p); [done|].
  set (dist2 := (_ + _)%num).
  destruct (dist2 <=? rr)%num.
  - destruct (Peg.hit p); cbn [negb].
    + cbn [scanBest]. destruct (dist2 <? scanBest st)%num; done.
    + destruct (pickHitNumber_range pool marked (scanRng st) Hg Hpool)
        as (n & Hn & Hr).
      pose proof (pickHitNumber_draws pool marked (scanRng st)) as Hd.
      destruct (pickHitNumber pool marked (scanRng st)) as [num g1].
      cbn [fst snd] in *. subst num. cbn [scanBest].
      assert (unitDraws g1) by (by apply (unitDraws_ext (scanRng st))).
      assert (Forall okUpdate (scanUpdates st ++ [(Peg.id p, Some n)])).
      { apply Forall_app. split; [done|]. constructor; [|done]. by exists n. }
      destruct (dist2 <? scanBest st)%num; done.
  - destruct (dist2 <? scanBest st)%num; done.
Qed.

Lemma scan_range (x y : number) (pool : list Z) (marked : gset Z)
    (ps : list Peg) (st : ScanState) :
  (forall n, n ∈ pool -> inRange n) ->
  unitDraws (scanRng st) -> Forall okUpdate (scanUpdates st) ->
  let st' := foldl (scanPeg x y pool marked) st ps in
  unitDraws (scanRng st') /\ Forall okUpdate (scanUpdates st').
Proof.
  intros Hpool. revert st.
  induction ps as [|p ps IH]; intros st Hg Hups; cbn [foldl]; [done|].
  destruct (scanPeg_range x y pool marked st p Hpool Hg Hups) as [H1 H2].
  by apply IH.
Qed.

Lemma updated_range (ups : list (string * option Z)) (p : Peg) :
  Forall okUpdate ups -> numInRange p -> numInRange (updated ups p).
Proof.
  intros Hups Hp. unfold updated.
  destruct (list_to_map (reverse ups) !! Peg.id p) as [o|] eqn:E; [|done].
  apply elem_of_list_to_map_2 in E. rewrite elem_of_reverse in E.
  rewrite Forall_forall in Hups. destruct (Hups _ E) as (n & Hn & Hr).
  cbn [snd] in Hn. subst o. cbn. intros m [= <-]. exact Hr.
Qed.

Section Ranges.

Variable powQ : Q -> Q -> Q.
Variable sqrtQ : Q -> Q.

Lemma same_numbersOk (s s' : GameState) :
  numbersOk s -> card s' = card s -> pegs s' = pegs s ->
  draws (rng s') = draws (rng s) -> numbersOk (render s').
Proof.
  intros (Hpool & Hpegs & Hg) E1 E2 E3. unfold numbersOk, pool in *.
  destruct (render_static s') as (-> & _). rewrite render_pegs, render_draws.
  rewrite E1, E2. split; [exact Hpool|]. split; [exact Hpegs|].
  by apply (unitDraws_ext (rng s)).
Qed.

Lemma fresh_numInRange (ps : list Peg) : Forall fresh ps -> Forall numInRange ps.
Proof.
  intros H. eapply Forall_impl; [exact H|].
  intros p (_ & _ & Hn) n Hp. congruence.
Qed.

Lemma cleanup_numbersOk (s : GameState) :
  consistent s -> numbersOk s ->
  numbersOk (render (cleanupStep s).1) /\ Forall inRange (cleanupStep s).2.
Proof.
  intros (_ & _ & Hp & _) Hok. pose proof Hok as (Hpool & Hpegs & Hg).
  unfold cleanupStep. destruct (_ && _).
  2: { cbn [fst snd]. split; [by apply (same_numbersOk s)|constructor]. }
  pose proof (cleanupPegs_next (hitPegIdsRef s) (pegsRef s)) as Hnext.
  pose proof (cleanupPegs_nums (hitPegIdsRef s) (pegsRef s)) as Hnums.
  destruct (cleanupPegs _ _) as [next hitNums]. cbn [fst snd] in *.
  destruct (markNumbers_shape hitNums s) as (m & d & -> & _).
  subst next hitNums. rewrite Hp. split.
  - unfold numbersOk, pool in *. rewrite render_pegs, render_draws.
    match goal with |- context [render ?s0] =>
      destruct (render_static s0) as (-> & _) end.
    proj. split; [exact Hpool|]. split; [|exact Hg].
    apply Forall_map. eapply Forall_impl; [exact Hpegs|].
    intros p Hn. unfold cleaned. case_decide; [|exact Hn]. exact Hn.
  - apply Forall_forall. intros n Hn.
    apply list_elem_of_omap in Hn as (p & Hin & Hnum).
    apply list_elem_of_filter in Hin as [_ Hin].
    rewrite Forall_forall in Hpegs. by apply (Hpegs p).
Qed.

Lemma physics_numbersOk (dt : Q) (s : GameState) :
  consistent s -> numbersOk s ->
  numbersOk (render (physicsStep powQ sqrtQ dt s)).
Proof.
  intros (_ & _ & Hp & Hpl & _) (Hpool & Hpegs & Hg).
  destruct (physicsStep_fields powQ sqrtQ dt s) as (x & y & _ & E2 & E3).
  destruct (physicsStep_static powQ sqrtQ dt s) as (E1 & _).
  destruct (scan_range x y (poolRef s) (markedRef s) (pegsRef s)
              (mkScan (hitPegIdsRef s) [] None PosInf (rng s)))
    as [S1 S2]; [by rewrite Hpl | exact Hg | constructor |].
  fold (scanPegs x y s) in S1, S2.
  unfold numbersOk, pool in *. rewrite render_pegs, render_draws.
  destruct (render_static (physicsStep powQ sqrtQ dt s)) as (-> & _).
  rewrite E1, E2, E3. split; [exact Hpool|]. split; [|exact S1].
  apply Forall_map. eapply Forall_impl; [exact Hpegs|].
  intros p Hn. by apply updated_range.
Qed.

Lemma handleEnd_draws (s : GameState) :
  draws (rng (handleEnd s)) = draws (rng s).
Proof.
  unfold handleEnd, setIsPositioning, setBallsLeft, Math_random; proj.
  destruct (negb _); [destruct (eqb _ _); proj; reflexivity|].
  destruct (_ || _); [destruct (eqb _ _); proj; reflexivity|].
  destruct (eqb _ _); proj; destruct (_ =? _)%Z; proj; reflexivity.
Qed.

Lemma board_numbersOk (g : RNG) (c : Card) (s' : GameState) :
  unitDraws g -> (forall n, n ∈ cardNumberPool c -> inRange n) ->
  card s' = c -> pegs s' = (generatePegs 30 g).1 ->
  rng s' = (generatePegs 30 g).2 -> numbersOk s'.
Proof.
  intros Hg Hpool E1 E2 E3. unfold numbersOk, pool. rewrite E1, E2, E3.
  split; [exact Hpool|]. split.
  - apply fresh_numInRange.
    by destruct (generatePegs_board g) as (_ & _ & _ & Hfresh & _).
  - apply (unitDraws_ext g); [apply generatePegs_draws | exact Hg].
Qed.

Lemma handle_numbersOk (e : Event) (s : GameState) :
  consistent s -> numbersOk s ->
  numbersOk (handle powQ sqrtQ e s).1 /\
  Forall inRange (handle powQ sqrtQ e s).2.
Proof.
  intros Hs Hok. pose proof Hok as (Hpool & Hpegs & Hg).
  destruct e; cbn [handle].
  - unfold step.
    pose proof (with_lastUpdateRef_consistent now s Hs) as Hs'.
    assert (numbersOk (with_lastUpdateRef now s)) as Hok' by exact Hok.
    destruct (negb _).
    + pose proof (cleanup_numbersOk (with_lastUpdateRef now s) Hs' Hok') as H.
      destruct (cleanupStep _) as [s1 out]. exact H.
    + cbn [fst snd]. split; [|constructor]. by apply physics_numbersOk.
  - cbn [fst snd]. split; [|constructor].
    destruct (handleStart_static x01 s) as (E1 & _ & _ & E2 & _ & E3).
    apply (same_numbersOk s); [exact Hok | exact E1 | exact E2 | by rewrite E3].
  - cbn [fst snd]. split; [|constructor].
    destruct (handleMove_static x01 s) as (E1 & _ & _ & E2 & _ & E3).
    apply (same_numbersOk s); [exact Hok | exact E1 | exact E2 | by rewrite E3].
  - cbn [fst snd]. split; [|constructor].
    destruct (handleEnd_static s) as (E1 & _ & E2 & _).
    apply (same_numbersOk s);
      [exact Hok | exact E1 | exact E2 | apply handleEnd_draws].
  - split; [|constructor]. cbn [fst].
    destruct (resetBoard_static s)
      as (E1 & _ & _ & _ & _ & E2 & _ & _ & _ & _ & _ & E3).
    apply (board_numbersOk (rng s) (card s)); [exact Hg | exact Hpool | ..].
    + destruct (render_static (resetBoard s)) as (-> & _). exact E1.
    + rewrite render_pegs. exact E2.
    + rewrite render_draws. exact E3.
  - split; [|constructor].
    destruct (newGame_static powQ sqrtQ s) as (E1 & _ & _ & E2 & _ & _ & _ & E3).
    apply (board_numbersOk (generateBingoCard (rng s)).2
                           (generateBingoCard (rng s)).1);
      [|intros n; apply generateBingoCard_pool_range; exact Hg
       | exact E1 | exact E2 | exact E3].
    apply (unitDraws_ext (rng s)); [apply generateBingoCard_draws | exact Hg].
Qed.

Lemma run_numbersOk (es : list Event) (s : GameState) :
  consistent s -> numbersOk s ->
  numbersOk (run powQ sqrtQ es s).1 /\ Forall inRange (run powQ sqrtQ es s).2.
Proof.
  revert s. induction es as [|e es IH]; intros s Hs Hok.
  { cbn [run fst snd]. split; [done|constructor]. }
  rewrite run_cons. cbn [fst snd].
  destruct (handle_numbersOk e s Hs Hok) as [H1 H2].
  destruct (IH (handle powQ sqrtQ e s).1 (handle_consistent powQ sqrtQ e s Hs) H1)
    as [I1 I2].
  split; [done|]. apply Forall_app. done.
Qed.

Lemma initialState_numbersOk (t0 : Q) (g : RNG) :
  unitDraws g -> numbersOk (initialState t0 g).
Proof.
  intros Hg. destruct (initialState_fields t0 g)
    as (E1 & _ & _ & E2 & _ & _ & _ & E3 & _).
  apply (board_numbersOk (generateBingoCard g).2 (generateBingoCard g).1);
    [|intros n; apply generateBingoCard_pool_range; exact Hg
     | exact E1 | exact E2 | exact E3].
  apply (unitDraws_ext g); [apply generateBingoCard_draws | exact Hg].
Qed.

End Ranges.

(** X22. With [Math.random] in [0, 1), every number the game
    ever reveals, every number on a peg and every number of the card is
    between 1 and 75. *)
Theorem numbers_in_range powQ sqrtQ (t0 : Q) (g : RNG) (es : list Event) :
  unitDraws g ->
  let r := run powQ sqrtQ es (initialState t0 g) in
  Forall inRange r.2 /\ Forall numInRange (pegs r.1) /\
  Forall inRange (pool r.1).
Proof.
  intros Hg.
  destruct (run_numbersOk powQ sqrtQ es (initialState t0 g)
              (initialState_consistent t0 g) (initialState_numbersOk t0 g Hg))
    as [(H1 & H2 & _) H3].
  cbv zeta. split; [exact H3|]. split; [exact H2|].
  apply Forall_forall. exact H1.
Qed.

Lemma numbers_in_range_witness :
  let r := run powApprox sqrtApprox [PointerDown 0.3; PointerUp; Frame 16]
               (initialState 0 cycleDraws) in
  Forall inRange r.2 /\ Forall numInRange (pegs r.1) /\
  Forall inRange (pool r.1).
Proof.
  apply (numbers_in_range powApprox sqrtApprox 0 cycleDraws
           [PointerDown 0.3; PointerUp; Frame 16]).
  cycle_unit.
Defined.

(** ** The scan of the pegs *)

Lemma scanPeg_fields (x y : number) (pool : list Z) (marked : gset Z)
    (st : ScanState) (p : Peg) :
  let st' := scanPeg x y pool marked st p in
  (scanHit st' = if Peg.removed p then scanHit st
                 else if (dist2To x y p <=? rr)%num
                      then {[Peg.id p]} ∪ scanHit st else scanHit st) /\
  (scanClosest st' = if Peg.removed p then scanClosest st
                     else if (dist2To x y p <? scanBest st)%num
                          then Some p else scanClosest st) /\
  (scanBest st' = if Peg.removed p then scanBest st
                  else if (dist2To x y p <? scanBest st)%num
                       then dist2To x y p else scanBest st).
Proof.
  unfold scanPeg. fold (dist2To x y p). destruct (Peg.removed p); [done|].
  destruct (dist2To x y p <=? rr)%num.
  - destruct (Peg.hit p); cbn [negb].
    + cbn [scanBest]. destruct (dist2To x y p <? scanBest st)%num; done.
    + destruct (pickHitNumber pool marked (scanRng st)) as [num g1].
      cbn [scanBest]. destruct (dist2To x y p <? scanBest st)%num; done.
  - destruct (dist2To x y p <? scanBest st)%num; done.
Qed.

Lemma scan_hit (x y : number) (pool : list Z) (marked : gset Z)
    (ps : list Peg) (st : ScanState) (i : string) :
  i ∈ scanHit (foldl (scanPeg x y pool marked) st ps) <->
  i ∈ scanHit st \/ exists p, p ∈ ps /\ Peg.id p = i /\ touches x y p.
Proof.
  revert st. induction ps as [|p ps IH]; intros st; cbn [foldl].
  { split; [auto|]. intros [H|(p & Hp & _)]; [done|by apply elem_of_nil in Hp]. }
  rewrite IH. destruct (scanPeg_fields x y pool marked st p) as (-> & _).
  unfold touches. split.
  - intros [H|(q & Hq & Hid & Ht)].
    + destruct (Peg.removed p) eqn:Hr; [by left|].
      destruct (dist2To x y p <=? rr)%num eqn:Hd; [|by left].
      apply elem_of_union in H as [H%elem_of_singleton|H]; [|by left].
      right. exists p. split; [left|done].
    + right. exists q. split; [by right|done].
  - intros [H|(q & Hq & Hid & Hr & Hd)].
    + left. destruct (Peg.removed p); [done|].
      destruct (dist2To x y p <=? rr)%num; [|done]. set_solver.
    + apply elem_of_cons in Hq as [->|Hq].
      * left. rewrite Hr, Hd. set_solver.
      * right. exists q. done.
Qed.

Lemma ltb_irrefl (a : number) : (a <? a)%num = false.
Proof.
  destruct a as [|q| |]; cbn; try done. apply Qltb_ge. apply Qle_refl.
Qed.

Lemma ltb_below (a b c : number) :
  (a <? b)%num = false -> (c <? b)%num = true -> (a <? c)%num = false.
Proof.
  destruct a as [|p| |], b as [|q| |], c as [|r| |]; cbn; try done.
  intros H1 H2. apply Qltb_ge in H1. apply Qltb_lt in H2.
  apply Qltb_ge. lra.
Qed.

Lemma ltb_trans (a b c : number) :
  (a <? b)%num = true -> (b <? c)%num = true -> (a <? c)%num = true.
Proof.
  destruct a as [|p| |], b as [|q| |], c as [|r| |]; cbn; try done.
  intros H1 H2. apply Qltb_lt in H1, H2. apply Qltb_lt. lra.
Qed.

Lemma scan_nearest (x y : number) (pool : list Z) (marked : gset Z)
    (ps : list Peg) (st : ScanState) :
  let st' := foldl (scanPeg x y pool marked) st ps in
  (forall p, p ∈ ps -> Peg.removed p = false ->
     (dist2To x y p <? scanBest st')%num = false) /\
  ((scanBest st' <? scanBest st)%num = false ->
     scanClosest st' = scanClosest st /\ scanBest st' = scanBest st) /\
  ((scanBest st' <? scanBest st)%num = true ->
     exists c, scanClosest st' = Some c /\ c ∈ ps /\ Peg.removed c = false /\
               scanBest st' = dist2To x y c) /\
  (forall a, (a <? scanBest st)%num = false -> (a <? scanBest st')%num = false).
Proof.
  revert st. induction ps as [|p ps IH]; intros st; cbn [foldl].
  { split_and!.
    - intros p Hp. by apply elem_of_nil in Hp.
    - done.
    - by rewrite ltb_irrefl.
    - done. }
  destruct (IH (scanPeg x y pool marked st p)) as (I1 & I2 & I3 & I4).
  destruct (scanPeg_fields x y pool marked st p) as (_ & Ec & Eb).
  set (st1 := scanPeg x y pool marked st p) in *.
  set (st' := foldl (scanPeg x y pool marked) st1 ps) in *.
  cbv zeta.
  assert (scanBest st1 = scanBest st /\ scanClosest st1 = scanClosest st /\
          (Peg.removed p = false ->
           (dist2To x y p <? scanBest st)%num = false) \/
          Peg.removed p = false /\ (dist2To x y p <? scanBest st)%num = true /\
          scanBest st1 = dist2To x y p /\ scanClosest st1 = Some p)
    as [(Eb' & Ec' & Hp)|(Hr & Hd & Eb' & Ec')].
  { destruct (Peg.removed p); [left; done|].
    destruct (dist2To x y p <? scanBest st)%num; [right|left]; done. }
  - rewrite Eb', Ec' in *. split_and!.
    + intros q Hq Hr. apply elem_of_cons in Hq as [->|Hq]; [|by apply I1].
      by apply I4, Hp.
    + exact I2.
    + intros Hlt. destruct (I3 Hlt) as (c & H1 & H2 & H3 & H4).
      exists c. split_and!; try done. by right.
    + exact I4.
  - rewrite Eb', Ec' in *. split_and!.
    + intros q Hq Hq'. apply elem_of_cons in Hq as [->|Hq]; [|by apply I1].
      apply I4, ltb_irrefl.
    + intros Hnot. exfalso.
      destruct (scanBest st' <? dist2To x y p)%num eqn:E.
      * by rewrite (ltb_trans _ _ _ E Hd) in Hnot.
      * destruct (I2 eq_refl) as [_ E2]. rewrite E2, Hd in Hnot. done.
    + intros _. destruct (scanBest st' <? dist2To x y p)%num eqn:E.
      * destruct (I3 eq_refl) as (c & H1 & H2 & H3 & H4).
        exists c. split_and!; try done. by right.
      * destruct (I2 eq_refl) as [E1 E2]. exists p.
        split_and!; try done. by left.
    + intros a Ha. apply I4. by eapply ltb_below.
Qed.

Lemma physicsStep_touchedSet powQ sqrtQ (dt : Q) (s : GameState) :
  hitPegIdsRef (physicsStep powQ sqrtQ dt s)
  = scanHit (scanPegs (scanPosition powQ dt s).1 (scanPosition powQ dt s).2 s).
Proof.
  unfold physicsStep, scanPosition.
  destruct (integrate _ _ _) as [[[x y] vx] vy].
  destruct (wallCollisions _ _ _ _) as [[[x1 y1] vx1] vy1]. cbn [fst snd].
  destruct (bounceOff _ _ _ _ _ _) as [[[x2 y2] vx2] vy2].
  destruct (0 <? length _)%nat; destruct (y2 >? 1.06%Q)%num; proj;
    try destruct (S (frameCount s) mod 3 =? 0)%nat; reflexivity.
Qed.

(** X23. After a physics frame the touched set is the one from
    before together with exactly the pegs on the board that lie within the
    collision distance of the ball, taken where it is after integration
    and wall collisions; removed pegs are never added. *)
Theorem frame_touches powQ sqrtQ (dt : Q) (s : GameState) (i : string) :
  i ∈ hitPegIdsRef (physicsStep powQ sqrtQ dt s) <->
  i ∈ hitPegIdsRef s \/
  exists p, p ∈ pegsRef s /\ Peg.id p = i /\
            touches (scanPosition powQ dt s).1 (scanPosition powQ dt s).2 p.
Proof.
  rewrite physicsStep_touchedSet. unfold scanPegs. rewrite scan_hit. done.
Qed.

(** X24. The peg the scan hands to the bounce is a peg on the
    board that no other peg on the board is nearer to the ball than; the
    scan hands over none only if no peg on the board is at a finite
    distance. *)
Theorem bounce_off_nearest (x y : number) (s : GameState) :
  match scanClosest (scanPegs x y s) with
  | Some c =>
      c ∈ pegsRef s /\ Peg.removed c = false /\
      forall p, p ∈ pegsRef s -> Peg.removed p = false ->
                (dist2To x y p <? dist2To x y c)%num = false
  | None =>
      forall p, p ∈ pegsRef s -> Peg.removed p = false ->
                (dist2To x y p <? PosInf)%num = false
  end.
Proof.
  unfold scanPegs.
  destruct (scan_nearest x y (poolRef s) (markedRef s) (pegsRef s)
              (mkScan (hitPegIdsRef s) [] None PosInf (rng s)))
    as (H1 & H2 & H3 & _).
  cbn [scanBest scanClosest] in *.
  destruct (scanBest (foldl _ _ _) <? PosInf)%num eqn:E.
  - destruct (H3 eq_refl) as (c & -> & Hc & Hr & Hb).
    rewrite Hb in H1. done.
  - destruct (H2 eq_refl) as [-> Hb]. rewrite Hb in H1. done.
Qed.

(** X25. [clamp] with [a <= b]: a value inside [a, b] is
    returned unchanged in value, every other number but NaN is brought into
    [a, b], the infinities go to the nearer bound, and NaN stays NaN. *)
Theorem clamp_cases (a b : Q) :
  (a <= b)%Q ->
  (forall q, (a <= q <= b)%Q ->
     exists r, clamp (Fin q) a b = Fin r /\ (r == q)%Q) /\
  (forall v, v <> NaN -> Num.within a b (clamp v a b)) /\
  (exists r, clamp PosInf a b = Fin r /\ (r == b)%Q) /\
  (exists r, clamp NegInf a b = Fin r /\ (r == a)%Q) /\
  clamp NaN a b = NaN.
Proof.
  intros Hab. split_and!.
  - intros q [H1 H2]. unfold clamp, Math_max, Math_min. cbn [Num.ltb].
    destruct (Qltb q b) eqn:E1; [|apply Qltb_ge in E1]; cbn [Num.ltb].
    + destruct (Qltb a q) eqn:E2; [|apply Qltb_ge in E2]; eexists;
        (split; [reflexivity|]); lra.
    + destruct (Qltb a b) eqn:E2; [|apply Qltb_ge in E2]; eexists;
        (split; [reflexivity|]); lra.
  - intros v Hv. destruct (clamp_spec v a b Hab) as [[? _]|[_ ?]]; done.
  - unfold clamp, Math_max, Math_min. cbn.
    destruct (Qltb a b) eqn:E; [|apply Qltb_ge in E]; eexists;
      (split; [reflexivity|]); lra.
  - unfold clamp, Math_max, Math_min. cbn. eexists. split; [reflexivity|]. lra.
  - reflexivity.
Qed.

Lemma clamp_cases_witness :
  Num.within 0.06 0.94 (clamp PosInf 0.06%Q 0.94%Q).
Proof.
  destruct (clamp_cases 0.06 0.94) as (_ & H & _); [lra|].
  apply H. discriminate.
Defined.

(** ** How many marks a bingo takes *)

Lemma concat_lookup_inj (cols : list (list Z)) (c c' r r' : nat)
    (p p' : list Z) (n : Z) :
  NoDup (concat cols) ->
  cols !! c = Some p -> cols !! c' = Some p' ->
  p !! r = Some n -> p' !! r' = Some n -> c = c' /\ r = r'.
Proof.
  revert c c'. induction cols as [|q cols IH]; intros c c' Hnd Hc Hc' Hr Hr';
    [done|].
  cbn [concat] in Hnd. apply NoDup_app in Hnd as (Hq & Hdisj & Hrest).
  assert (forall (k : nat) (p0 : list Z) (j : nat),
            cols !! k = Some p0 -> p0 !! j = Some n -> n ∈ concat cols) as Hin.
  { intros k p0 j Hk Hj. apply list_elem_of_In, in_concat. exists p0.
    split; apply list_elem_of_In; by eapply list_elem_of_lookup_2. }
  destruct c as [|c], c' as [|c']; cbn in Hc, Hc'.
  - assert (p = q) as -> by congruence. assert (p' = q) as -> by congruence.
    split; [done|]. exact (NoDup_lookup q r r' n Hq Hr Hr').
  - assert (p = q) as -> by congruence. exfalso.
    apply (Hdisj n); [by eapply list_elem_of_lookup_2 | by eapply Hin].
  - assert (p' = q) as -> by congruence. exfalso.
    apply (Hdisj n); [by eapply list_elem_of_lookup_2 | by eapply Hin].
  - destruct (IH c c' Hrest Hc Hc' Hr Hr') as [-> ->]. done.
Qed.

Lemma marked_positions (cols : list (list Z)) (X : gset Z)
    (pos : list (nat * nat)) :
  NoDup (concat cols) -> NoDup pos ->
  Forall (fun rc => exists n, pickAt cols rc = Some n /\ n ∈ X) pos ->
  (length pos <= size X)%nat.
Proof.
  intros Hnd Hpos Hall.
  assert (exists nums : list Z,
            Forall2 (fun rc n => pickAt cols rc = Some n /\ n ∈ X) pos nums)
    as [nums Hnums].
  { induction Hall as [|rc pos (n & Hn & Hm) _ IH]; [by exists []|].
    apply NoDup_cons in Hpos as [_ Hpos]. destruct (IH Hpos) as [nums Hnums].
    exists (n :: nums). by constructor. }
  assert (NoDup nums) as Hnn.
  { clear Hall. induction Hnums as [|rc n pos nums [Hn _] Hrest IH];
      [constructor|].
    apply NoDup_cons in Hpos as [Hnew Hpos]. constructor; [|by apply IH].
    intros Hin. apply list_elem_of_lookup in Hin as [j Hj].
    destruct (Forall2_lookup_r _ _ _ _ _ Hrest Hj) as (rc' & Hrc' & Hn' & _).
    apply Hnew. apply list_elem_of_lookup_2 in Hrc'.
    assert (rc = rc') as ->; [|done].
    unfold pickAt in Hn, Hn'.
    destruct (cols !! rc.2) as [p|] eqn:E; [|done].
    destruct (cols !! rc'.2) as [p'|] eqn:E'; [|done]. cbn in Hn, Hn'.
    destruct (concat_lookup_inj cols _ _ _ _ p p' n Hnd E E' Hn Hn') as [H1 H2].
    destruct rc, rc'. cbn in *. congruence. }
  rewrite (Forall2_length _ _ _ Hnums).
  rewrite <- (size_list_to_set (C:=gset Z) nums Hnn).
  apply subseteq_size. intros n Hn. apply elem_of_list_to_set in Hn.
  apply list_elem_of_lookup in Hn as [j Hj].
  by destruct (Forall2_lookup_r _ _ _ _ _ Hnums Hj) as (rc & _ & _ & Hm).
Qed.

Lemma isMarked_pickCell (marked : gset Z) (p : list Z) (r : nat) :
  isMarked marked (pickCell p r) = true ->
  exists n, p !! r = Some n /\ n ∈ marked.
Proof.
  unfold pickCell. destruct (p !! r) as [n|]; cbn; [|done].
  intros H%bool_decide_eq_true. by exists n.
Qed.


Lemma cell_in_pool (card : Card) (r c : nat) (n : Z) :
  cellOf card r c = Some (CNum n) -> n ∈ cardNumberPool card.
Proof.
  unfold cellOf. destruct (card !! r) as [row|] eqn:Hr; [|done]. cbn.
  intros Hc. rewrite cardNumberPool_rows.
  apply list_elem_of_In, in_concat. exists (rowNumbers row). split.
  - apply in_map, list_elem_of_In. by eapply list_elem_of_lookup_2.
  - unfold rowNumbers. apply in_concat. exists [n]. split; [|by left].
    apply list_elem_of_lookup_2, list_elem_of_In in Hc.
    by apply (in_map (fun v => match v with CNum n => [n] | _ => [] end)) in Hc.
Qed.

(** X26. On a generated card a bingo takes at least four marked
    numbers of the card: the free centre completes no line on its own, and
    no number counts twice. *)
Theorem bingo_needs_four_marks (g : RNG) (marked : gset Z) :
  hasBingo (generateBingoCard g).1 marked = Some true ->
  (4 <= size (marked ∩ list_to_set (cardNumberPool (generateBingoCard g).1)))%nat.
Proof.
  intros H.
  destruct (columnPicks_spec COLS ∅ g) as (_ & Hnd & _).
  pose proof (cell_in_pool (generateBingoCard g).1) as Hpool.
  destruct (generateBingoCard_cells g)
    as (p0 & p1 & p2 & p3 & p4 & Ecols & Ecard).
  rewrite Ecols in Hnd. rewrite Ecard in H, Hpool |- *. clear Ecols Ecard.
  match goal with |- (4 <= size ?Y)%nat => set (X := Y) end.
  assert (forall r c p,
            [p0; p1; p2; p3; p4] !! c = Some p ->
            cellOf
              [[pickCell p0 0; pickCell p1 0; pickCell p2 0; pickCell p3 0;
                pickCell p4 0];
               [pickCell p0 1; pickCell p1 1; pickCell p2 1; pickCell p3 1;
                pickCell p4 1];
               [pickCell p0 2; pickCell p1 2; FREE; pickCell p3 2;
                pickCell p4 2];
               [pickCell p0 3; pickCell p1 3; pickCell p2 3; pickCell p3 3;
                pickCell p4 3];
               [pickCell p0 4; pickCell p1 4; pickCell p2 4; pickCell p3 4;
                pickCell p4 4]] r c = Some (pickCell p r) ->
            isMarked marked (pickCell p r) = true ->
            exists n, pickAt [p0; p1; p2; p3; p4] (r, c) = Some n /\ n ∈ X)
    as Hmark.
  { intros r c p Hc Hcell Hm.
    destruct (isMarked_pickCell marked p r Hm) as (n & Hn & Hin).
    exists n. split.
    - unfold pickAt. cbn [fst snd]. rewrite Hc. exact Hn.
    - apply elem_of_intersection. split; [exact Hin|].
      apply elem_of_list_to_set, (Hpool r c). rewrite Hcell.
      unfold pickCell. by rewrite Hn. }
  clear Hpool. unfold hasBingo in H. cbn [lookup list_lookup] in H.
  assert (forall b, Some b = Some true -> b = true) as Hinj by congruence.
  apply Hinj in H. clear Hinj.
  cbn [seq map app existsb forallb cellAt lookup list_lookup default id
       option_rect from_option] in H.
  repeat match type of H with
         | (_ || _) = true => apply orb_prop in H as [H|H]
         end;
    try discriminate H;
    repeat match goal with
           | H : (_ && _) = true |- _ =>
               let H1 := fresh "M" in apply andb_prop in H as [H1 H]
           end.
  - apply (marked_positions _ X [(0, 0); (0, 1); (0, 2); (0, 3)]%nat Hnd);
      [apply (bool_decide_unpack _); vm_compute; exact I|].
    repeat constructor; eapply Hmark; first [reflexivity | eassumption].
  - apply (marked_positions _ X [(1, 0); (1, 1); (1, 2); (1, 3)]%nat Hnd);
      [apply (bool_decide_unpack _); vm_compute; exact I|].
    repeat constructor; eapply Hmark; first [reflexivity | eassumption].
  - apply (marked_positions _ X [(2, 0); (2, 1); (2, 3); (2, 4)]%nat Hnd);
      [apply (bool_decide_unpack _); vm_compute; exact I|].
    repeat constructor; eapply Hmark; first [reflexivity | eassumption].
  - apply (marked_positions _ X [(3, 0); (3, 1); (3, 2); (3, 3)]%nat Hnd);
      [apply (bool_decide_unpack _); vm_compute; exact I|].
    repeat constructor; eapply Hmark; first [reflexivity | eassumption].
  - apply (marked_positions _ X [(4, 0); (4, 1); (4, 2); (4, 3)]%nat Hnd);
      [apply (bool_decide_unpack _); vm_compute; exact I|].
    repeat constructor; eapply Hmark; first [reflexivity | eassumption].
  - apply (marked_positions _ X [(0, 0); (1, 0); (2, 0); (3, 0)]%nat Hnd);
      [apply (bool_decide_unpack _); vm_compute; exact I|].
    repeat constructor; eapply Hmark; first [reflexivity | eassumption].
  - apply (marked_positions _ X [(0, 1); (1, 1); (2, 1); (3, 1)]%nat Hnd);
      [apply (bool_decide_unpack _); vm_compute; exact I|].
    repeat constructor; eapply Hmark; first [reflexivity | eassumption].
  - apply (marked_positions _ X [(0, 2); (1, 2); (3, 2); (4, 2)]%nat Hnd);
      [apply (bool_decide_unpack _); vm_compute; exact I|].
    repeat constructor; eapply Hmark; first [reflexivity | eassumption].
  - apply (marked_positions _ X [(0, 3); (1, 3); (2, 3); (3, 3)]%nat Hnd);
      [apply (bool_decide_unpack _); vm_compute; exact I|].
    repeat constructor; eapply Hmark; first [reflexivity | eassumption].
  - apply (marked_positions _ X [(0, 4); (1, 4); (2, 4); (3, 4)]%nat Hnd);
      [apply (bool_decide_unpack _); vm_compute; exact I|].
    repeat constructor; eapply Hmark; first [reflexivity | eassumption].
  - apply (marked_positions _ X [(0, 0); (1, 1); (3, 3); (4, 4)]%nat Hnd);
      [apply (bool_decide_unpack _); vm_compute; exact I|].
    repeat constructor; eapply Hmark; first [reflexivity | eassumption].
  - apply (marked_positions _ X [(0, 4); (1, 3); (3, 1); (4, 0)]%nat Hnd);
      [apply (bool_decide_unpack _); vm_compute; exact I|].
    repeat constructor; eapply Hmark; first [reflexivity | eassumption].
Qed.

Lemma bingo_needs_four_marks_witness :
  (4 <= size ({[12; 24; 50; 63]}%Z
              ∩ list_to_set (cardNumberPool (generateBingoCard cycleDraws).1)
             : gset Z))%nat.
Proof.
  apply (bingo_needs_four_marks cycleDraws {[12; 24; 50; 63]}%Z).
  vm_compute. reflexivity.
Defined.

(** X27. A frame that finds the ball at rest above the drain
    line, or with an empty touched set, only records its time: no state,
    no peg and no random number is touched, and nothing is revealed. *)
Theorem resting_frame_inert powQ sqrtQ (now : Q) (s : GameState) :
  consistent s -> PBall.dropping (ballRef s) = false ->
  (PBall.y (ballRef s) >=? 1.05%Q)%num = false \/ hitPegIdsRef s = ∅ ->
  handle powQ sqrtQ (Frame now) s = (with_lastUpdateRef now s, []).
Proof.
  intros Hs Hd Hrest. cbn [handle]. unfold step.
  cbn [ballRef with_lastUpdateRef]. rewrite Hd. cbn [negb].
  unfold cleanupStep. cbn [ballRef hitPegIdsRef with_lastUpdateRef].
  assert ((PBall.y (ballRef s) >=? 1.05%Q)%num
          && (0 <? size (hitPegIdsRef s))%nat = false) as ->.
  { destruct Hrest as [->| ->]; [done|]. apply andb_false_r. }
  unfold render. cbn [dirty with_lastUpdateRef].
  destruct Hs as (-> & _). reflexivity.
Qed.

Lemma resting_frame_inert_witness :
  handle powApprox sqrtApprox (Frame 16) (initialState 0 cycleDraws)
  = (with_lastUpdateRef 16 (initialState 0 cycleDraws), []).
Proof.
  apply (resting_frame_inert powApprox sqrtApprox).
  - apply initialState_consistent.
  - vm_compute. reflexivity.
  - left. vm_compute. reflexivity.
Defined.

(** ** A drop from release to drain *)

Lemma physicsStep_dropping powQ sqrtQ (dt : Q) (s : GameState) :
  ballSet s = false ->
  let s' := render (physicsStep powQ sqrtQ dt s) in
  PBall.dropping (ballRef s') = true \/
  exists x, ballRef s' = PBall.mk x 1.06%Q 0%Q 0%Q false.
Proof.
  intros Hset. unfold physicsStep.
  destruct (integrate _ _ _) as [[[x y] vx] vy].
  destruct (wallCollisions _ _ _ _) as [[[x1 y1] vx1] vy1].
  destruct (bounceOff _ _ _ _ _ _) as [[[x2 y2] vx2] vy2].
  destruct (0 <? length _)%nat; destruct (y2 >? 1.06%Q)%num; proj;
    try destruct (S (frameCount s) mod 3 =? 0)%nat; unfold render; proj;
    rewrite ?Hset; try destruct (dirty s); proj; eauto.
Qed.

(** X28. A falling ball never stops in mid-air: whatever input
    arrives short of a board reset or a new game, afterwards it is either
    still falling, or a frame has just put it to rest at the drain, at
    y = 1.06 with no velocity. *)
Theorem falling_until_drain powQ sqrtQ (e : Event) (s : GameState) :
  consistent s -> PBall.dropping (ballRef s) = true -> noReset e ->
  let s' := (handle powQ sqrtQ e s).1 in
  PBall.dropping (ballRef s') = true \/
  (exists now, e = Frame now) /\
  exists x, ballRef s' = PBall.mk x 1.06%Q 0%Q 0%Q false.
Proof.
  intros Hs Hd He. pose proof Hs as (Hdirty & Hset & _).
  assert (render s = s) as Hr by (unfold render; by rewrite Hdirty).
  destruct e; cbn [noReset] in He; try done; cbn [handle fst].
  - unfold step. cbn [ballRef with_lastUpdateRef]. rewrite Hd. cbn [negb fst].
    destruct (physicsStep_dropping powQ sqrtQ (frameDt now s)
                (with_lastUpdateRef now s) Hset) as [H|H]; [by left|].
    right. split; [by exists now | exact H].
  - left. unfold handleStart. rewrite Hd. cbn [orb]. by rewrite Hr.
  - left. unfold handleMove. rewrite Hd. cbn [orb].
    destruct (negb _); by rewrite Hr.
  - left.
    destruct (handleEnd_noop powQ sqrtQ s Hs (or_introl Hd)) as (_ & E & _).
    cbn [handle fst] in E. by rewrite E.
Qed.

Lemma falling_until_drain_witness :
  exists x, ballRef (handle powApprox sqrtApprox (Frame 20) fallingSample).1
            = PBall.mk x 1.06%Q 0%Q 0%Q false.
Proof.
  destruct (falling_until_drain powApprox sqrtApprox (Frame 20) fallingSample)
    as [H|[_ H]].
  - unfold consistent. vm_compute. repeat split.
  - reflexivity.
  - exact I.
  - vm_compute in H. discriminate H.
  - exact H.
Defined.

Lemma sq_nonneg (v : Q) : (0 <= v * v)%Q.
Proof. destruct (Qlt_le_dec v 0); nra. Qed.

Lemma shrink (v k : Q) : (-1 <= k <= 1)%Q -> (v * k * (v * k) <= v * v)%Q.
Proof.
  intros Hk. pose proof (sq_nonneg v).
  assert (k * k <= 1)%Q by nra.
  assert (v * k * (v * k) == (v * v) * (k * k))%Q as -> by ring.
  nra.
Qed.

(** X29. After the wall collisions of a frame the ball's centre
    is a ball radius inside the left, right and top walls, and neither
    velocity component has grown in size. *)
Theorem wallCollisions_inside (x y vx vy : Q) :
  exists x' y' vx' vy',
    wallCollisions (Fin x) (Fin y) (Fin vx) (Fin vy)
    = (Fin x', Fin y', Fin vx', Fin vy') /\
    (0.03 <= x' <= 0.97)%Q /\ (0.03 <= y')%Q /\
    (vx' * vx' <= vx * vx)%Q /\ (vy' * vy' <= vy * vy)%Q.
Proof.
  pose proof (shrink vx (-0.85) ltac:(lra)) as Hx.
  pose proof (shrink vy (-0.35) ltac:(lra)) as Hy.
  unfold wallCollisions, rBall. cbn [Num.ltb Num.gtb Num.sub Num.mul].
  destruct (Qltb x 0.03) eqn:Ex; [apply Qltb_lt in Ex|apply Qltb_ge in Ex];
    cbn [Num.ltb Num.gtb Num.sub Num.mul].
  - unfold Num.gtb. cbn [Num.ltb].
    destruct (Qltb (1 - 0.03) 0.03) eqn:E; [apply Qltb_lt in E; lra|].
    destruct (Qltb y 0.03) eqn:Ey; [apply Qltb_lt in Ey|apply Qltb_ge in Ey];
      do 4 eexists; (split; [reflexivity|]); split_and!; lra.
  - unfold Num.gtb. cbn [Num.ltb].
    destruct (Qltb (1 - 0.03) x) eqn:E; [apply Qltb_lt in E|apply Qltb_ge in E];
      (destruct (Qltb y 0.03) eqn:Ey; [apply Qltb_lt in Ey|apply Qltb_ge in Ey]);
      do 4 eexists; (split; [reflexivity|]); split_and!; lra.
Qed.
